(** * pourover: feed ingestion and throttled publishing

    A shallow embedding of [buster/application/models.py] (the [Entry]
    and [Feed] models) and of the handlers of [buster/application/views.py]
    that delete a feed and receive a hub push, over an abstract keyed
    entity store.

    The ndb datastore is a finite map from keys to entities; queries are
    a filter and a sort order over the entities below an ancestor key;
    tasklets are state-passing computations that either return or raise.
    Everything outside the repository that the code talks to (the posting
    API, the feed fetcher, the item preparation of [poster.py], the HMAC
    of the standard library) is a parameter. *)

From Stdlib Require Import ZArith String List Bool Lia OrdersEx Ascii.
From Stdlib Require Import DecimalString DecimalZ DecimalPos.
From stdpp Require Import gmap strings list sorting.

Local Open Scope Z_scope.

(** ** Constants of [constants.py]

    The module is not part of the sources at hand: its integer values
    are taken as parameters. *)

Record Constants := mkConstants {
  FEED_STATE_ACTIVE : Z;
  FEED_STATE_NEEDS_REAUTH : Z;
  OVERFLOW_REASON_BACKLOG : Z;
  OVERFLOW_REASON_MALFORMED : Z;
  OVERFLOW_REASON_FEED_OVERFLOW : Z;
  DEFAULT_PERIOD_SCHEDULE : Z;
  MAX_STORIES_PER_PERIOD : Z;
}.

(** Python's truth value of an integer. *)
Definition truthy (z : Z) : bool := negb (z =? 0).

(** ** Keys and entities *)

(** [User.key_from_adn_user] builds string ids. *)
Abbreviation UserKey := string (only parsing).
(** A feed key is its parent (the owning user's key, if any) and its id. *)
Abbreviation FeedKey := (option UserKey * Z)%type (only parsing).
(** An entry key is [ndb.Key(Entry, guid, parent=feed.key)]. *)
Abbreviation EntryKey := (FeedKey * string)%type (only parsing).

Definition key_parent {P I : Type} (k : P * I) : P := fst k.
Definition key_id {P I : Type} (k : P * I) : I := snd k.

Record User := mkUser { access_token : string }.

(** The properties of [Entry] that the modelled operations read or write.
    The remaining content properties (summary, images, tags, ...) are
    carried like [title] and [link]. [added] is [auto_now_add]: unset
    until the first put. *)
Record Entry := mkEntry {
  guid : string;
  creating : bool;
  title : option string;
  link : option string;
  added : option Z;
  published : bool;
  overflow : bool;
  overflow_reason : Z;
  published_at : option Z;
}.

Record Feed := mkFeed {
  feed_url : string;
  manual_control : bool;
  schedule_period : Z;
  max_stories_per_period : Z;
  status : Z;
  etag : option string;
  language : option string;
  hub_secret : option string;
}.

(** [cls(key=..., guid=x, creating=True)]: every other property at its
    default. *)
Definition new_entry (g : string) (c : bool) : Entry :=
  {| guid := g; creating := c; title := None; link := None; added := None;
     published := false; overflow := false; overflow_reason := 0;
     published_at := None |}.

Definition set_creating (v : bool) (e : Entry) : Entry :=
  {| guid := guid e; creating := v; title := title e; link := link e;
     added := added e; published := published e; overflow := overflow e;
     overflow_reason := overflow_reason e; published_at := published_at e |}.
Definition set_added (v : option Z) (e : Entry) : Entry :=
  {| guid := guid e; creating := creating e; title := title e; link := link e;
     added := v; published := published e; overflow := overflow e;
     overflow_reason := overflow_reason e; published_at := published_at e |}.
Definition set_published (v : bool) (e : Entry) : Entry :=
  {| guid := guid e; creating := creating e; title := title e; link := link e;
     added := added e; published := v; overflow := overflow e;
     overflow_reason := overflow_reason e; published_at := published_at e |}.
Definition set_overflow (v : bool) (e : Entry) : Entry :=
  {| guid := guid e; creating := creating e; title := title e; link := link e;
     added := added e; published := published e; overflow := v;
     overflow_reason := overflow_reason e; published_at := published_at e |}.
Definition set_overflow_reason (v : Z) (e : Entry) : Entry :=
  {| guid := guid e; creating := creating e; title := title e; link := link e;
     added := added e; published := published e; overflow := overflow e;
     overflow_reason := v; published_at := published_at e |}.
Definition set_published_at (v : option Z) (e : Entry) : Entry :=
  {| guid := guid e; creating := creating e; title := title e; link := link e;
     added := added e; published := published e; overflow := overflow e;
     overflow_reason := overflow_reason e; published_at := v |}.

Definition set_status (v : Z) (f : Feed) : Feed :=
  {| feed_url := feed_url f; manual_control := manual_control f;
     schedule_period := schedule_period f;
     max_stories_per_period := max_stories_per_period f; status := v;
     etag := etag f; language := language f; hub_secret := hub_secret f |}.
Definition set_feed_url (v : string) (f : Feed) : Feed :=
  {| feed_url := v; manual_control := manual_control f;
     schedule_period := schedule_period f;
     max_stories_per_period := max_stories_per_period f; status := status f;
     etag := etag f; language := language f; hub_secret := hub_secret f |}.
Definition set_etag (v : option string) (f : Feed) : Feed :=
  {| feed_url := feed_url f; manual_control := manual_control f;
     schedule_period := schedule_period f;
     max_stories_per_period := max_stories_per_period f; status := status f;
     etag := v; language := language f; hub_secret := hub_secret f |}.
Definition set_language (v : option string) (f : Feed) : Feed :=
  {| feed_url := feed_url f; manual_control := manual_control f;
     schedule_period := schedule_period f;
     max_stories_per_period := max_stories_per_period f; status := status f;
     etag := etag f; language := v; hub_secret := hub_secret f |}.

#[global] Instance Entry_eq_dec : EqDecision Entry.
Proof. solve_decision. Defined.
#[global] Instance Feed_eq_dec : EqDecision Feed.
Proof. solve_decision. Defined.

(** ** The world: the datastore and the posts sent out

    [posted] is the sequence of entries for which the POST to the
    external API was issued, oldest first. *)
Record World := mkWorld {
  users : gmap UserKey User;
  feeds : gmap FeedKey Feed;
  stored : gmap EntryKey Entry;
  posted : list EntryKey;
}.

Definition with_feeds (m : gmap FeedKey Feed) (w : World) : World :=
  {| users := users w; feeds := m; stored := stored w; posted := posted w |}.
Definition with_stored (m : gmap EntryKey Entry) (w : World) : World :=
  {| users := users w; feeds := feeds w; stored := m; posted := posted w |}.
Definition with_posted (l : list EntryKey) (w : World) : World :=
  {| users := users w; feeds := feeds w; stored := stored w; posted := l |}.

(** ** Index order and queries

    A datastore query returns the matching entities in index order: by
    the values of the ordered properties, ties broken by key. All
    queries of the models are ancestor queries below one feed, so within
    a result the key order is the order of the key ids (the guids). An
    unset property sorts before every value. *)

Abbreviation Position := (list Z * string)%type (only parsing).

Definition position_compare (p1 p2 : Position) : comparison :=
  match list_compare Z.compare p1.1 p2.1 with
  | Eq => String_as_OT.compare p1.2 p2.2
  | c => c
  end.

Definition position_le (p1 p2 : Position) : Prop :=
  position_compare p1 p2 ≠ Gt.
Definition position_lt (p1 p2 : Position) : Prop :=
  position_compare p1 p2 = Lt.

#[global] Instance position_le_dec p1 p2 : Decision (position_le p1 p2).
Proof. unfold position_le. solve_decision. Defined.
#[global] Instance position_lt_dec p1 p2 : Decision (position_lt p1 p2).
Proof. unfold position_lt. solve_decision. Defined.

(** Ascending and descending sort values of a date property. *)
Definition asc (o : option Z) : list Z :=
  match o with None => [0; 0] | Some t => [1; t] end.
Definition desc (o : option Z) : list Z :=
  match o with None => [0; 0] | Some t => [-1; - t] end.

Abbreviation Row := (EntryKey * Entry)%type (only parsing).

Record Query := mkQuery {
  q_ancestor : FeedKey;
  q_filter : Entry → bool;
  q_order : Entry → list Z;
}.

Definition position_of (q : Query) (r : Row) : Position :=
  (q_order q r.2, key_id r.1).

Definition row_le (q : Query) (r1 r2 : Row) : Prop :=
  position_le (position_of q r1) (position_of q r2).

#[global] Instance row_le_dec q r1 r2 : Decision (row_le q r1 r2).
Proof. unfold row_le. apply _. Defined.

Definition matches (q : Query) (r : Row) : bool :=
  bool_decide (key_parent r.1 = q_ancestor q) && q_filter q r.2.

(** A cursor is a position in the index: the one of the last row
    returned. *)
Definition after_cursor (q : Query) (cursor : option Position) (r : Row) : bool :=
  match cursor with
  | None => true
  | Some p => bool_decide (position_lt p (position_of q r))
  end.

Definition run_query_from (q : Query) (cursor : option Position) (w : World) : list Row :=
  merge_sort (row_le q)
    (filter (λ r, matches q r && after_cursor q cursor r = true)
            (map_to_list (stored w))).

Definition run_query (q : Query) (w : World) : list Row :=
  run_query_from q None w.

(** [q.count_async()] *)
Definition count (q : Query) (w : World) : Z :=
  Z.of_nat (length (run_query q w)).

(** [q.fetch_page_async(page_size, start_cursor=cursor)] gives the page,
    the cursor after its last row, and whether rows remain after it. *)
Definition fetch_page (q : Query) (page_size : nat) (cursor : option Position)
    (w : World) : list Row * option Position * bool :=
  let rest := run_query_from q cursor w in
  let page := take page_size rest in
  (page,
   match last page with Some r => Some (position_of q r) | None => cursor end,
   bool_decide (page_size < length rest)%nat).

(** ** Tasklets: state passing with exceptions *)

Inductive Exn :=
  | AttributeError          (* attribute access on [None] *)
  | BadArgumentError        (* the datastore refuses a negative limit *)
  | Exception (status_code : Z)   (* [raise Exception(resp.content)] *)
  | FetchException          (* raised by the feed fetcher *)
  | DeadlineExceededError.  (* the request ran out of time *)

Inductive Outcome (A : Type) :=
  | Return (a : A)
  | Raise (e : Exn).
Arguments Return {A} a.
Arguments Raise {A} e.

Definition M (A : Type) : Type := World → World * Outcome A.

#[global] Instance M_ret : MRet M := λ A a w, (w, Return a).
#[global] Instance M_bind : MBind M := λ A B f m w,
  match m w with
  | (w', Return a) => f a w'
  | (w', Raise e) => (w', Raise e)
  end.

Definition raise {A} (e : Exn) : M A := λ w, (w, Raise e).
Definition get_world : M World := λ w, (w, Return w).
Definition modify (f : World → World) : M unit := λ w, (f w, Return ()).

Fixpoint for_each {A} (l : list A) (body : A → M unit) : M unit :=
  match l with
  | [] => mret ()
  | x :: l' => body x;; for_each l' body
  end.

(** ** Datastore primitives *)

(** [auto_now_add]: the first put stamps [added]. *)
Definition auto_now_add (now : Z) (e : Entry) : Entry :=
  match added e with
  | None => set_added (Some now) e
  | Some _ => e
  end.

Definition put_entry (now : Z) (key : EntryKey) (e : Entry) : M unit :=
  modify (λ w, with_stored (<[key := auto_now_add now e]> (stored w)) w).

Definition put_feed (key : FeedKey) (f : Feed) : M unit :=
  modify (λ w, with_feeds (<[key := f]> (feeds w)) w).

Definition delete_multi (keys : list EntryKey) : M unit :=
  modify (λ w, with_stored (foldr delete (stored w) keys) w).

Definition delete_feed_key (key : FeedKey) : M unit :=
  modify (λ w, with_feeds (delete key (feeds w)) w).

(** [q.fetch_async(limit)]: the datastore accepts no negative limit. *)
Definition fetch (q : Query) (limit : Z) : M (list Row) :=
  if limit <? 0 then raise BadArgumentError
  else w ← get_world; mret (take (Z.to_nat limit) (run_query q w)).

(** The loop shared by [drain_queue] and [delete_for_feed]:
[[
    more = True
    cursor = None
    while more:
        entries, cursor, more = yield query.fetch_page_async(25, start_cursor=cursor)
        body(entries)
]]
    The query is evaluated against the current datastore at every turn.
    [fuel] bounds the number of turns; running out of it is the request
    deadline. *)
Fixpoint page_loop (fuel : nat) (q : Query) (body : list Row → M unit)
    (cursor : option Position) : M unit :=
  match fuel with
  | O => raise DeadlineExceededError
  | S fuel' =>
      w ← get_world;
      let '(entries, cursor', more) := fetch_page q 25 cursor w in
      body entries;;
      if more then page_loop fuel' q body cursor' else mret ()
  end.

(** One turn per page of 25, and a last one that finds nothing more. *)
Definition enough_fuel (w : World) : nat := S (size (stored w)).

Section Model.

Variable K : Constants.

(** *** The collaborators outside the sources at hand *)

(** An item of a parsed feed, and its stable guid ([utils.guid_for_item]). *)
Variable Item : Type.
Variable guid_for_item : Item → string.

(** The outcome of the POST to the posting API for an entry of a feed,
    with the owner's access token; the payload is the one
    [feed.format_entry_for_adn] builds from the entry. [None]: the call
    raised (deadline, network); [Some c]: the response's status code. *)
Variable urlfetch_post : string → Feed → EntryKey → Entry → option Z.

(** *** Queries of [Entry] *)

Definition latest_for_feed (feed : FeedKey) : Query :=
  {| q_ancestor := feed;
     q_filter := λ e, bool_decide (creating e = false);
     q_order := λ _, [] |}.

Definition latest_unpublished (feed : FeedKey) : Query :=
  {| q_ancestor := feed;
     q_filter := λ e, bool_decide (published e = false)
                      && bool_decide (creating e = false);
     q_order := λ e, desc (added e) |}.

Definition latest (feed : FeedKey) (include_overflow : bool)
    (overflow_cats : option (list Z)) (order_by : string) : Query :=
  let overflow_cats :=
    match overflow_cats with
    | None => [OVERFLOW_REASON_MALFORMED K; OVERFLOW_REASON_FEED_OVERFLOW K]
    | Some cats => cats
    end in
  {| q_ancestor := feed;
     q_filter := λ e, bool_decide (published e = true)
                      && bool_decide (creating e = false)
                      && bool_decide (overflow e = include_overflow)
                      && (if include_overflow
                          then bool_decide (overflow_reason e ∈ overflow_cats)
                          else true);
     q_order := λ e, (if decide (order_by = "added") then asc (added e) else [])
                     ++ (if decide (order_by = "-published_at")
                         then desc (published_at e) else []) |}.

(** A filter [published_at >= since] matches no entity whose
    [published_at] is unset. *)
Definition latest_published (feed : FeedKey) (since : option Z) : Query :=
  {| q_ancestor := feed;
     q_filter := λ e, bool_decide (published e = true)
                      && bool_decide (creating e = false)
                      && match since with
                         | None => true
                         | Some s => match published_at e with
                                     | Some t => s <=? t
                                     | None => false
                                     end
                         end;
     q_order := λ e, desc (published_at e) ++ desc (added e) |}.

(** *** [Entry.delete_for_feed] *)

Definition delete_for_feed_fuel (fuel : nat) (feed : FeedKey) : M unit :=
  page_loop fuel (latest_for_feed feed)
    (λ entries, let entries_keys := (λ x : Row, x.1) <$> entries in
                delete_multi entries_keys)
    None.

Definition delete_for_feed (feed : FeedKey) : M unit :=
  w ← get_world; delete_for_feed_fuel (enough_fuel w) feed.

(** *** [Entry.publish_entry]

    The clock reading [now] of the call is a parameter. The entry is
    the in-memory object [self] under its key; the feed is read again
    from the datastore through the entry's parent key. *)

Definition log_post (key : EntryKey) : M unit :=
  modify (λ w, with_posted (posted w ++ [key]) w).

(** The tasklet returns nothing and changes the object [self] in
    place; [publish_entry_self] runs it and gives back [self] as the
    call leaves it, which is what a caller holding the object goes on
    with. *)
Definition publish_entry_self (now : Z) (key : EntryKey) (self : Entry)
    : M Entry :=
  w ← get_world;
  match feeds w !! key_parent key with
  | None => raise AttributeError
  | Some feed =>
    let feed_key := key_parent key in
    match key_parent feed_key with
    | None =>
        delete_for_feed feed_key;;
        delete_feed_key feed_key;;
        mret self
    | Some user_parent =>
      match users w !! user_parent with
      | None => mret self   (* [user.access_token] fails inside the [try] *)
      | Some user =>
        log_post key;;
        match urlfetch_post (access_token user) feed key self with
        | None => mret self
        | Some status_code =>
            self ←
              (if status_code =? 401 then
                 put_feed feed_key (set_status (FEED_STATE_NEEDS_REAUTH K) feed);;
                 mret self
               else if status_code =? 200 then
                 mret self
               else if status_code =? 400 then
                 mret (set_overflow_reason (OVERFLOW_REASON_MALFORMED K)
                         (set_overflow true self))
               else
                 raise (Exception status_code));
            let self := set_published_at (Some now) (set_published true self) in
            put_entry now key self;;
            mret (auto_now_add now self)
        end
      end
    end
  end.

Definition publish_entry (now : Z) (key : EntryKey) (self : Entry) : M unit :=
  publish_entry_self now key self;; mret ().

(** *** [Entry.drain_queue] *)

Definition drain_entry (entry : Entry) : Entry :=
  set_overflow_reason (OVERFLOW_REASON_FEED_OVERFLOW K)
    (set_published true (set_overflow true entry)).

Definition drain_queue_fuel (fuel : nat) (now : Z) (feed : FeedKey) : M unit :=
  page_loop fuel (latest_unpublished feed)
    (λ entries, for_each entries (λ r, put_entry now r.1 (drain_entry r.2)))
    None.

Definition drain_queue (now : Z) (feed : FeedKey) : M unit :=
  w ← get_world; drain_queue_fuel (enough_fuel w) now feed.

(** *** [Entry.publish_for_feed]

    Times are in seconds; [timedelta(minutes=m)] is [60 * m]. *)

Definition timedelta_minutes (m : Z) : Z := 60 * m.

(** [max_stories_to_publish - lastest_published_entries] *)
Definition remaining_budget (now : Z) (feed_key : FeedKey) (feed : Feed)
    (w : World) : Z :=
  let minutes_schedule :=
    if manual_control feed then schedule_period feed
    else DEFAULT_PERIOD_SCHEDULE K in
  let max_stories_to_publish :=
    if manual_control feed then max_stories_per_period feed
    else MAX_STORIES_PER_PERIOD K in
  let period_ago := now - timedelta_minutes minutes_schedule in
  let lastest_published_entries :=
    count (latest_published feed_key (Some period_ago)) w in
  max_stories_to_publish - lastest_published_entries.

(** [max_stories_to_publish or 1] *)
Definition or_1 (max_stories_to_publish : Z) : Z :=
  if truthy max_stories_to_publish then max_stories_to_publish else 1.

Fixpoint publish_each (now : Z) (latest_entries : list Row)
    (entries_posted : Z) : M Z :=
  match latest_entries with
  | [] => mret entries_posted
  | entry :: rest =>
      publish_entry now entry.1 entry.2;;
      publish_each now rest (entries_posted + 1)
  end.

Definition publish_for_feed (now : Z) (feed_key : FeedKey) (feed : Feed)
    (skip_queue : bool) : M Z :=
  w ← get_world;
  let max_stories_to_publish := remaining_budget now feed_key feed w in
  let entries_posted := 0 in
  if (0 <? max_stories_to_publish) || skip_queue then
    let max_stories_to_publish :=
      if skip_queue then or_1 max_stories_to_publish
      else max_stories_to_publish in
    latest_entries ← fetch (latest_unpublished feed_key) max_stories_to_publish;
    publish_each now latest_entries entries_posted
  else mret entries_posted.

(** *** [Entry.process_parsed_feed] *)

Record ParsedFeed := mkParsedFeed {
  pf_entries : list Item;
  pf_language : option string;   (* ['language' in parsed_feed.feed] *)
}.

(** The keyword arguments that [poster.prepare_entry_from_item] returns
    for an item: a dictionary from property names to values, here one
    optional value per modelled property. [creating] is absent: the
    caller overwrites it. *)
Record Kwargs := mkKwargs {
  kw_guid : option string;
  kw_title : option (option string);
  kw_link : option (option string);
  kw_added : option (option Z);
  kw_published : option bool;
  kw_overflow : option bool;
  kw_overflow_reason : option Z;
  kw_published_at : option (option Z);
}.

(** [None] is a falsy result. *)
Variable prepare_entry_from_item :
  ParsedFeed → Item → FeedKey → Feed → bool → Z → bool → option Kwargs.

Definition populate_with {A} (o : option A) (set : A → Entry → Entry)
    (e : Entry) : Entry :=
  match o with Some v => set v e | None => e end.

Definition set_guid (v : string) (e : Entry) : Entry :=
  {| guid := v; creating := creating e; title := title e; link := link e;
     added := added e; published := published e; overflow := overflow e;
     overflow_reason := overflow_reason e; published_at := published_at e |}.
Definition set_title (v : option string) (e : Entry) : Entry :=
  {| guid := guid e; creating := creating e; title := v; link := link e;
     added := added e; published := published e; overflow := overflow e;
     overflow_reason := overflow_reason e; published_at := published_at e |}.
Definition set_link (v : option string) (e : Entry) : Entry :=
  {| guid := guid e; creating := creating e; title := title e; link := v;
     added := added e; published := published e; overflow := overflow e;
     overflow_reason := overflow_reason e; published_at := published_at e |}.

(** [entry_kwargs['creating'] = False], then [entry.populate] with the
    keyword arguments. *)
Definition populate (kw : Kwargs) (e : Entry) : Entry :=
  set_creating false
    (populate_with (kw_published_at kw) set_published_at
    (populate_with (kw_overflow_reason kw) set_overflow_reason
    (populate_with (kw_overflow kw) set_overflow
    (populate_with (kw_published kw) set_published
    (populate_with (kw_added kw) set_added
    (populate_with (kw_link kw) set_link
    (populate_with (kw_title kw) set_title
    (populate_with (kw_guid kw) set_guid e)))))))).

(** [ndb.put_multi_async(entities)]; the put stamps [added] on the
    in-memory entity as well. *)
Definition put_multi (now : Z) (entities : list Row) : M unit :=
  for_each entities (λ r, put_entry now r.1 r.2).

Definition process_parsed_feed (now : Z) (parsed_feed : ParsedFeed)
    (feed_key : FeedKey) (feed : Feed) (overflow : bool)
    (overflow_reason : Z) : M (list string * list string) :=
  let keys_by_guid : gmap string EntryKey :=
    list_to_map ((λ item, (guid_for_item item, (feed_key, guid_for_item item)))
                   <$> pf_entries parsed_feed) in
  w ← get_world;
  let entries : list (option Row) :=
    (λ kv : string * EntryKey, (λ e, (kv.2, e)) <$> (stored w !! kv.2))
      <$> map_to_list keys_by_guid in
  let old_guids := (λ x : Row, key_id x.1) <$> omap id entries in
  let new_guids :=
    filter (λ x, x ∉ old_guids) ((map_to_list keys_by_guid).*1) in
  let new_entries_by_guid : gmap string Row :=
    list_to_map ((λ x, (x, (default (feed_key, x) (keys_by_guid !! x),
                            new_entry x true))) <$> new_guids) in
  put_multi now ((map_to_list new_entries_by_guid).*2);;
  let new_entries_by_guid : gmap string Row :=
    (λ r : Row, (r.1, auto_now_add now r.2)) <$> new_entries_by_guid in
  let published := overflow in
  let futures :=
    omap (λ item,
            match new_entries_by_guid !! guid_for_item item with
            | None => None
            | Some _ =>
                Some (guid_for_item item,
                      prepare_entry_from_item parsed_feed item feed_key feed
                        overflow overflow_reason published)
            end)
         (pf_entries parsed_feed) in
  let new_entries_by_guid :=
    foldl (λ (m : gmap string Row) (f : string * option Kwargs),
             match f.2 with
             | None => m
             | Some entry_kwargs =>
                 alter (λ r : Row, (r.1, populate entry_kwargs r.2)) f.1 m
             end)
          new_entries_by_guid futures in
  put_multi now ((map_to_list new_entries_by_guid).*2);;
  mret (new_guids, old_guids).

(** *** [Entry.update_for_feed] *)

Record FetchResponse := mkFetchResponse {
  status_code : Z;
  headers_ETag : option string;
  was_permanente_redirect : bool;
  final_url : string;
}.

(** [fetcher.fetch_parsed_feed_for_feed]; [None]: it raised. *)
Variable fetch_parsed_feed_for_feed :
  FeedKey → Feed → option (ParsedFeed * FetchResponse).
(** [utils.get_language] *)
Variable get_language : string → option string.

Definition truthy_str (o : option string) : bool :=
  match o with
  | None => false
  | Some s => negb (String.eqb s "")
  end.

Definition update_for_feed (now : Z) (feed_key : FeedKey) (feed : Feed)
    (publish skip_queue overflow : bool) (overflow_reason : Z)
    : M (ParsedFeed * Z) :=
  match fetch_parsed_feed_for_feed feed_key feed with
  | None => raise FetchException
  | Some (parsed_feed, resp) =>
    let num_new_items := 0 in
    let drain_queue_flag := false in
    '(feed, publish, num_new_items, drain_queue_flag) ←
      (if bool_decide (status_code resp ≠ 304) then
         let feed_etag := etag feed in
         let etag := headers_ETag resp in
         let modified_feed := false in
         let '(feed, modified_feed, publish) :=
           if was_permanente_redirect resp then
             (set_feed_url (final_url resp) feed, true, false)
           else if truthy_str etag && bool_decide (feed_etag ≠ etag) then
             (set_etag etag feed, true, publish)
           else (feed, modified_feed, publish) in
         let '(feed, modified_feed) :=
           match pf_language parsed_feed with
           | Some l =>
               let lang := get_language l in
               if bool_decide (lang ≠ language feed)
               then (set_language lang feed, true)
               else (feed, modified_feed)
           | None => (feed, modified_feed)
           end in
         (if modified_feed then put_feed feed_key feed else mret ());;
         '(new_guids, old_guids) ←
           process_parsed_feed now parsed_feed feed_key feed overflow
             overflow_reason;
         let num_new_items := Z.of_nat (length new_guids) in
         let drain_queue_flag :=
           bool_decide (5 ≤ length (new_guids ++ old_guids))%nat
           && bool_decide (length new_guids = length (new_guids ++ old_guids)) in
         mret (feed, publish, num_new_items, drain_queue_flag)
       else mret (feed, publish, num_new_items, drain_queue_flag));
    (if publish : bool
     then publish_for_feed now feed_key feed skip_queue;; mret ()
     else mret ());;
    (if drain_queue_flag : bool then drain_queue now feed_key else mret ());;
    mret (parsed_feed, num_new_items)
  end.

(** *** [Feed.reauthorize]

    The query [cls.query(ancestor=user.key)] yields every feed below
    the user's key. *)
Definition feeds_of_user (user_key : UserKey) (w : World)
    : list (FeedKey * Feed) :=
  filter (λ kf, key_parent kf.1 = Some user_key) (map_to_list (feeds w)).

Definition reauthorize (user_key : UserKey) : M unit :=
  w ← get_world;
  for_each (feeds_of_user user_key w)
    (λ '(feed_key, feed),
       if truthy (FEED_STATE_NEEDS_REAUTH K) then
         put_feed feed_key (set_status (FEED_STATE_ACTIVE K) feed)
       else mret ()).

(** *** Handlers of [views.py] *)

Inductive Response :=
  | jsonify_ok
  | jsonify_error (message : string) (code : Z)
  | Body (content : string) (code : Z).

(** [delete_feed], for the [Feed] class; [g_user] is the key of the
    logged-in user. *)
Definition delete_feed (g_user : UserKey) (feed_id : Z) : M Response :=
  w ← get_world;
  let feed_key : FeedKey := (Some g_user, feed_id) in
  match feeds w !! feed_key with
  | None => mret (jsonify_error "Can't find that feed" 404)
  | Some feed =>
      delete_for_feed feed_key;;
      delete_feed_key feed_key;;
      mret jsonify_ok
  end.

(** [feed_entry_publish], for the [Feed] class: the manual publication
    of one entry. The handler goes on with the object that
    [publish_entry] has changed, clears its overflow flag and puts
    it. *)
Definition feed_entry_publish (now : Z) (g_user : UserKey) (feed_id : Z)
    (key : EntryKey) : M Response :=
  w ← get_world;
  let feed_key : FeedKey := (Some g_user, feed_id) in
  match feeds w !! feed_key with
  | None => mret (jsonify_error "Can't find that feed" 404)
  | Some feed =>
      if bool_decide (key_parent key = feed_key) then
        match stored w !! key with
        | None => mret (jsonify_error "Can't find that entry" 404)
        | Some entry =>
            entry ← publish_entry_self now key entry;
            put_entry now key (set_overflow false entry);;
            mret jsonify_ok
        end
      else mret (jsonify_error "Can't find that feed" 404)
  end.

(** The digests of [hashlib] and the HMAC of the standard library:
    [hmac.new(key, msg, digestmod).hexdigest()]. In Python 2 an omitted
    [digestmod] is MD5. *)
Inductive DigestMod := hashlib_md5 | hashlib_sha1.
Variable hmac_hexdigest : DigestMod → string → string → string.

Definition hmac_new_hexdigest (key msg : string)
    (digestmod : option DigestMod) : string :=
  hmac_hexdigest (default hashlib_md5 digestmod) key msg.

(** [feedparser.parse] *)
Variable feedparser_parse : string → ParsedFeed.

Record Request := mkRequest {
  headers_X_Hub_Signature : option string;
  stream : string;
}.

Definition feed_push_update (now : Z) (feed_key : FeedKey)
    (request : Request) : M Response :=
  w ← get_world;
  match feeds w !! feed_key with
  | None => mret (Body "No feed" 404)
  | Some feed =>
      let data := stream request in
      let invalid :=
        if truthy_str (hub_secret feed) then
          let server_signature := headers_X_Hub_Signature request in
          let signature :=
            hmac_new_hexdigest (default "" (hub_secret feed)) data None in
          bool_decide (server_signature ≠ Some signature)
        else false in
      if invalid then mret (Body "" 200)
      else
        let parsed_feed := feedparser_parse data in
        process_parsed_feed now parsed_feed feed_key feed false
          (OVERFLOW_REASON_BACKLOG K);;
        publish_for_feed now feed_key feed false;;
        mret (Body "" 200)
  end.

End Model.

(** ** Sample data

    A user with one manually scheduled feed (one story an hour), used to
    run the model on concrete inputs. The values of the constants are
    samples: the theorems hold for all values. *)

Module Sample.

Local Open Scope string_scope.

Definition constants : Constants :=
  {| FEED_STATE_ACTIVE := 1; FEED_STATE_NEEDS_REAUTH := 2;
     OVERFLOW_REASON_BACKLOG := 1; OVERFLOW_REASON_MALFORMED := 2;
     OVERFLOW_REASON_FEED_OVERFLOW := 3;
     DEFAULT_PERIOD_SCHEDULE := 5; MAX_STORIES_PER_PERIOD := 1 |}.

Definition user_key : UserKey := "adn_user_id=1".
Definition feed_key : FeedKey := (Some user_key, 7).

Definition feed : Feed :=
  {| feed_url := "http://example.com/rss"; manual_control := true;
     schedule_period := 60; max_stories_per_period := 1;
     status := 1; etag := None; language := None; hub_secret := None |}.

(** An enriched, unpublished entry added at time [t]. *)
Definition entry (g : string) (t : Z) : Entry :=
  set_added (Some t) (new_entry g false).

(** An entry posted at time [t]. *)
Definition posted_entry (g : string) (t : Z) : Entry :=
  set_published_at (Some t) (set_published true (entry g t)).

Definition world_with (m : gmap EntryKey Entry) : World :=
  {| users := {[ user_key := {| access_token := "token" |} ]};
     feeds := {[ feed_key := feed ]};
     stored := m;
     posted := [] |}.

(** Two unpublished entries: ["old"] added at 10, ["new"] at 20. *)
Definition two_unpublished : World :=
  world_with (<[(feed_key, "old") := entry "old" 10]>
             (<[(feed_key, "new") := entry "new" 20]> ∅)).

(** Two entries posted inside the last hour and one unpublished. *)
Definition over_budget : World :=
  world_with (<[(feed_key, "p1") := posted_entry "p1" 9000]>
             (<[(feed_key, "p2") := posted_entry "p2" 9500]>
             (<[(feed_key, "u") := entry "u" 9600]> ∅))).

(** One enriched entry and one reservation. *)
Definition with_reservation : World :=
  world_with (<[(feed_key, "e") := entry "e" 10]>
             (<[(feed_key, "r") := set_added (Some 20) (new_entry "r" true)]> ∅)).

(** The posting API answers every POST with the same status code. *)
Definition always (code : Z) : string → Feed → EntryKey → Entry → option Z :=
  λ _ _ _ _, Some code.

(** A parsed feed of six items; an item is its guid. *)
Definition six_items : ParsedFeed string :=
  {| pf_entries := ["g1"; "g2"; "g3"; "g4"; "g5"; "g6"];
     pf_language := None |}.

Definition fetch_six : FeedKey → Feed
                       → option (ParsedFeed string * FetchResponse) :=
  λ _ _, Some (six_items,
               {| status_code := 200; headers_ETag := None;
                  was_permanente_redirect := false; final_url := "" |}).

(** An item preparation that passes on what it is given. *)
Definition kwargs (item : string) (overflow : bool) (overflow_reason : Z)
    (published : bool) : Kwargs :=
  {| kw_guid := Some item; kw_title := Some (Some item); kw_link := None;
     kw_added := None; kw_published := Some published;
     kw_overflow := Some overflow;
     kw_overflow_reason := Some overflow_reason; kw_published_at := None |}.

Definition prepare_all : ParsedFeed string → string → FeedKey → Feed → bool
                         → Z → bool → option Kwargs :=
  λ _ item _ _ overflow overflow_reason published,
    Some (kwargs item overflow overflow_reason published).

(** The same, but the preparation of item [bad] gives nothing. *)
Definition prepare_but (bad : string) :
    ParsedFeed string → string → FeedKey → Feed → bool → Z → bool
    → option Kwargs :=
  λ _ item _ _ overflow overflow_reason published,
    if decide (item = bad) then None
    else Some (kwargs item overflow overflow_reason published).

Definition no_language : string → option string := λ _, None.

Definition no_entries : World := world_with ∅.

(** Feeds of two users in several states. *)
Definition several_feeds : World :=
  {| users := {[ user_key := {| access_token := "token" |} ]};
     feeds := <[(Some user_key, 1) := set_status 1 feed]>
             (<[(Some user_key, 2) := set_status 2 feed]>
             (<[(Some user_key, 3) := set_status 10 feed]>
             (<[(Some "adn_user_id=2", 4) := set_status 2 feed]> ∅)));
     stored := ∅;
     posted := [] |}.

(** Stand-ins for the two digests, kept apart by a prefix. *)
Definition toy_hmac : DigestMod → string → string → string :=
  λ digestmod key msg,
    match digestmod with
    | hashlib_md5 => "md5:" ++ key ++ ":" ++ msg
    | hashlib_sha1 => "sha1:" ++ key ++ ":" ++ msg
    end.

Definition feed_with_secret : World :=
  {| users := {[ user_key := {| access_token := "token" |} ]};
     feeds := {[ feed_key :=
                   {| feed_url := "http://example.com/rss";
                      manual_control := true; schedule_period := 60;
                      max_stories_per_period := 1; status := 1;
                      etag := None; language := None;
                      hub_secret := Some "s3cret" |} ]};
     stored := ∅;
     posted := [] |}.

(** Runs of [update_for_feed] on the six new items at time 100. *)
Definition update_six
    (prepare : ParsedFeed string → string → FeedKey → Feed → bool → Z → bool
               → option Kwargs)
    (post : string → Feed → EntryKey → Entry → option Z) (publish : bool)
    : World * Outcome (ParsedFeed string * Z) :=
  update_for_feed constants string id post prepare fetch_six no_language
    100 feed_key feed publish false false 1 no_entries.

(** A run of [process_parsed_feed] on the six items at time 100. *)
Definition ingest_six (w : World) : World * Outcome (list string * list string) :=
  process_parsed_feed string id prepare_all 100 six_items feed_key feed
    false 1 w.

(** The state that claims give to drained entries. *)
Definition flags (e : Entry) : bool * bool * bool * Z :=
  (creating e, published e, overflow e, overflow_reason e).

End Sample.

(** ** Vocabulary of the specifications *)

(** A world keeps everything but its entries. *)
Definition same_frame (w w' : World) : Prop :=
  users w' = users w ∧ feeds w' = feeds w ∧ posted w' = posted w.

(** The datastore after putting the rows [l], each entry through [f]. *)
Definition put_all (now : Z) (f : Entry → Entry) (l : list Row)
    (m : gmap EntryKey Entry) : gmap EntryKey Entry :=
  foldl (λ m r, <[r.1 := auto_now_add now (f r.2)]> m) m l.

(** The feeds after putting the feeds [l], each through [f]. *)
Definition put_feeds (f : Feed → Feed) (l : list (FeedKey * Feed))
    (m : gmap FeedKey Feed) : gmap FeedKey Feed :=
  foldl (λ m kf, <[kf.1 := f kf.2]> m) m l.

(** The body of a paging loop leaves [upd k e] under the key of every
    row [(k, e)] of the page it is given, and nothing else changes. *)
Definition body_spec (body : list Row → M unit)
    (upd : EntryKey → Entry → option Entry) : Prop :=
  ∀ (page : list Row) (w : World),
    NoDup page.*1 →
    (∀ r, r ∈ page → stored w !! r.1 = Some r.2) →
    ∃ w', body page w = (w', Return ()) ∧ same_frame w w'
          ∧ (∀ k, k ∉ page.*1 → stored w' !! k = stored w !! k)
          ∧ (∀ r, r ∈ page → stored w' !! r.1 = upd r.1 r.2).

(** What the body leaves no longer matches the query. *)
Definition upd_leaves_query (q : Query)
    (upd : EntryKey → Entry → option Entry) : Prop :=
  ∀ k e e', upd k e = Some e' → matches q (k, e') = false.

(** The entry under a key once the rows after the cursor are visited. *)
Definition swept (q : Query) (upd : EntryKey → Entry → option Entry)
    (cursor : option Position) (w : World) (k : EntryKey) : option Entry :=
  match stored w !! k with
  | Some e =>
      if matches q (k, e) && after_cursor q cursor (k, e) then upd k e
      else Some e
  | None => None
  end.

(** The entry that the last three lines of [publish_entry] store. *)
Definition marked_published (now : Z) (self : Entry) : Entry :=
  auto_now_add now (set_published_at (Some now) (set_published true self)).

(** The feed has an owner whose record exists: the POST is issued. *)
Definition owned (feed_key : FeedKey) (feed : Feed) (user : User)
    (w : World) : Prop :=
  feeds w !! feed_key = Some feed
  ∧ ∃ user_key, key_parent feed_key = Some user_key
                ∧ users w !! user_key = Some user.

(** The limit handed to [fetch_async]: the remaining budget, or [1] in
    its place when the queue is skipped and the budget is [0]. *)
Definition fetch_limit (skip_queue : bool) (budget : Z) : Z :=
  if skip_queue then or_1 budget else budget.

(** [added_le a b]: the time [a] is not later than [b]; an unset time is
    before every time. *)
Definition added_le (a b : option Z) : Prop :=
  match a, b with
  | None, _ => True
  | Some _, None => False
  | Some x, Some y => x ≤ y
  end.

Definition newest_first (l : list Row) : Prop :=
  StronglySorted (λ r1 r2, added_le (added r2.2) (added r1.2)) l.

(** The datastore without its reservations. *)
Definition without_reservations (w : World) : World :=
  with_stored
    (filter (λ kv : EntryKey * Entry, creating kv.2 = false) (stored w)) w.

Definition excludes_reservations (q : Query) : Prop :=
  ∀ e, q_filter q e = true → creating e = false.

(** What the drain makes of an entry under a key. *)
Definition drain_if_eligible (K : Constants) (now : Z) (feed_key : FeedKey)
    (k : EntryKey) (e : Entry) : Entry :=
  if matches (latest_unpublished feed_key) (k, e)
  then auto_now_add now (drain_entry K e) else e.

(** Rows held in a dictionary under their guids. *)
Definition keyed_by_guid (feed_key : FeedKey) (m : gmap string Row) : Prop :=
  ∀ x r, m !! x = Some r → r.1 = (feed_key, x).

Section IngestionVocabulary.

Variable Item : Type.
Variable guid_for_item : Item → string.
Variable prepare_entry_from_item :
ParsedFeed Item → Item → FeedKey → Feed → bool → Z → bool → option Kwargs.

Variables (now : Z) (parsed_feed : ParsedFeed Item) (feed_key : FeedKey)
        (feed : Feed) (overflow : bool) (overflow_reason : Z).

(** The dictionary [keys_by_guid] and its keys: the guids of the parsed
  feed, each once, in the order of the dictionary. *)
Definition keys_by_guid : gmap string EntryKey :=
list_to_map ((λ item, (guid_for_item item, (feed_key, guid_for_item item)))
               <$> pf_entries Item parsed_feed).

Definition incoming_guids : list string := (map_to_list keys_by_guid).*1.

(** The guids that the datastore already has, and those it has not. *)
Definition known_guids (w : World) : list string :=
filter (λ g, is_Some (stored w !! (feed_key, g))) incoming_guids.
Definition unknown_guids (w : World) : list string :=
filter (λ g, stored w !! (feed_key, g) = None) incoming_guids.

(** The rows of [new_entries_by_guid] when they are created. *)
Definition reservation_rows (w : World) : gmap string Row :=
list_to_map
  ((λ x, (x, (default (feed_key, x) (keys_by_guid !! x), new_entry x true)))
     <$> unknown_guids w).

(** The enrichment of the entry of guid [g]: every item of the parsed
  feed with that guid, in turn, populates it, unless its preparation
  gave nothing. *)
Definition enrich_with (item : Item) (e : Entry) : Entry :=
match prepare_entry_from_item parsed_feed item feed_key feed overflow
        overflow_reason overflow with
| Some entry_kwargs => populate entry_kwargs e
| None => e
end.

Definition enriched (g : string) (e : Entry) : Entry :=
foldl (λ e item, if decide (guid_for_item item = g) then enrich_with item e
                 else e)
      e (pf_entries Item parsed_feed).

(** The entry stored for a new guid when [process_parsed_feed] is done. *)
Definition ingested_entry (g : string) : Entry :=
auto_now_add now (enriched g (auto_now_add now (new_entry g true))).

(** One step of the loop over [futures]. *)
Definition enrich_step (m : gmap string Row) (f : string * option Kwargs)
  : gmap string Row :=
match f.2 with
| Some entry_kwargs =>
    alter (λ r : Row, (r.1, populate entry_kwargs r.2)) f.1 m
| None => m
end.

End IngestionVocabulary.

Section LifecycleVocabulary.

Variable K : Constants.
Variable Item : Type.
Variable guid_for_item : Item → string.
Variable urlfetch_post : string → Feed → EntryKey → Entry → option Z.
Variable prepare_entry_from_item :
ParsedFeed Item → Item → FeedKey → Feed → bool → Z → bool → option Kwargs.
Variable get_language : string → option string.
Variable feedparser_parse : string → ParsedFeed Item.

(** What [update_for_feed] does after the feed's own properties are
  brought up to date: ingestion, the publish step if asked for, the
  drain if the guids call for it. *)
Definition ingest_publish_drain (now : Z) (parsed_feed : ParsedFeed Item)
  (feed_key : FeedKey) (feed : Feed) (publish skip_queue overflow : bool)
  (overflow_reason : Z) : M (ParsedFeed Item * Z) :=
'(new_guids, old_guids) ←
  process_parsed_feed Item guid_for_item prepare_entry_from_item now
    parsed_feed feed_key feed overflow overflow_reason;
(if publish
 then publish_for_feed K urlfetch_post now feed_key feed skip_queue;; mret ()
 else mret ());;
(if bool_decide (5 ≤ length (new_guids ++ old_guids))%nat
    && bool_decide (length new_guids = length (new_guids ++ old_guids))
 then drain_queue K now feed_key else mret ());;
mret (parsed_feed, Z.of_nat (length new_guids)).

(** The feed as [update_for_feed] hands it on: moved after a permanent
  redirect, or with the new ETag, and with the language of the parsed
  feed. *)
Definition refreshed (parsed_feed : ParsedFeed Item) (resp : FetchResponse)
  (feed : Feed) : Feed :=
let feed :=
  if was_permanente_redirect resp then set_feed_url (final_url resp) feed
  else if truthy_str (headers_ETag resp)
          && bool_decide (etag feed ≠ headers_ETag resp)
       then set_etag (headers_ETag resp) feed
       else feed in
match pf_language Item parsed_feed with
| Some l =>
    if bool_decide (get_language l ≠ language feed)
    then set_language (get_language l) feed else feed
| None => feed
end.

(** Whether the feed is put before the ingestion. *)
Definition modified_feed (parsed_feed : ParsedFeed Item)
  (resp : FetchResponse) (feed : Feed) : bool :=
(was_permanente_redirect resp
 || truthy_str (headers_ETag resp)
    && bool_decide (etag feed ≠ headers_ETag resp))
|| match pf_language Item parsed_feed with
   | Some l => bool_decide (get_language l ≠ language feed)
   | None => false
   end.

Definition refreshed_world (parsed_feed : ParsedFeed Item)
  (resp : FetchResponse) (feed_key : FeedKey) (feed : Feed) (w : World)
  : World :=
if modified_feed parsed_feed resp feed
then with_feeds (<[feed_key := refreshed parsed_feed resp feed]> (feeds w)) w
else w.

(** What [feed_push_update] does once the signature is accepted. *)
Definition ingest_and_publish (now : Z) (feed_key : FeedKey) (feed : Feed)
  (data : string) : M Response :=
process_parsed_feed Item guid_for_item prepare_entry_from_item now
  (feedparser_parse data) feed_key feed false (OVERFLOW_REASON_BACKLOG K);;
publish_for_feed K urlfetch_post now feed_key feed false;;
mret (Body "" 200).

End LifecycleVocabulary.

(** *** The operations of the pipeline, for statements about every run *)

(** The entry under a key is out of the publish queue: published, or
    not stored. *)
Definition settled (k : EntryKey) (w : World) : Prop :=
  match stored w !! k with
  | Some e => published e = true
  | None => True
  end.

(** Between [w] and [w'] nothing is posted for [k]. *)
Definition silent_on (k : EntryKey) (w w' : World) : Prop :=
  ∃ keys, posted w' = posted w ++ keys ∧ k ∉ keys.

Section Operations.

Variable K : Constants.
Variable Item : Type.
Variable guid_for_item : Item → string.
Variable urlfetch_post : string → Feed → EntryKey → Entry → option Z.
Variable prepare_entry_from_item :
ParsedFeed Item → Item → FeedKey → Feed → bool → Z → bool → option Kwargs.
Variable fetch_parsed_feed_for_feed :
FeedKey → Feed → option (ParsedFeed Item * FetchResponse).
Variable get_language : string → option string.
Variable hmac_hexdigest : DigestMod → string → string → string.
Variable feedparser_parse : string → ParsedFeed Item.

(** The operations on entries and feeds, scheduled, pushed and
  requested by the user, with their arguments. *)
Inductive Operation :=
| call_publish_for_feed (now : Z) (feed_key : FeedKey) (feed : Feed)
    (skip_queue : bool)
| call_drain_queue (now : Z) (feed_key : FeedKey)
| call_process_parsed_feed (now : Z) (parsed_feed : ParsedFeed Item)
    (feed_key : FeedKey) (feed : Feed) (overflow : bool) (overflow_reason : Z)
| call_update_for_feed (now : Z) (feed_key : FeedKey) (feed : Feed)
    (publish skip_queue overflow : bool) (overflow_reason : Z)
| call_delete_for_feed (feed_key : FeedKey)
| call_reauthorize (user_key : UserKey)
| call_delete_feed (g_user : UserKey) (feed_id : Z)
| call_feed_push_update (now : Z) (feed_key : FeedKey) (request : Request)
| call_feed_entry_publish (now : Z) (g_user : UserKey) (feed_id : Z)
    (key : EntryKey).

(** The operation is the manual publication of the entry [k]. *)
Definition manual_publish_of (k : EntryKey) (op : Operation) : Prop :=
match op with
| call_feed_entry_publish _ _ _ key => key = k
| _ => False
end.

(** The world that an operation leaves, whether it returns or raises. *)
Definition run_operation (op : Operation) (w : World) : World :=
match op with
| call_publish_for_feed now feed_key feed skip_queue =>
    (publish_for_feed K urlfetch_post now feed_key feed skip_queue w).1
| call_drain_queue now feed_key => (drain_queue K now feed_key w).1
| call_process_parsed_feed now parsed_feed feed_key feed overflow
    overflow_reason =>
    (process_parsed_feed Item guid_for_item prepare_entry_from_item now
       parsed_feed feed_key feed overflow overflow_reason w).1
| call_update_for_feed now feed_key feed publish skip_queue overflow
    overflow_reason =>
    (update_for_feed K Item guid_for_item urlfetch_post
       prepare_entry_from_item fetch_parsed_feed_for_feed get_language now
       feed_key feed publish skip_queue overflow overflow_reason w).1
| call_delete_for_feed feed_key => (delete_for_feed feed_key w).1
| call_reauthorize user_key => (reauthorize K user_key w).1
| call_delete_feed g_user feed_id => (delete_feed g_user feed_id w).1
| call_feed_push_update now feed_key request =>
    (feed_push_update K Item guid_for_item urlfetch_post
       prepare_entry_from_item hmac_hexdigest feedparser_parse now feed_key
       request w).1
| call_feed_entry_publish now g_user feed_id key =>
    (feed_entry_publish K urlfetch_post now g_user feed_id key w).1
end.

Definition run_operations (ops : list Operation) (w : World) : World :=
foldl (λ w op, run_operation op w) w ops.

End Operations.

(** * The rest of the models and the handlers that drive them *)

Section Polling.

Variable K : Constants.
Variable Item : Type.
Variable guid_for_item : Item → string.
Variable urlfetch_post : string → Feed → EntryKey → Entry → option Z.
Variable prepare_entry_from_item :
ParsedFeed Item → Item → FeedKey → Feed → bool → Z → bool → option Kwargs.
Variable fetch_parsed_feed_for_feed :
FeedKey → Feed → option (ParsedFeed Item * FetchResponse).
Variable get_language : string → option string.

(** [Feed.process_feed]: the poll of one feed. Its two arguments are
  not passed on: [Entry.update_for_feed(self)] runs with its
  defaults. *)
Definition process_feed (now : Z) (feed_key : FeedKey) (self : Feed)
  (overflow : option bool) (overflow_reason : option Z)
  : M (ParsedFeed Item * Z) :=
'(parsed_feed, num_new_items) ←
  update_for_feed K Item guid_for_item urlfetch_post prepare_entry_from_item
    fetch_parsed_feed_for_feed get_language now feed_key self
    false false false (OVERFLOW_REASON_BACKLOG K);
mret (parsed_feed, num_new_items).

End Polling.

(** ** [User.key_from_adn_user]

    ['adn_user_id=%d' % int(adn_user.id)]: the argument is the integer
    that [int] made of the id; [%d] writes it in decimal, with a minus
    sign when it is negative. *)
Definition percent_d (n : Z) : string :=
  NilZero.string_of_int (Z.to_int n).

Definition key_from_adn_user (adn_user_id : Z) : UserKey :=
  ("adn_user_id=" ++ percent_d adn_user_id)%string.

(** ** [Feed]: title, link and description

    The properties of [Feed] that [update_feed_from_parsed_feed] and the
    [effective_*] properties read and write. *)
Record FeedDescription := mkFeedDescription {
  fd_feed_url : string;
  fd_link : option string;
  fd_title : option string;
  fd_description : option string;
}.

(** [parsed_feed.get('feed', {})]: the values under the keys that are
    read, [None] for a key that is absent. *)
Record FeedInfo := mkFeedInfo {
  fi_link : option string;
  fi_title : option string;
  fi_subtitle : option string;
}.

(** [s[0:499]] *)
Definition slice_0_499 (s : string) : string := String.substring 0 499 s.

(** [if x: x = x[0:499]] *)
Definition clip (x : option string) : option string :=
  if truthy_str x then slice_0_499 <$> x else x.

(** [not link or not link.startswith('http')] *)
Definition not_http (link : option string) : bool :=
  match link with
  | None => true
  | Some s => String.eqb s "" || negb (String.prefix "http" s)
  end.

(** The [try] block is
[[
        urlparts = urlparse(feed.feed_url)
        link = '%s://%s' % (urlparts.scheme, urlparts.netloc)
]]
    No name [feed] is bound in the method or in the module: reading it
    raises NameError, and the bare [except] sets [link = None]. *)
Definition link_from_feed_url : option string := None.

(** [Feed.update_feed_from_parsed_feed]: the feed as the call leaves it
    and the value returned; [None] is the bare [ndb.Return()] for a
    falsy parsed feed. The argument [save] is not read. *)
Definition update_feed_from_parsed_feed (self : FeedDescription)
    (parsed_feed : option FeedInfo) (save : bool)
    : FeedDescription * option bool :=
  match parsed_feed with
  | None => (self, None)
  | Some feed_info =>
      let link := fi_link feed_info in
      let link := if not_http link then link_from_feed_url else link in
      let link := clip link in
      let title := clip (fi_title feed_info) in
      let description := clip (fi_subtitle feed_info) in
      if bool_decide (fd_link self ≠ link) || bool_decide (fd_title self ≠ title)
         || bool_decide (fd_description self ≠ description)
      then ({| fd_feed_url := fd_feed_url self; fd_link := link;
               fd_title := title; fd_description := description |},
            Some true)
      else (self, Some false)
  end.

(** [x or y] on strings that may be unset. *)
Definition or_else (x : option string) (y : option string) : option string :=
  if truthy_str x then x else y.

(** [Feed.effective_title], [effective_description], [effective_link] *)
Definition effective_title (self : FeedDescription) : option string :=
  or_else (or_else (fd_title self) (fd_link self)) (Some (fd_feed_url self)).
Definition effective_description (self : FeedDescription) : option string :=
  or_else (fd_description self) (Some ""%string).
Definition effective_link (self : FeedDescription) : option string :=
  or_else (fd_link self) (Some (fd_feed_url self)).

(** ** Strings of keys

    [sep.join(l)] and [s.split(c)] for a separator of one character. *)
Fixpoint join (sep : string) (l : list string) : string :=
  match l with
  | [] => ""
  | x :: l' =>
      match l' with
      | [] => x
      | _ :: _ => x ++ sep ++ join sep l'
      end
  end%string.

Fixpoint split (c : ascii) (s : string) : list string :=
  match s with
  | EmptyString => [EmptyString]
  | String a s' =>
      if Ascii.eqb a c then EmptyString :: split c s'
      else match split c s' with
           | x :: l => String a x :: l
           | [] => [String a EmptyString]
           end
  end.

(** [q.fetch_page(page_size, start_cursor=cursor)] on a query whose
    results do not change between the pages: the cursor is the number of
    results passed. *)
Definition fetch_page_of {A} (results : list A) (page_size : nat)
    (cursor : nat) : list A * nat * bool :=
  let rest := drop cursor results in
  let page := take page_size rest in
  (page, (cursor + length page)%nat, bool_decide (page_size < length rest)%nat).

(** ** The cron and task handlers of [views.py], for the [Feed] class *)

(** A task of the [poll] queue: a POST to [tq_feed_poll] with the
    parameter [keys]. *)
Record Task := mkTask { params_keys : string }.

Record CronRequest := mkCronRequest {
  headers_X_Appengine_Cron : option string;
}.

Record TaskRequest := mkTaskRequest {
  headers_X_AppEngine_QueueName : option string;
  form_keys : option string;
}.

(** What [tq_feed_poll] logs when it is done. *)
Record PollCounts := mkPollCounts {
  success : Z;
  errors : Z;
  entries_created : Z;
}.

(** How a task handler ends: with a response, or with the exception of
    [ndb.Key(urlsafe=key)] on a string that is no key. *)
Inductive TaskOutcome :=
  | Responded (r : Response)
  | BadKey (key : string).

Section Handlers.

Variable K : Constants.
Variable Item : Type.
Variable guid_for_item : Item → string.
Variable urlfetch_post : string → Feed → EntryKey → Entry → option Z.
Variable prepare_entry_from_item :
ParsedFeed Item → Item → FeedKey → Feed → bool → Z → bool → option Kwargs.
Variable fetch_parsed_feed_for_feed :
FeedKey → Feed → option (ParsedFeed Item * FetchResponse).
Variable get_language : string → option string.

(** [key.urlsafe()] and [ndb.Key(urlsafe=s)]; [None]: the string is
  refused. *)
Variable urlsafe : FeedKey → string.
Variable Key_urlsafe : string → option FeedKey.

(** The property [update_interval] of the feed stored under a key; it is
  not among the properties of the record [Feed]. *)
Variable update_interval : FeedKey → Z.

(** [Feed.for_interval]: the active feeds of an update interval. *)
Definition for_interval (interval_id : Z) (w : World)
  : list (FeedKey * Feed) :=
filter (λ kf, update_interval kf.1 = interval_id
              ∧ status kf.2 = FEED_STATE_ACTIVE K)
       (map_to_list (feeds w)).

(** The loop of [update_all_feeds]; [None]: out of time. *)
Fixpoint update_all_feeds_loop (fuel : nat) (feeds : list (FeedKey * Feed))
  (cursor : nat) (futures : list Task) (success : Z)
  : option (list Task * Z) :=
match fuel with
| O => None
| S fuel' =>
    let '(feeds_to_fetch, cursor, more) := fetch_page_of feeds 100 cursor in
    let keys := join "," ((λ x : FeedKey * Feed, urlsafe x.1) <$> feeds_to_fetch) in
    if String.eqb keys "" then
      if more then update_all_feeds_loop fuel' feeds cursor futures success
      else Some (futures, success)
    else
      let futures := futures ++ [{| params_keys := keys |}] in
      let success := success + 1 in
      if more then update_all_feeds_loop fuel' feeds cursor futures success
      else Some (futures, success)
end.

(** [update_all_feeds]: the tasks added to the [poll] queue and the
  outcome. *)
Definition update_all_feeds (request : CronRequest) (interval_id : Z)
  (w : World) : list Task * Outcome Response :=
if bool_decide (headers_X_Appengine_Cron request ≠ Some "true"%string)
then ([], Return (jsonify_error "Not a cron call" 404))
else
  let feeds := for_interval interval_id w in
  match update_all_feeds_loop (S (length feeds)) feeds 0 [] 0 with
  | None => ([], Raise DeadlineExceededError)
  | Some (futures, _) => (futures, Return jsonify_ok)
  end.

(** The two loops of [tq_feed_poll] over the feeds read: a key without
  a feed is an error; the poll of a feed counts as a success when it
  returns and as an error when it raises, and what it did before it
  raised stays done. The polls are taken one after the other, in the
  order of the keys. *)
Fixpoint poll_feeds (now : Z) (feeds : list (FeedKey * option Feed))
  (counts : PollCounts) (w : World) : World * PollCounts :=
match feeds with
| [] => (w, counts)
| (_, None) :: rest =>
    poll_feeds now rest
      {| success := success counts; errors := errors counts + 1;
         entries_created := entries_created counts |} w
| (feed_key, Some feed) :: rest =>
    match process_feed K Item guid_for_item urlfetch_post
            prepare_entry_from_item fetch_parsed_feed_for_feed get_language
            now feed_key feed None None w with
    | (w', Return (_, num_new_entries)) =>
        poll_feeds now rest
          {| success := success counts + 1; errors := errors counts;
             entries_created := entries_created counts + num_new_entries |}
          w'
    | (w', Raise _) =>
        poll_feeds now rest
          {| success := success counts; errors := errors counts + 1;
             entries_created := entries_created counts |} w'
    end
end.

(** [[ndb.Key(urlsafe=key) for key in keys.split(',')]] *)
Fixpoint ndb_keys_of (keys : list string) : string + list FeedKey :=
match keys with
| [] => inr []
| key :: rest =>
    match Key_urlsafe key with
    | None => inl key
    | Some k =>
        match ndb_keys_of rest with
        | inl bad => inl bad
        | inr ks => inr (k :: ks)
        end
    end
end.

(** [tq_feed_poll]; the statistics entity that [write_epoch_to_stat]
  writes is of a kind apart and is left out. *)
Definition tq_feed_poll (now : Z) (request : TaskRequest) (w : World)
  : World * TaskOutcome * PollCounts :=
let zero := {| success := 0; errors := 0; entries_created := 0 |} in
if negb (truthy_str (headers_X_AppEngine_QueueName request))
then (w, Responded (jsonify_error "Not a Task call" 404), zero)
else
  match form_keys request with
  | Some keys =>
      if String.eqb keys "" then
        (w, Responded (jsonify_error "There was an error" 500), zero)
      else
        match ndb_keys_of (split "," keys) with
        | inl bad => (w, BadKey bad, zero)
        | inr ndb_keys =>
            let feeds := (λ k, (k, feeds w !! k)) <$> ndb_keys in
            let '(w', counts) := poll_feeds now feeds zero w in
            (w', Responded jsonify_ok, counts)
        end
  | None => (w, Responded (jsonify_error "There was an error" 500), zero)
  end.

(** The two loops of [post_all_feeds] over the feeds of the query:
  [publish_for_feed] is started for every feed; one that raises is
  counted as an error and the others go on. *)
Fixpoint post_feeds (now : Z) (feeds : list (FeedKey * Feed))
  (counts : Z * Z * Z) : M (Z * Z * Z) :=
match feeds with
| [] => mret counts
| (feed_key, feed) :: rest =>
    λ w,
      let '(success, errors, num_posted) := counts in
      match publish_for_feed K urlfetch_post now feed_key feed false w with
      | (w', Return num_posts) =>
          post_feeds now rest (success + 1, errors, num_posted + num_posts) w'
      | (w', Raise _) =>
          post_feeds now rest (success, errors + 1, num_posted) w'
      end
end.

(** [post_all_feeds]; [Feed.query().iter()] yields every feed. *)
Definition post_all_feeds (now : Z) (request : CronRequest) : M Response :=
if bool_decide (headers_X_Appengine_Cron request ≠ Some "true"%string)
then mret (jsonify_error "Not a cron call" 404)
else
  w ← get_world;
  post_feeds now (map_to_list (feeds w)) (0, 0, 0);;
  mret jsonify_ok.

End Handlers.

(** ** [InstagramFeed.process_feed]

    A post of the media feed, as far as it is read: its id, whether the
    two image resolutions are there, its caption ([None]: a falsy
    caption; [Some None]: a caption without text) and its link. *)
Record InstagramPost := mkInstagramPost {
  post_id : string;
  post_standard_resolution : bool;
  post_low_resolution : bool;
  post_caption : option (option string);
  post_link : option string;
}.

(** [Entry(key=key, guid=post.get('id'), **kwargs)]; the image
    properties are not among those of the record [Entry]. *)
Definition instagram_entry (post : InstagramPost) (overflow : bool)
    (overflow_reason : Z) : Entry :=
  let title :=
    match post_caption post with
    | None => "."
    | Some caption => default "" caption
    end%string in
  let entry :=
    set_link (post_link post)
      (set_title (Some title) (new_entry (post_id post) false)) in
  if overflow
  then set_published true
         (set_overflow_reason overflow_reason (set_overflow true entry))
  else entry.

Section Instagram.

(** [fetch_url(self.feed_url, ...)] and [json.loads]: the list under
  [data], or the exception raised. *)
Variable fetch_posts : FeedKey → Exn + list InstagramPost.

(** The loop over the posts. Reading [standard_resolution.get('url')]
  or [low_resolution.get('url')] of a post without that resolution
  raises. *)
Fixpoint instagram_process_posts (now : Z) (self_key : FeedKey)
  (posts : list InstagramPost) (overflow : bool) (overflow_reason : Z)
  (new_entries : Z) : M Z :=
match posts with
| [] => mret new_entries
| post :: rest =>
    w ← get_world;
    let key : EntryKey := (self_key, post_id post) in
    match stored w !! key with
    | Some _ =>
        instagram_process_posts now self_key rest overflow overflow_reason
          new_entries
    | None =>
        if negb (post_standard_resolution post) then raise AttributeError
        else if negb (post_low_resolution post) then raise AttributeError
        else
          put_entry now key (instagram_entry post overflow overflow_reason);;
          instagram_process_posts now self_key rest overflow overflow_reason
            (new_entries + 1)
    end
end.

(** [InstagramFeed.process_feed]; a caller that passes [None] for both
  arguments passes a falsy [overflow], and then the reason is not
  read. *)
Definition instagram_process_feed (now : Z) (self_key : FeedKey)
  (overflow : bool) (overflow_reason : Z) : M Z :=
match fetch_posts self_key with
| inl e => raise e
| inr posts =>
    instagram_process_posts now self_key posts overflow overflow_reason 0
end.

End Instagram.

(** The post has both resolutions. *)
Definition with_images (post : InstagramPost) : Prop :=
  post_standard_resolution post = true ∧ post_low_resolution post = true.

(** The first post of the list with the id [g]. *)
Definition first_post (g : string) (posts : list InstagramPost)
    : option InstagramPost :=
  head (filter (λ p, post_id p = g) posts).

(** ** The listings of [views.py], for the [Feed] class

    The data of a listing before it is written as JSON: the feed and,
    for every entry listed, its key and the entity. *)
Inductive Listing :=
  | listing_error (message : string) (code : Z)
  | listing_ok (feed : Feed) (entries : list Row).

Section Listings.

Variable K : Constants.

(** [q.fetch(n)] *)
Definition fetch_n (q : Query) (n : nat) (w : World) : list Row :=
take n (run_query q w).

Definition unpublished_entries_for_feed (g_user : UserKey) (feed_id : Z)
  (w : World) : Listing :=
let feed_key : FeedKey := (Some g_user, feed_id) in
match feeds w !! feed_key with
| None => listing_error "Can't find that feed" 404
| Some feed => listing_ok feed (fetch_n (latest_unpublished feed_key) 20 w)
end.

Definition published_entries_for_feed (g_user : UserKey) (feed_id : Z)
  (w : World) : Listing :=
let feed_key : FeedKey := (Some g_user, feed_id) in
match feeds w !! feed_key with
| None => listing_error "Can't find that feed" 404
| Some feed =>
    listing_ok feed
      (fetch_n (latest K feed_key false None "-published_at") 20 w)
end.

End Listings.

(** The character [c] occurs in [s]. *)
Fixpoint has_char (c : ascii) (s : string) : bool :=
  match s with
  | EmptyString => false
  | String a s' => Ascii.eqb a c || has_char c s'
  end.

Section TaskKeys.

Variable Key_urlsafe : string → option FeedKey.

(** The keys that [tq_feed_poll] reads out of a task. *)
Definition task_keys (t : Task) : list FeedKey :=
match ndb_keys_of Key_urlsafe (split "," (params_keys t)) with
| inr ks => ks
| inl _ => []
end.

End TaskKeys.

(** What a run can do to the entries when it does not publish: add
    entries, and rewrite those below the feed key. *)
Definition grows_below (feed_key : FeedKey) (w w' : World) : Prop :=
  (∀ k, key_parent k ≠ feed_key → stored w' !! k = stored w !! k)
  ∧ (∀ k, is_Some (stored w !! k) → is_Some (stored w' !! k)).

(** ** More sample data *)

Module Cases.

Local Open Scope string_scope.

(** The sample feed with a budget of two stories an hour. *)
Definition two_an_hour : Feed :=
  {| feed_url := "http://example.com/rss"; manual_control := true;
     schedule_period := 60; max_stories_per_period := 2;
     status := 1; etag := None; language := None; hub_secret := None |}.

(** The two unpublished entries and one posted at 9900. *)
Definition one_posted : World :=
  Sample.world_with
    (<[(Sample.feed_key, "p") := Sample.posted_entry "p" 9900]>
       (stored Sample.two_unpublished)).

(** A feed whose key has no parent, with an enriched entry and a
    reservation. *)
Definition orphan_key : FeedKey := (None, 7).
Definition orphaned : World :=
  {| users := {[ Sample.user_key := {| access_token := "token" |} ]};
     feeds := {[ orphan_key := Sample.feed ]};
     stored := <[(orphan_key, "e") := Sample.entry "e" 10]>
               (<[(orphan_key, "r") := set_added (Some 20) (new_entry "r" true)]> ∅);
     posted := [] |}.

(** The fetcher finds the feed moved for good, with a new ETag. *)
Definition fetch_moved : FeedKey → Feed
                         → option (ParsedFeed string * FetchResponse) :=
  λ _ _, Some (Sample.six_items,
               {| status_code := 200; headers_ETag := Some "v2";
                  was_permanente_redirect := true;
                  final_url := "http://example.com/feed.xml" |}).

(** A hundred and fifty active feeds of the sample user, and keys
    written as the decimal id of the feed. *)
Definition many_feeds : World :=
  {| users := {[ Sample.user_key := {| access_token := "token" |} ]};
     feeds := list_to_map
                ((λ n : nat, ((Some Sample.user_key, Z.of_nat n), Sample.feed))
                   <$> seq 1 150);
     stored := ∅;
     posted := [] |}.

Definition urlsafe : FeedKey → string := λ k, percent_d k.2.
Definition Key_urlsafe : string → option FeedKey :=
  λ s, match NilZero.int_of_string s with
       | Some d => Some (Some Sample.user_key, Z.of_int d)
       | None => None
       end.

(** A media feed with one entry stored, and three posts: the one
    stored, a new one, and the new one again. *)
Definition media_key : FeedKey := (Some Sample.user_key, 3).
Definition media : World :=
  {| users := {[ Sample.user_key := {| access_token := "token" |} ]};
     feeds := ∅;
     stored := {[ (media_key, "m1") := Sample.entry "m1" 10 ]};
     posted := [] |}.
Definition media_posts : list InstagramPost :=
  [ {| post_id := "m1"; post_standard_resolution := true;
       post_low_resolution := true; post_caption := Some (Some "one");
       post_link := Some "http://example.com/m1" |};
    {| post_id := "m2"; post_standard_resolution := true;
       post_low_resolution := true; post_caption := None;
       post_link := Some "http://example.com/m2" |};
    {| post_id := "m2"; post_standard_resolution := true;
       post_low_resolution := true; post_caption := Some (Some "again");
       post_link := None |} ].
Definition fetch_media : FeedKey → Exn + list InstagramPost :=
  λ _, inr media_posts.

(** The same posts, then one without its low resolution, then one
    more. *)
Definition fetch_broken : FeedKey → Exn + list InstagramPost :=
  λ _, inr (app media_posts
               [ {| post_id := "m3"; post_standard_resolution := true;
                    post_low_resolution := false; post_caption := None;
                    post_link := None |};
                 {| post_id := "m4"; post_standard_resolution := true;
                    post_low_resolution := true; post_caption := None;
                    post_link := None |} ]).

End Cases.

(** * Properties of the index order *)

Section Compare.

Lemma Z_compare_trans (x y z : Z) (c : comparison) :
  (x ?= y) = c → (y ?= z) = c → (x ?= z) = c.
Proof.
  destruct c; intros H1 H2.
  - apply Z.compare_eq_iff in H1, H2. subst. apply Z.compare_refl.
  - rewrite Z.compare_lt_iff in *. lia.
  - rewrite Z.compare_gt_iff in *. lia.
Qed.

Lemma Z_compare_opp (x y : Z) : (y ?= x) = CompOpp (x ?= y).
Proof. apply Z.compare_antisym. Qed.

Lemma string_lt_irrefl (a : string) : ¬ String_as_OT.lt a a.
Proof. apply (StrictOrder_Irreflexive (R := String_as_OT.lt)). Qed.

Lemma string_lt_asym (a b : string) :
  String_as_OT.lt a b → String_as_OT.lt b a → False.
Proof. intros H1 H2. apply (string_lt_irrefl a). by transitivity b. Qed.

Lemma string_compare_eq (a b : string) :
  String_as_OT.compare a b = Eq ↔ a = b.
Proof.
  destruct (String_as_OT.compare_spec a b) as [H|H|H]; split; try done.
  all: intros ->; by apply string_lt_irrefl in H.
Qed.

Lemma string_compare_opp (a b : string) :
  String_as_OT.compare b a = CompOpp (String_as_OT.compare a b).
Proof.
  destruct (String_as_OT.compare_spec a b) as [H|H|H],
           (String_as_OT.compare_spec b a) as [H'|H'|H'];
    unfold String_as_OT.eq in *; simpl; try done; subst;
    try (by apply string_lt_irrefl in H);
    try (by apply string_lt_irrefl in H');
    by destruct (string_lt_asym _ _ H H').
Qed.

Lemma string_compare_trans (a b d : string) (c : comparison) :
  String_as_OT.compare a b = c → String_as_OT.compare b d = c →
  String_as_OT.compare a d = c.
Proof.
  destruct c; intros H1 H2.
  - apply string_compare_eq in H1, H2. subst. by apply string_compare_eq.
  - change (String_as_OT.lt a d). by transitivity b.
  - rewrite string_compare_opp in H1, H2 |- *.
    apply (f_equal CompOpp) in H1, H2. rewrite CompOpp_involutive in H1, H2.
    simpl in *.
    assert (String_as_OT.compare d a = Lt) as ->; [|done].
    change (String_as_OT.lt d a). by transitivity b.
Qed.

Lemma values_compare_eq (l1 l2 : list Z) :
  list_compare Z.compare l1 l2 = Eq ↔ l1 = l2.
Proof. apply list_compare_refl, Z.compare_eq_iff. Qed.

Lemma values_compare_opp (l1 l2 : list Z) :
  list_compare Z.compare l2 l1 = CompOpp (list_compare Z.compare l1 l2).
Proof.
  apply list_compare_antisym; [apply Z.compare_eq_iff|apply Z_compare_opp].
Qed.

Lemma values_compare_trans (l1 l2 l3 : list Z) (c : comparison) :
  list_compare Z.compare l1 l2 = c → list_compare Z.compare l2 l3 = c →
  list_compare Z.compare l1 l3 = c.
Proof.
  apply list_compare_trans;
    [apply Z.compare_eq_iff|apply Z_compare_trans|apply Z_compare_opp].
Qed.

Lemma position_compare_eq (p1 p2 : Position) :
  position_compare p1 p2 = Eq ↔ p1 = p2.
Proof.
  destruct p1 as [l1 s1], p2 as [l2 s2]. unfold position_compare. simpl.
  destruct (list_compare Z.compare l1 l2) eqn:Hl.
  - apply values_compare_eq in Hl. subst.
    rewrite string_compare_eq. naive_solver.
  - split; [done|]. intros [= -> ->].
    by rewrite (proj2 (values_compare_eq l2 l2)) in Hl.
  - split; [done|]. intros [= -> ->].
    by rewrite (proj2 (values_compare_eq l2 l2)) in Hl.
Qed.

Lemma position_compare_opp (p1 p2 : Position) :
  position_compare p2 p1 = CompOpp (position_compare p1 p2).
Proof.
  unfold position_compare. rewrite (values_compare_opp p1.1 p2.1).
  destruct (list_compare Z.compare p1.1 p2.1); simpl; try done.
  apply string_compare_opp.
Qed.

Lemma position_compare_trans (p1 p2 p3 : Position) (c : comparison) :
  position_compare p1 p2 = c → position_compare p2 p3 = c →
  position_compare p1 p3 = c.
Proof.
  unfold position_compare.
  destruct (list_compare Z.compare p1.1 p2.1) eqn:H12.
  - apply values_compare_eq in H12. rewrite H12.
    destruct (list_compare Z.compare p2.1 p3.1) eqn:H23.
    + apply string_compare_trans.
    + intros; congruence.
    + intros; congruence.
  - intros <-.
    destruct (list_compare Z.compare p2.1 p3.1) eqn:H23; try done.
    + apply values_compare_eq in H23. by rewrite <- H23, H12.
    + by rewrite (values_compare_trans _ _ _ _ H12 H23).
  - intros <-.
    destruct (list_compare Z.compare p2.1 p3.1) eqn:H23; try done.
    + apply values_compare_eq in H23. by rewrite <- H23, H12.
    + by rewrite (values_compare_trans _ _ _ _ H12 H23).
Qed.

Lemma position_lt_le (p1 p2 : Position) :
  position_lt p1 p2 → position_le p1 p2.
Proof. unfold position_lt, position_le. congruence. Qed.

Lemma position_le_refl (p : Position) : position_le p p.
Proof.
  unfold position_le.
  by rewrite (proj2 (position_compare_eq p p) eq_refl).
Qed.

Lemma position_not_lt (p1 p2 : Position) :
  ¬ position_lt p1 p2 ↔ position_le p2 p1.
Proof.
  unfold position_lt, position_le. rewrite (position_compare_opp p1 p2).
  destruct (position_compare p1 p2); simpl; naive_solver.
Qed.

Lemma position_le_antisym (p1 p2 : Position) :
  position_le p1 p2 → position_le p2 p1 → p1 = p2.
Proof.
  unfold position_le. rewrite (position_compare_opp p1 p2).
  intros H1 H2. apply position_compare_eq.
  destruct (position_compare p1 p2); simpl in *; done.
Qed.

Lemma position_le_trans (p1 p2 p3 : Position) :
  position_le p1 p2 → position_le p2 p3 → position_le p1 p3.
Proof.
  unfold position_le. intros H1 H2 H3.
  destruct (position_compare p1 p2) eqn:E1; [| |done].
  - apply position_compare_eq in E1. by subst.
  - destruct (position_compare p2 p3) eqn:E2; [| |done].
    + apply position_compare_eq in E2. subst. congruence.
    + rewrite (position_compare_trans _ _ _ _ E1 E2) in H3. done.
Qed.

Lemma position_lt_le_trans (p1 p2 p3 : Position) :
  position_lt p1 p2 → position_le p2 p3 → position_lt p1 p3.
Proof.
  intros H1 H2. destruct (decide (position_lt p1 p3)) as [|Hn]; [done|].
  apply position_not_lt in Hn.
  pose proof (position_le_antisym _ _ (position_le_trans _ _ _ H2 Hn)
                (position_lt_le _ _ H1)) as <-.
  pose proof (position_le_antisym _ _ H2 Hn) as <-.
  unfold position_lt in H1.
  by rewrite (proj2 (position_compare_eq p2 p2) eq_refl) in H1.
Qed.

#[global] Instance row_le_total q : Total (row_le q).
Proof.
  intros r1 r2. unfold row_le, position_le.
  rewrite (position_compare_opp (position_of q r1) (position_of q r2)).
  destruct (position_compare (position_of q r1) (position_of q r2));
    simpl; naive_solver.
Qed.

#[global] Instance row_le_trans q : Transitive (row_le q).
Proof. intros r1 r2 r3. apply position_le_trans. Qed.

End Compare.

(** * Properties of queries *)

Section QueryFacts.

Implicit Types (q : Query) (w : World) (r : Row).

Lemma elem_of_run_query_from q cursor w r :
  r ∈ run_query_from q cursor w ↔
    stored w !! r.1 = Some r.2 ∧ matches q r = true
    ∧ after_cursor q cursor r = true.
Proof.
  unfold run_query_from. rewrite merge_sort_Permutation.
  rewrite list_elem_of_filter, andb_true_iff.
  destruct r as [k e]. rewrite elem_of_map_to_list. simpl. tauto.
Qed.

Lemma elem_of_run_query q w r :
  r ∈ run_query q w ↔ stored w !! r.1 = Some r.2 ∧ matches q r = true.
Proof. unfold run_query. rewrite elem_of_run_query_from. simpl. tauto. Qed.

Lemma run_query_from_sorted q cursor w :
  StronglySorted (row_le q) (run_query_from q cursor w).
Proof. apply StronglySorted_merge_sort; apply _. Qed.

Lemma run_query_from_NoDup q cursor w :
  NoDup ((run_query_from q cursor w).*1).
Proof.
  unfold run_query_from. rewrite merge_sort_Permutation.
  apply NoDup_fmap_fst.
  - intros k e1 e2 [_ H1]%list_elem_of_filter [_ H2]%list_elem_of_filter.
    apply elem_of_map_to_list in H1, H2. congruence.
  - apply NoDup_filter, NoDup_map_to_list.
Qed.

Lemma matches_spec q r :
  matches q r = true ↔ key_parent r.1 = q_ancestor q ∧ q_filter q r.2 = true.
Proof.
  unfold matches. rewrite andb_true_iff, bool_decide_eq_true. done.
Qed.

(** Rows of one query result with the same position are the same row. *)
Lemma position_of_inj q cursor w r1 r2 :
  r1 ∈ run_query_from q cursor w → r2 ∈ run_query_from q cursor w →
  position_of q r1 = position_of q r2 → r1 = r2.
Proof.
  intros (H1 & [P1 _]%matches_spec & _)%elem_of_run_query_from
         (H2 & [P2 _]%matches_spec & _)%elem_of_run_query_from [= _ Hid].
  destruct r1 as [[p1 i1] e1], r2 as [[p2 i2] e2].
  unfold key_parent, key_id in *. simpl in *. subst. congruence.
Qed.

Lemma run_query_from_NoDup_rows q cursor w :
  NoDup (run_query_from q cursor w).
Proof. eapply NoDup_fmap_1, run_query_from_NoDup. Qed.

(** The result of a query depends on the matching rows only. *)
Lemma run_query_from_ext q cursor w1 w2 :
  (∀ r, matches q r = true →
        stored w1 !! r.1 = Some r.2 ↔ stored w2 !! r.1 = Some r.2) →
  run_query_from q cursor w1 = run_query_from q cursor w2.
Proof.
  intros Hext. apply (StronglySorted_unique_strong (row_le q)).
  - intros r1 r2 H1 H2 Hle1 Hle2.
    apply (position_of_inj q cursor w1); [done| |by apply position_le_antisym].
    apply elem_of_run_query_from in H2 as (H2 & Hm & Hc).
    apply elem_of_run_query_from. split_and!; [|done..]. by apply Hext.
  - apply run_query_from_sorted.
  - apply run_query_from_sorted.
  - apply NoDup_Permutation; [apply run_query_from_NoDup_rows..|].
    intros r. rewrite !elem_of_run_query_from.
    split; intros (H & Hm & Hc); (split_and!; [|done..]); by apply Hext.
Qed.

Lemma fetch_page_length q n cursor w :
  (length (fetch_page q n cursor w).1.1 ≤ n)%nat.
Proof. unfold fetch_page. simpl. rewrite length_take. lia. Qed.

Lemma count_length q w : count q w = Z.of_nat (length (run_query q w)).
Proof. done. Qed.

End QueryFacts.

(** * Running tasklets *)

Ltac unfold_M :=
  unfold mbind, M_bind, mret, M_ret, get_world, modify, raise in *.

Lemma with_stored_stored m w : stored (with_stored m w) = m.
Proof. done. Qed.

Lemma same_frame_refl w : same_frame w w.
Proof. done. Qed.

Lemma same_frame_trans w1 w2 w3 :
  same_frame w1 w2 → same_frame w2 w3 → same_frame w1 w3.
Proof. unfold same_frame. intros (-> & -> & ->) (-> & -> & ->). done. Qed.

Section PutMany.

Variables (now : Z) (f : Entry → Entry).

Local Abbreviation put_all := (put_all now f).

Lemma for_each_put_entry (l : list Row) (w : World) :
  for_each l (λ r, put_entry now r.1 (f r.2)) w
  = (with_stored (put_all l (stored w)) w, Return ()).
Proof.
  revert w. induction l as [|r l IH]; intros w; simpl.
  - by destruct w.
  - unfold put_entry. unfold_M. simpl. rewrite IH. simpl. done.
Qed.

Lemma put_all_cons (r : Row) (l : list Row) m :
  put_all (r :: l) m = put_all l (<[r.1 := auto_now_add now (f r.2)]> m).
Proof. done. Qed.

Lemma put_all_lookup_notin (l : list Row) m k :
  k ∉ l.*1 → put_all l m !! k = m !! k.
Proof.
  revert m. induction l as [|r l IH]; intros m Hk; [done|].
  rewrite fmap_cons, not_elem_of_cons in Hk. destruct Hk as [Hne Hk].
  rewrite put_all_cons, IH by done. by rewrite lookup_insert_ne.
Qed.

Lemma put_all_lookup_in (l : list Row) m k e :
  NoDup l.*1 → (k, e) ∈ l →
  put_all l m !! k = Some (auto_now_add now (f e)).
Proof.
  revert m. induction l as [|r l IH]; intros m Hnd Hin.
  - by apply elem_of_nil in Hin.
  - rewrite fmap_cons in Hnd. apply NoDup_cons in Hnd as [Hr Hnd].
    apply elem_of_cons in Hin as [<-|Hin].
    + rewrite put_all_cons, put_all_lookup_notin by done.
      by rewrite lookup_insert_eq.
    + by apply IH.
Qed.

End PutMany.

(** * The paging loop visits every row of its query once *)

Section PageLoop.

Variables (q : Query) (body : list Row → M unit).
(** What the body leaves under the key of a row it is given. *)
Variable upd : EntryKey → Entry → option Entry.

Local Abbreviation swept := (swept q upd).

Hypothesis Hbody : body_spec body upd.
Hypothesis Hupd : upd_leaves_query q upd.

Lemma in_page_le (l : list Row) (n : nat) (rl r : Row) :
  StronglySorted (row_le q) l → last (take n l) = Some rl →
  r ∈ take n l → row_le q r rl.
Proof.
  intros Hs Hl Hr. apply last_Some in Hl as [l' Hl'].
  assert (StronglySorted (row_le q) (take n l)) as Hst.
  { rewrite <- (take_drop n l) in Hs. by apply StronglySorted_app_1_l in Hs. }
  rewrite Hl' in Hst, Hr. apply elem_of_app in Hr as [Hr|Hr].
  - apply StronglySorted_app in Hst as (H & _ & _). apply H; [done|].
    apply list_elem_of_singleton. done.
  - apply list_elem_of_singleton in Hr. subst. apply position_le_refl.
Qed.

Lemma after_page_le (l : list Row) (n : nat) (rl r : Row) :
  StronglySorted (row_le q) l → last (take n l) = Some rl →
  r ∈ drop n l → row_le q rl r.
Proof.
  intros Hs Hl Hr. rewrite <- (take_drop n l) in Hs.
  apply StronglySorted_app in Hs as (H & _ & _). apply H; [|done].
  apply last_Some in Hl as [l' ->]. apply elem_of_app. right.
  by apply list_elem_of_singleton.
Qed.

Lemma after_cursor_trans cursor (r1 r2 : Row) :
  after_cursor q cursor r1 = true →
  position_lt (position_of q r1) (position_of q r2) →
  after_cursor q cursor r2 = true.
Proof.
  destruct cursor as [p|]; simpl; [|done].
  rewrite !bool_decide_eq_true. intros H1 H2.
  eapply position_lt_le_trans; [done|]. by apply position_lt_le.
Qed.

(** One turn: the rows of the page are visited, the others kept. *)
Lemma page_step (cursor : option Position) (w : World) (n : nat) :
  let rest := run_query_from q cursor w in
  ∃ w', body (take n rest) w = (w', Return ()) ∧ same_frame w w'
    ∧ ∀ k, stored w' !! k =
           match stored w !! k with
           | Some e => if bool_decide ((k, e) ∈ take n rest) then upd k e
                       else Some e
           | None => None
           end.
Proof.
  intros rest.
  assert (NoDup (take n rest).*1) as Hnd.
  { rewrite fmap_take. eapply sublist_NoDup; [|apply sublist_take].
    apply run_query_from_NoDup. }
  assert (∀ r, r ∈ take n rest → stored w !! r.1 = Some r.2) as Hin.
  { intros r Hr%elem_of_take. destruct Hr as (i & Hi & _).
    apply list_elem_of_lookup_2 in Hi.
    by apply elem_of_run_query_from in Hi as (? & _). }
  destruct (Hbody _ w Hnd Hin) as (w' & Hrun & Hfr & Hout & Hupdated).
  exists w'. split_and!; [done..|]. intros k.
  destruct (decide (k ∈ (take n rest).*1)) as [Hk|Hk].
  - apply list_elem_of_fmap in Hk as ([k' e] & -> & He).
    pose proof (Hupdated _ He) as H1. pose proof (Hin _ He) as H2.
    simpl in *. rewrite H1, H2. by rewrite bool_decide_eq_true_2.
  - rewrite (Hout _ Hk). destruct (stored w !! k) as [e|] eqn:E; [|done].
    rewrite bool_decide_eq_false_2; [done|]. intros He. apply Hk.
    apply list_elem_of_fmap. by exists (k, e).
Qed.

Lemma page_loop_spec (fuel : nat) :
  ∀ (w : World) (cursor : option Position),
    (length (run_query_from q cursor w) < fuel)%nat →
    ∃ w', page_loop fuel q body cursor w = (w', Return ())
          ∧ same_frame w w'
          ∧ ∀ k, stored w' !! k = swept cursor w k.
Proof.
  induction fuel as [|fuel IH]; intros w cursor Hfuel; [lia|].
  simpl. unfold_M. unfold fetch_page.
  set (rest := run_query_from q cursor w) in *.
  destruct (page_step cursor w 25) as (w1 & Hrun & Hfr & Hst).
  fold rest in Hrun, Hst. rewrite Hrun.
  pose proof (run_query_from_sorted q cursor w) as Hsorted. fold rest in Hsorted.
  pose proof (run_query_from_NoDup q cursor w) as Hnodup. fold rest in Hnodup.
  case_bool_decide as Hmore.
  - (* more rows after the page *)
    destruct (last (take 25 rest)) as [rl|] eqn:Hlast.
    2:{ apply last_None in Hlast. apply (f_equal length) in Hlast.
        rewrite length_take in Hlast. cbn [length] in Hlast. lia. }
    assert (rl ∈ take 25 rest) as Hrl.
    { apply last_Some in Hlast as [l' ->]. apply elem_of_app. right.
      by apply list_elem_of_singleton. }
    assert (rl ∈ rest) as Hrl'.
    { rewrite <- (take_drop 25 rest). apply elem_of_app. by left. }
    (* the rows after the new cursor are the rows after the page *)
    assert (∀ r, r ∈ run_query_from q (Some (position_of q rl)) w1
                 ↔ r ∈ drop 25 rest) as Hnext.
    { intros [k e]. rewrite elem_of_run_query_from. simpl. rewrite Hst.
      rewrite bool_decide_eq_true. split.
      - intros (Hl & Hm & Haf).
        destruct (stored w !! k) as [e0|] eqn:E0; [|done].
        case_bool_decide as Hpage.
        + apply Hupd in Hl. congruence.
        + injection Hl as ->.
          assert ((k, e) ∈ rest) as Hr.
          { apply elem_of_run_query_from. split_and!; [done..|].
            apply elem_of_run_query_from in Hrl' as (_ & _ & Hc).
            by eapply after_cursor_trans. }
          rewrite <- (take_drop 25 rest) in Hr.
          apply elem_of_app in Hr as [Hr|Hr]; done.
      - intros Hr.
        assert ((k, e) ∈ rest) as Hr'.
        { rewrite <- (take_drop 25 rest). apply elem_of_app. by right. }
        assert ((k, e) ∉ take 25 rest) as Hnp.
        { intros Hp. rewrite <- (take_drop 25 rest) in Hnodup.
          rewrite fmap_app in Hnodup. apply NoDup_app in Hnodup as (_ & Hd & _).
          apply (Hd k); apply list_elem_of_fmap; by exists (k, e). }
        apply elem_of_run_query_from in Hr' as (Hl & Hm & Haf). simpl in Hl.
        rewrite Hl. rewrite bool_decide_eq_false_2 by done.
        split_and!; [done..|].
        destruct (decide (position_lt (position_of q rl) (position_of q (k, e))))
          as [|Hn]; [done|].
        apply position_not_lt in Hn.
        pose proof (after_page_le _ _ _ _ Hsorted Hlast Hr) as Hle.
        pose proof (position_le_antisym _ _ Hn Hle) as Heq.
        assert ((k, e) ∈ rest) as Hr'.
        { rewrite <- (take_drop 25 rest). apply elem_of_app. by right. }
        apply (position_of_inj q cursor w _ _ Hr' Hrl') in Heq. by subst. }
    assert (length (run_query_from q (Some (position_of q rl)) w1)
            < fuel)%nat as Hfuel'.
    { assert (run_query_from q (Some (position_of q rl)) w1 ⊆+ drop 25 rest) as Hsub.
      { apply NoDup_submseteq.
        - eapply NoDup_fmap_1, run_query_from_NoDup.
        - intros r. apply Hnext. }
      apply submseteq_length in Hsub. rewrite length_drop in Hsub. lia. }
    destruct (IH w1 _ Hfuel') as (w' & Hloop & Hfr' & Hst').
    exists w'. rewrite Hloop. split_and!; [done|by eapply same_frame_trans|].
    intros k. rewrite Hst'. unfold swept. rewrite Hst.
    destruct (stored w !! k) as [e|] eqn:E; [|done].
    case_bool_decide as Hpage.
    + assert ((k, e) ∈ rest) as Hr.
      { rewrite <- (take_drop 25 rest). apply elem_of_app. by left. }
      apply elem_of_run_query_from in Hr as (_ & -> & ->). simpl.
      destruct (upd k e) as [e'|] eqn:Eu; [|done].
      by rewrite (Hupd _ _ _ Eu).
    + destruct (matches q (k, e) && after_cursor q (Some (position_of q rl)) (k, e))
        eqn:Hc.
      * assert ((k, e) ∈ drop 25 rest) as Hr.
        { apply Hnext, elem_of_run_query_from. simpl. rewrite Hst, E.
          rewrite bool_decide_eq_false_2 by done.
          apply andb_true_iff in Hc. tauto. }
        assert ((k, e) ∈ rest) as Hr'.
        { rewrite <- (take_drop 25 rest). apply elem_of_app. by right. }
        by apply elem_of_run_query_from in Hr' as (_ & -> & ->).
      * destruct (matches q (k, e) && after_cursor q cursor (k, e)) eqn:Hc';
          [|done].
        exfalso. apply andb_true_iff in Hc' as [Hm Ha].
        assert ((k, e) ∈ rest) as Hr.
        { apply elem_of_run_query_from. done. }
        rewrite <- (take_drop 25 rest) in Hr.
        apply elem_of_app in Hr as [Hr|Hr]; [done|].
        apply Hnext, elem_of_run_query_from in Hr as (_ & Hm' & Ha').
        rewrite Hm', Ha' in Hc. done.
  - (* the page is all that is left *)
    exists w1. split_and!; [done..|].
    intros k. rewrite Hst. unfold swept.
    destruct (stored w !! k) as [e|] eqn:E; [|done].
    rewrite take_ge by lia.
    destruct (matches q (k, e) && after_cursor q cursor (k, e)) eqn:Hc.
    + rewrite bool_decide_eq_true_2; [done|].
      apply elem_of_run_query_from. apply andb_true_iff in Hc. tauto.
    + rewrite bool_decide_eq_false_2; [done|].
      intros (_ & Hm & Ha)%elem_of_run_query_from. by rewrite Hm, Ha in Hc.
Qed.

Lemma run_query_length_le cursor (w : World) :
  (length (run_query_from q cursor w) < enough_fuel w)%nat.
Proof.
  unfold enough_fuel, run_query_from.
  rewrite merge_sort_Permutation.
  pose proof (length_filter
    (λ r : Row, matches q r && after_cursor q cursor r = true)
    (map_to_list (stored w))) as H.
  rewrite length_map_to_list in H. lia.
Qed.

End PageLoop.

(** * [drain_queue] and [delete_for_feed] *)

Section Sweeps.

Variable K : Constants.

Lemma drain_body_spec (now : Z) :
  body_spec
    (λ entries, for_each entries (λ r, put_entry now r.1 (drain_entry K r.2)))
    (λ _ e, Some (auto_now_add now (drain_entry K e))).
Proof.
  intros page w Hnd Hin. rewrite for_each_put_entry.
  eexists. split_and!; [done|done|..]; simpl.
  - intros k Hk. by apply put_all_lookup_notin.
  - intros [k e] Hr. by apply put_all_lookup_in.
Qed.

Lemma published_auto_now_add now e :
  published (auto_now_add now e) = published e.
Proof. unfold auto_now_add. by destruct (added e). Qed.

Lemma creating_auto_now_add now e :
  creating (auto_now_add now e) = creating e.
Proof. unfold auto_now_add. by destruct (added e). Qed.

Lemma drain_leaves_query (now : Z) (feed : FeedKey) :
  upd_leaves_query (latest_unpublished feed)
    (λ _ e, Some (auto_now_add now (drain_entry K e))).
Proof.
  intros k e e' [= <-]. unfold matches. simpl.
  rewrite published_auto_now_add. simpl.
  by rewrite andb_false_r.
Qed.

(** [drain_queue] returns, and it rewrites exactly the unpublished,
    non-reserved entries of the feed. *)
Lemma drain_queue_spec (now : Z) (feed : FeedKey) (w : World) :
  ∃ w', drain_queue K now feed w = (w', Return ())
        ∧ same_frame w w'
        ∧ ∀ k, stored w' !! k =
               match stored w !! k with
               | Some e =>
                   if matches (latest_unpublished feed) (k, e)
                   then Some (auto_now_add now (drain_entry K e))
                   else Some e
               | None => None
               end.
Proof.
  unfold drain_queue, drain_queue_fuel. unfold_M.
  destruct (page_loop_spec _ _ _ (drain_body_spec now)
              (drain_leaves_query now feed) (enough_fuel w) w None
              (run_query_length_le _ _ w))
    as (w' & Hrun & Hfr & Hst).
  exists w'. split_and!; [done..|]. intros k. rewrite Hst. unfold swept.
  destruct (stored w !! k); [|done]. simpl. by rewrite andb_true_r.
Qed.

Lemma delete_body_spec :
  body_spec
    (λ entries, let entries_keys := (λ x : Row, x.1) <$> entries in
                delete_multi entries_keys)
    (λ _ _, None).
Proof.
  intros page w Hnd Hin. unfold delete_multi. unfold_M.
  eexists. split_and!; [done|done|..]; simpl.
  - intros k Hk. by apply lookup_foldr_delete_not_elem_of.
  - intros r Hr. apply lookup_foldr_delete.
    apply list_elem_of_fmap. by exists r.
Qed.

Lemma delete_leaves_query (q : Query) :
  upd_leaves_query q (λ _ _, None).
Proof. intros k e e' [=]. Qed.

(** [delete_for_feed] returns, and it deletes exactly the entries of
    the feed that are not reservations. *)
Lemma delete_for_feed_spec (feed : FeedKey) (w : World) :
  ∃ w', delete_for_feed feed w = (w', Return ())
        ∧ same_frame w w'
        ∧ ∀ k, stored w' !! k =
               match stored w !! k with
               | Some e =>
                   if matches (latest_for_feed feed) (k, e) then None
                   else Some e
               | None => None
               end.
Proof.
  unfold delete_for_feed, delete_for_feed_fuel. unfold_M.
  destruct (page_loop_spec (latest_for_feed feed) _ _ delete_body_spec
              (delete_leaves_query _) (enough_fuel w) w None
              (run_query_length_le _ _ w))
    as (w' & Hrun & Hfr & Hst).
  exists w'. split_and!; [done..|]. intros k. rewrite Hst. unfold swept.
  destruct (stored w !! k); [|done]. simpl. by rewrite andb_true_r.
Qed.

End Sweeps.

(** * [publish_entry] *)

Section Publisher.

Variable K : Constants.
Variable urlfetch_post : string → Feed → EntryKey → Entry → option Z.

Abbreviation publish_entry := (publish_entry K urlfetch_post).

Lemma owned_or_not feed_key w :
  (∃ feed user, owned feed_key feed user w)
  ∨ ¬ (∃ feed user, owned feed_key feed user w).
Proof.
  unfold owned.
  destruct (feeds w !! feed_key) as [feed|] eqn:Hf;
    [|right; intros (? & ? & ? & _); congruence].
  destruct (key_parent feed_key) as [uk|] eqn:Hp;
    [|right; intros (? & ? & _ & ? & ? & _); congruence].
  destruct (users w !! uk) as [user|] eqn:Hu.
  - left. exists feed, user. split; [done|]. by exists uk.
  - right. intros (? & ? & _ & ? & ? & ?). congruence.
Qed.

Lemma publish_entry_401 now key self w feed user :
  owned (key_parent key) feed user w →
  urlfetch_post (access_token user) feed key self = Some 401 →
  publish_entry now key self w =
    (with_stored (<[key := marked_published now self]> (stored w))
       (with_feeds (<[key_parent key :=
                        set_status (FEED_STATE_NEEDS_REAUTH K) feed]> (feeds w))
          (with_posted (posted w ++ [key]) w)),
     Return ()).
Proof.
  intros (Hf & uk & Hp & Hu) Hpost. unfold publish_entry, publish_entry_self. unfold_M.
  rewrite Hf, Hp, Hu. unfold log_post, put_feed, put_entry. unfold_M.
  rewrite Hpost. done.
Qed.

Lemma publish_entry_200 now key self w feed user :
  owned (key_parent key) feed user w →
  urlfetch_post (access_token user) feed key self = Some 200 →
  publish_entry now key self w =
    (with_stored (<[key := marked_published now self]> (stored w))
       (with_posted (posted w ++ [key]) w),
     Return ()).
Proof.
  intros (Hf & uk & Hp & Hu) Hpost. unfold publish_entry, publish_entry_self. unfold_M.
  rewrite Hf, Hp, Hu. unfold log_post, put_feed, put_entry. unfold_M.
  rewrite Hpost. done.
Qed.

Lemma publish_entry_400 now key self w feed user :
  owned (key_parent key) feed user w →
  urlfetch_post (access_token user) feed key self = Some 400 →
  publish_entry now key self w =
    (with_stored
       (<[key := marked_published now
                   (set_overflow_reason (OVERFLOW_REASON_MALFORMED K)
                      (set_overflow true self))]> (stored w))
       (with_posted (posted w ++ [key]) w),
     Return ()).
Proof.
  intros (Hf & uk & Hp & Hu) Hpost. unfold publish_entry, publish_entry_self. unfold_M.
  rewrite Hf, Hp, Hu. unfold log_post, put_feed, put_entry. unfold_M.
  rewrite Hpost. done.
Qed.

Lemma publish_entry_other now key self w feed user code :
  owned (key_parent key) feed user w →
  urlfetch_post (access_token user) feed key self = Some code →
  code ≠ 401 → code ≠ 200 → code ≠ 400 →
  publish_entry now key self w =
    (with_posted (posted w ++ [key]) w, Raise (Exception code)).
Proof.
  intros (Hf & uk & Hp & Hu) Hpost H1 H2 H3. unfold publish_entry, publish_entry_self. unfold_M.
  rewrite Hf, Hp, Hu. unfold log_post, put_feed, put_entry. unfold_M.
  rewrite Hpost.
  destruct (Z.eqb_spec code 401); [done|].
  destruct (Z.eqb_spec code 200); [done|].
  destruct (Z.eqb_spec code 400); [done|]. done.
Qed.

Lemma publish_entry_failed now key self w feed user :
  owned (key_parent key) feed user w →
  urlfetch_post (access_token user) feed key self = None →
  publish_entry now key self w =
    (with_posted (posted w ++ [key]) w, Return ()).
Proof.
  intros (Hf & uk & Hp & Hu) Hpost. unfold publish_entry, publish_entry_self. unfold_M.
  rewrite Hf, Hp, Hu. unfold log_post, put_feed, put_entry. unfold_M.
  rewrite Hpost. done.
Qed.

(** Whatever the response, an owned feed stays owned, the POST is
    logged, and only the entry posted can change. *)
Lemma publish_entry_owned now key self w feed user w' out :
  owned (key_parent key) feed user w →
  publish_entry now key self w = (w', out) →
  posted w' = posted w ++ [key]
  ∧ (∃ feed', owned (key_parent key) feed' user w')
  ∧ users w' = users w
  ∧ (∀ k, k ≠ key → stored w' !! k = stored w !! k)
  ∧ (stored w' !! key = stored w !! key
     ∨ ∃ e, stored w' !! key = Some e ∧ published e = true).
Proof.
  intros Ho Hrun. pose proof Ho as (Hf & uk & Hp & Hu).
  destruct (urlfetch_post (access_token user) feed key self) as [code|] eqn:Hpost.
  - destruct (decide (code = 401)) as [->|H1];
      [rewrite (publish_entry_401 _ _ _ _ _ _ Ho Hpost) in Hrun|
       destruct (decide (code = 200)) as [->|H2];
       [rewrite (publish_entry_200 _ _ _ _ _ _ Ho Hpost) in Hrun|
        destruct (decide (code = 400)) as [->|H3];
        [rewrite (publish_entry_400 _ _ _ _ _ _ Ho Hpost) in Hrun|
         rewrite (publish_entry_other _ _ _ _ _ _ _ Ho Hpost H1 H2 H3) in Hrun]]];
      injection Hrun as <- <-; simpl.
    + split_and!; [done| |done| |].
      * eexists. split; [apply lookup_insert_eq|]. eauto.
      * intros k Hk. by rewrite lookup_insert_ne.
      * right. eexists. split; [apply lookup_insert_eq|].
        unfold marked_published. by rewrite published_auto_now_add.
    + split_and!; [done|by eexists|done| |].
      * intros k Hk. by rewrite lookup_insert_ne.
      * right. eexists. split; [apply lookup_insert_eq|].
        unfold marked_published. by rewrite published_auto_now_add.
    + split_and!; [done|by eexists|done| |].
      * intros k Hk. by rewrite lookup_insert_ne.
      * right. eexists. split; [apply lookup_insert_eq|].
        unfold marked_published. by rewrite published_auto_now_add.
    + split_and!; [done|by eexists|done|done|by left].
  - rewrite (publish_entry_failed _ _ _ _ _ _ Ho Hpost) in Hrun.
    injection Hrun as <- <-; simpl.
    split_and!; [done|by eexists|done|done|by left].
Qed.

(** Without an owner on record no POST is issued, and none will be. *)
Lemma publish_entry_unowned now key self w w' out :
  (¬ ∃ feed user, owned (key_parent key) feed user w) →
  publish_entry now key self w = (w', out) →
  posted w' = posted w
  ∧ ¬ ∃ feed user, owned (key_parent key) feed user w'.
Proof.
  intros Hno. unfold publish_entry, publish_entry_self. unfold_M.
  destruct (feeds w !! key_parent key) as [feed|] eqn:Hf.
  - destruct (key_parent (key_parent key)) as [uk|] eqn:Hp.
    + destruct (users w !! uk) as [user|] eqn:Hu.
      * destruct Hno. exists feed, user. split; [done|]. by exists uk.
      * intros [= <- <-]. done.
    + destruct (delete_for_feed_spec (key_parent key) w)
        as (w1 & -> & (Hus & Hfs & Hps) & _).
      unfold delete_feed_key. unfold_M. intros [= <- <-]. simpl.
      split; [done|]. intros (feed' & user & Hf' & _). simpl in Hf'.
      by rewrite lookup_delete_eq in Hf'.
  - intros [= <- <-]. split; [done|]. intros (feed & user & Hf' & _).
    congruence.
Qed.

End Publisher.

(** * [publish_for_feed] *)

Section Scheduler.

Variable K : Constants.
Variable urlfetch_post : string → Feed → EntryKey → Entry → option Z.

Abbreviation publish_entry := (publish_entry K urlfetch_post).
Abbreviation publish_each := (publish_each K urlfetch_post).
Abbreviation publish_for_feed := (publish_for_feed K urlfetch_post).

Lemma publish_each_unowned now feed_key (l : list Row) n w w' out :
  (∀ r, r ∈ l → key_parent r.1 = feed_key) →
  (¬ ∃ feed user, owned feed_key feed user w) →
  publish_each now l n w = (w', out) →
  posted w' = posted w.
Proof.
  revert n w. induction l as [|r l IH]; intros n w Hl Hno; simpl.
  - unfold_M. by intros [= <- <-].
  - unfold_M.
    destruct (publish_entry now r.1 r.2 w) as [w1 [[]|e]] eqn:Hrun.
    + assert (key_parent r.1 = feed_key) as Hr by (apply Hl; left).
      rewrite <- Hr in Hno.
      destruct (publish_entry_unowned _ _ _ _ _ _ _ _ Hno Hrun) as [Hp Hno'].
      rewrite Hr in Hno'. intros Hrest.
      rewrite (IH _ _ (λ r Hr, Hl r (list_elem_of_further _ _ _ Hr)) Hno' Hrest).
      done.
    + assert (key_parent r.1 = feed_key) as Hr by (apply Hl; left).
      rewrite <- Hr in Hno.
      destruct (publish_entry_unowned _ _ _ _ _ _ _ _ Hno Hrun) as [Hp Hno'].
      by intros [= <- <-].
Qed.

(** The POSTs of one cycle go out in the order of the list, one per
    entry, up to the first that raises. *)
Lemma publish_each_posts now feed_key (l : list Row) n w w' out :
  (∀ r, r ∈ l → key_parent r.1 = feed_key) →
  publish_each now l n w = (w', out) →
  ∃ l', l' `prefix_of` l ∧ posted w' = posted w ++ l'.*1
        ∧ ((∃ feed user, owned feed_key feed user w) →
           ∀ c, out = Return c → l' = l ∧ c = n + Z.of_nat (length l)).
Proof.
  intros Hl Hrun.
  destruct (owned_or_not feed_key w) as [Ho|Hno].
  2:{ exists []. split; [apply prefix_nil|].
      rewrite (publish_each_unowned _ _ _ _ _ _ _ Hl Hno Hrun).
      split; [by rewrite app_nil_r|]. intros Ho. done. }
  revert n w Hl Hrun Ho. induction l as [|r l IH]; intros n w Hl Hrun Ho.
  - simpl in Hrun. unfold_M. injection Hrun as <- <-.
    exists []. split_and!; [done|by rewrite app_nil_r|].
    intros _ c [= <-]. split; [done|]. simpl. lia.
  - simpl in Hrun. unfold_M.
    assert (key_parent r.1 = feed_key) as Hr by (apply Hl; left).
    destruct Ho as (feed & user & Ho).
    destruct (publish_entry now r.1 r.2 w) as [w1 [[]|e]] eqn:Hpe.
    + rewrite <- Hr in Ho.
      destruct (publish_entry_owned _ _ _ _ _ _ _ _ _ _ Ho Hpe)
        as (Hp & (feed' & Ho') & _).
      rewrite Hr in Ho'.
      destruct (IH _ _ (λ r Hr, Hl r (list_elem_of_further _ _ _ Hr)) Hrun
                  (ex_intro _ feed' (ex_intro _ user Ho')))
        as (l' & Hpre & Hposted & Hret).
      exists (r :: l'). split_and!.
      * by apply prefix_cons.
      * rewrite Hposted, Hp, fmap_cons, <- app_assoc. done.
      * intros _ c ->.
        destruct (Hret (ex_intro _ feed' (ex_intro _ user Ho')) c eq_refl)
          as [-> ->].
        split; [done|]. simpl. lia.
    + injection Hrun as <- <-. rewrite <- Hr in Ho.
      destruct (publish_entry_owned _ _ _ _ _ _ _ _ _ _ Ho Hpe) as (Hp & _).
      exists [r]. split_and!.
      * apply prefix_cons, prefix_nil.
      * done.
      * intros _ c [=].
Qed.

Lemma fetch_limit_positive skip_queue budget :
  0 < budget → fetch_limit skip_queue budget = budget.
Proof.
  intros H. unfold fetch_limit, or_1, truthy.
  destruct skip_queue; [|done].
  destruct (Z.eqb_spec budget 0); [lia|done].
Qed.

Lemma publish_for_feed_open now feed_key feed skip_queue w :
  (0 <? remaining_budget K now feed_key feed w) || skip_queue = true →
  0 ≤ fetch_limit skip_queue (remaining_budget K now feed_key feed w) →
  publish_for_feed now feed_key feed skip_queue w =
    publish_each now
      (take (Z.to_nat (fetch_limit skip_queue
                         (remaining_budget K now feed_key feed w)))
            (run_query (latest_unpublished feed_key) w))
      0 w.
Proof.
  intros Hgate Hlim. unfold publish_for_feed. unfold_M. rewrite Hgate.
  fold (fetch_limit skip_queue (remaining_budget K now feed_key feed w)).
  unfold fetch. unfold_M.
  destruct (Z.ltb_spec (fetch_limit skip_queue
              (remaining_budget K now feed_key feed w)) 0); [lia|done].
Qed.

Lemma publish_for_feed_closed now feed_key feed w :
  remaining_budget K now feed_key feed w ≤ 0 →
  publish_for_feed now feed_key feed false w = (w, Return 0).
Proof.
  intros H. unfold publish_for_feed. unfold_M.
  destruct (Z.ltb_spec 0 (remaining_budget K now feed_key feed w)); [lia|].
  done.
Qed.

Lemma publish_for_feed_negative now feed_key feed w :
  remaining_budget K now feed_key feed w < 0 →
  publish_for_feed now feed_key feed true w = (w, Raise BadArgumentError).
Proof.
  intros H. unfold publish_for_feed. unfold_M.
  rewrite orb_true_r. unfold or_1, truthy, fetch. unfold_M.
  destruct (Z.eqb_spec (remaining_budget K now feed_key feed w) 0); [lia|].
  simpl.
  destruct (Z.ltb_spec (remaining_budget K now feed_key feed w) 0); [done|lia].
Qed.

Lemma run_query_parent q w r :
  r ∈ run_query q w → key_parent r.1 = q_ancestor q.
Proof. by intros (_ & [? _]%matches_spec)%elem_of_run_query. Qed.

(** Whatever happens, the POSTs of [publish_for_feed] are a prefix of
    the unpublished, non-reserved entries in query order. *)
Lemma publish_for_feed_posts now feed_key feed skip_queue w w' out :
  publish_for_feed now feed_key feed skip_queue w = (w', out) →
  ∃ l', l' `prefix_of` run_query (latest_unpublished feed_key) w
        ∧ posted w' = posted w ++ l'.*1.
Proof.
  intros Hrun.
  destruct ((0 <? remaining_budget K now feed_key feed w) || skip_queue)
    eqn:Hgate.
  - destruct (decide (0 ≤ fetch_limit skip_queue
                        (remaining_budget K now feed_key feed w))) as [Hl|Hl].
    + rewrite (publish_for_feed_open _ _ _ _ _ Hgate Hl) in Hrun.
      apply (publish_each_posts _ feed_key) in Hrun as (l' & Hpre & Hp & _).
      * exists l'. split; [|done]. etrans; [done|]. apply prefix_take.
      * intros r Hr%elem_of_take. destruct Hr as (i & Hi%list_elem_of_lookup_2 & _).
        by apply run_query_parent in Hi.
    + unfold publish_for_feed in Hrun. unfold_M. rewrite Hgate in Hrun.
      fold (fetch_limit skip_queue (remaining_budget K now feed_key feed w))
        in Hrun.
      unfold fetch in Hrun. unfold_M.
      destruct (Z.ltb_spec (fetch_limit skip_queue
                  (remaining_budget K now feed_key feed w)) 0); [|lia].
      injection Hrun as <- <-. exists []. split; [apply prefix_nil|].
      by rewrite app_nil_r.
  - unfold publish_for_feed in Hrun. unfold_M. rewrite Hgate in Hrun.
    injection Hrun as <- <-. exists []. split; [apply prefix_nil|].
    by rewrite app_nil_r.
Qed.

End Scheduler.

(** * The response codes of the posting API *)

(** C1, as the code has it: on a 401 the feed is set to NEEDS_REAUTH and
    put, and then the entry falls through to the last lines of
    [publish_entry]: it is stored with [published = True] and
    [published_at = now], although it was not posted. *)
Theorem publish_entry_401_marks_entry_published
    (K : Constants) (urlfetch_post : string → Feed → EntryKey → Entry → option Z)
    (now : Z) (key : EntryKey) (self : Entry) (w : World)
    (feed : Feed) (user : User) :
  owned (key_parent key) feed user w →
  urlfetch_post (access_token user) feed key self = Some 401 →
  ∃ w' e',
    publish_entry K urlfetch_post now key self w = (w', Return ())
    ∧ feeds w' !! key_parent key
      = Some (set_status (FEED_STATE_NEEDS_REAUTH K) feed)
    ∧ stored w' !! key = Some e'
    ∧ published e' = true ∧ published_at e' = Some now
    ∧ overflow e' = overflow self.
Proof.
  intros Ho Hpost. eexists _, _.
  rewrite (publish_entry_401 _ _ _ _ _ _ _ _ Ho Hpost). simpl.
  split_and!; [done|apply lookup_insert_eq|apply lookup_insert_eq|..];
    unfold marked_published, auto_now_add; simpl; by destruct (added self).
Qed.

Lemma publish_entry_401_marks_entry_published_witness :
  ∃ w' e',
    publish_entry Sample.constants (Sample.always 401) 100
      (Sample.feed_key, "old"%string) (Sample.entry "old" 10)
      Sample.two_unpublished = (w', Return ())
    ∧ feeds w' !! Sample.feed_key = Some (set_status 2 Sample.feed)
    ∧ stored w' !! (Sample.feed_key, "old"%string) = Some e'
    ∧ published e' = true ∧ published_at e' = Some 100
    ∧ overflow e' = false.
Proof.
  apply (publish_entry_401_marks_entry_published Sample.constants
           (Sample.always 401) 100 (Sample.feed_key, "old"%string)
           (Sample.entry "old" 10) Sample.two_unpublished Sample.feed
           {| access_token := "token" |}).
  - split; [vm_compute; reflexivity|].
    exists Sample.user_key. split; vm_compute; reflexivity.
  - reflexivity.
Defined.

(** * The order of publication *)

Lemma latest_unpublished_order feed (r1 r2 : Row) :
  row_le (latest_unpublished feed) r1 r2 → added_le (added r2.2) (added r1.2).
Proof.
  unfold row_le, position_le, position_of, position_compare. simpl.
  destruct (added r1.2) as [t1|], (added r2.2) as [t2|]; simpl; try done.
  destruct (Z.compare_spec (- t1) (- t2)); try done; intros _; lia.
Qed.

Lemma StronglySorted_weaken {A} (R R' : relation A) (l : list A) :
  (∀ x y, R x y → R' x y) → StronglySorted R l → StronglySorted R' l.
Proof.
  intros HR. induction 1 as [|x l Hl IH Hx]; constructor; [done|].
  eapply Forall_impl; [done|]. auto.
Qed.

Lemma run_query_newest_first feed w :
  newest_first (run_query (latest_unpublished feed) w).
Proof.
  eapply StronglySorted_weaken; [apply latest_unpublished_order|].
  apply run_query_from_sorted.
Qed.

(** The rows left out of the first [n] are not newer than those taken. *)
Lemma take_newest feed w n (r r' : Row) :
  r ∈ take n (run_query (latest_unpublished feed) w) →
  r' ∈ run_query (latest_unpublished feed) w →
  r' ∉ take n (run_query (latest_unpublished feed) w) →
  added_le (added r'.2) (added r.2).
Proof.
  intros Hr Hr' Hnot.
  pose proof (run_query_from_sorted (latest_unpublished feed) None w) as Hs.
  fold (run_query (latest_unpublished feed) w) in Hs.
  rewrite <- (take_drop n (run_query (latest_unpublished feed) w)) in Hs, Hr'.
  apply elem_of_app in Hr' as [Hr'|Hr']; [done|].
  apply StronglySorted_app in Hs as (H & _ & _).
  by apply (latest_unpublished_order feed), H.
Qed.




(** * Reservations *)

Lemma query_excludes_reservations q cursor w :
  excludes_reservations q →
  Forall (λ r : Row, creating r.2 = false) (run_query_from q cursor w)
  ∧ run_query_from q cursor w = run_query_from q cursor (without_reservations w).
Proof.
  intros Hq. split.
  - apply Forall_forall. intros r (_ & [_ Hf]%matches_spec & _)%elem_of_run_query_from.
    by apply Hq.
  - apply run_query_from_ext. intros r [_ Hf]%matches_spec. simpl.
    rewrite map_lookup_filter_Some. simpl. apply Hq in Hf. tauto.
Qed.

Lemma latest_unpublished_excludes feed :
  excludes_reservations (latest_unpublished feed).
Proof.
  intros e. simpl. rewrite andb_true_iff, !bool_decide_eq_true. tauto.
Qed.

Lemma latest_published_excludes feed since :
  excludes_reservations (latest_published feed since).
Proof.
  intros e. simpl. rewrite !andb_true_iff, !bool_decide_eq_true. tauto.
Qed.

Lemma latest_excludes K feed include_overflow overflow_cats order_by :
  excludes_reservations (latest K feed include_overflow overflow_cats order_by).
Proof.
  intros e. simpl. rewrite !andb_true_iff, !bool_decide_eq_true. tauto.
Qed.

Lemma latest_for_feed_excludes feed :
  excludes_reservations (latest_for_feed feed).
Proof. intros e. simpl. by rewrite bool_decide_eq_true. Qed.



(** * The manual override *)

(** C7 holds when the remaining budget is exactly [0]: the limit of the
    fetch is [1]. *)
Lemma fetch_limit_zero : fetch_limit true 0 = 1.
Proof. reflexivity. Qed.

(** C7, as the code has it: [max_stories_to_publish or 1] replaces [0]
    only. With [skip_queue] and a negative remaining budget the negative
    number is passed on as the limit of the fetch, which the datastore
    refuses: nothing is posted and the call raises. *)
Theorem publish_for_feed_skip_queue_negative_budget
    (K : Constants) (urlfetch_post : string → Feed → EntryKey → Entry → option Z)
    (now : Z) (feed_key : FeedKey) (feed : Feed) (w : World) :
  remaining_budget K now feed_key feed w < 0 →
  fetch_limit true (remaining_budget K now feed_key feed w)
  = remaining_budget K now feed_key feed w
  ∧ publish_for_feed K urlfetch_post now feed_key feed true w
    = (w, Raise BadArgumentError).
Proof.
  intros H. split; [|by apply publish_for_feed_negative].
  unfold fetch_limit, or_1, truthy.
  destruct (Z.eqb_spec (remaining_budget K now feed_key feed w) 0); [lia|done].
Qed.

Lemma publish_for_feed_skip_queue_negative_budget_witness :
  remaining_budget Sample.constants 10000 Sample.feed_key Sample.feed
    Sample.over_budget = -1
  ∧ fetch_limit true (-1) = -1
  ∧ publish_for_feed Sample.constants (Sample.always 200) 10000
      Sample.feed_key Sample.feed true Sample.over_budget
    = (Sample.over_budget, Raise BadArgumentError).
Proof.
  split; [vm_compute; reflexivity|].
  apply (publish_for_feed_skip_queue_negative_budget Sample.constants
           (Sample.always 200) 10000 Sample.feed_key Sample.feed
           Sample.over_budget).
  vm_compute. reflexivity.
Defined.

(** * Deleting a feed *)

Lemma run_query_from_nil q cursor w :
  (∀ r, stored w !! r.1 = Some r.2 → matches q r = false) →
  run_query_from q cursor w = [].
Proof.
  intros H. destruct (run_query_from q cursor w) as [|r l] eqn:E; [done|].
  assert (r ∈ run_query_from q cursor w) as Hr by (rewrite E; left).
  apply elem_of_run_query_from in Hr as (Hl & Hm & _).
  rewrite (H r Hl) in Hm. done.
Qed.




(** * Reauthorization *)

Section Reauthorize.

Variable K : Constants.

Lemma for_each_put_feed (f : Feed → Feed) (l : list (FeedKey * Feed)) w :
  for_each l (λ '(feed_key, feed), put_feed feed_key (f feed)) w
  = (with_feeds (put_feeds f l (feeds w)) w, Return ()).
Proof.
  revert w. induction l as [|[k x] l IH]; intros w; simpl.
  - by destruct w.
  - unfold put_feed. unfold_M. simpl. rewrite IH. done.
Qed.

Lemma put_feeds_lookup_notin f l m k :
  k ∉ l.*1 → put_feeds f l m !! k = m !! k.
Proof.
  revert m. induction l as [|r l IH]; intros m Hk; [done|].
  rewrite fmap_cons, not_elem_of_cons in Hk. destruct Hk as [Hne Hk].
  unfold put_feeds in *. simpl. rewrite IH by done.
  by rewrite lookup_insert_ne.
Qed.

Lemma put_feeds_lookup_in f l m k x :
  NoDup l.*1 → (k, x) ∈ l → put_feeds f l m !! k = Some (f x).
Proof.
  revert m. induction l as [|r l IH]; intros m Hnd Hin.
  - by apply elem_of_nil in Hin.
  - rewrite fmap_cons in Hnd. apply NoDup_cons in Hnd as [Hr Hnd].
    apply elem_of_cons in Hin as [<-|Hin].
    + unfold put_feeds. simpl.
      pose proof (put_feeds_lookup_notin f l (<[k := f x]> m) k Hr) as H.
      unfold put_feeds in H. rewrite H. by rewrite lookup_insert_eq.
    + unfold put_feeds. simpl. by apply IH.
Qed.

Lemma feeds_of_user_NoDup user_key w :
  NoDup (feeds_of_user user_key w).*1.
Proof.
  unfold feeds_of_user. apply NoDup_fmap_fst.
  - intros k x1 x2 [_ H1]%list_elem_of_filter [_ H2]%list_elem_of_filter.
    apply elem_of_map_to_list in H1, H2. congruence.
  - apply NoDup_filter, NoDup_map_to_list.
Qed.

Lemma elem_of_feeds_of_user user_key w k x :
  (k, x) ∈ feeds_of_user user_key w
  ↔ key_parent k = Some user_key ∧ feeds w !! k = Some x.
Proof.
  unfold feeds_of_user. rewrite list_elem_of_filter, elem_of_map_to_list.
  done.
Qed.

End Reauthorize.

(** C10: when the constant [FEED_STATE.NEEDS_REAUTH] is a true value,
    [Feed.reauthorize] sets the status of every feed of the user to
    ACTIVE and puts it, whatever its status was; every other property of
    those feeds, every other feed and every entry is kept. *)
Theorem reauthorize_activates_every_feed
    (K : Constants) (user_key : UserKey) (w : World) :
  truthy (FEED_STATE_NEEDS_REAUTH K) = true →
  ∃ w',
    reauthorize K user_key w = (w', Return ())
    ∧ (∀ feed_key,
         feeds w' !! feed_key =
         if decide (key_parent feed_key = Some user_key)
         then set_status (FEED_STATE_ACTIVE K) <$> feeds w !! feed_key
         else feeds w !! feed_key)
    ∧ stored w' = stored w ∧ users w' = users w ∧ posted w' = posted w.
Proof.
  intros Ht. unfold reauthorize. unfold_M. rewrite Ht.
  rewrite (for_each_put_feed (set_status (FEED_STATE_ACTIVE K))).
  eexists. split; [done|]. simpl. split_and!; [|done..].
  intros k. case_decide as Hk.
  - destruct (feeds w !! k) as [x|] eqn:E; simpl.
    + apply put_feeds_lookup_in; [apply feeds_of_user_NoDup|].
      by apply elem_of_feeds_of_user.
    + rewrite put_feeds_lookup_notin; [done|].
      intros ([k' x] & -> & Hin)%list_elem_of_fmap.
      apply elem_of_feeds_of_user in Hin as [_ Hin]. simpl in E. congruence.
  - rewrite put_feeds_lookup_notin; [done|].
    intros ([k' x] & -> & Hin)%list_elem_of_fmap.
    by apply elem_of_feeds_of_user in Hin as [Hin _].
Qed.

(** * The hub push *)

Section Push.

Variable K : Constants.
Variable Item : Type.
Variable guid_for_item : Item → string.
Variable urlfetch_post : string → Feed → EntryKey → Entry → option Z.
Variable prepare_entry_from_item :
  ParsedFeed Item → Item → FeedKey → Feed → bool → Z → bool → option Kwargs.
Variable hmac_hexdigest : DigestMod → string → string → string.
Variable feedparser_parse : string → ParsedFeed Item.

Abbreviation feed_push_update :=
  (feed_push_update K Item guid_for_item urlfetch_post
     prepare_entry_from_item hmac_hexdigest feedparser_parse).
Local Abbreviation ingest_and_publish :=
  (ingest_and_publish K Item guid_for_item urlfetch_post
     prepare_entry_from_item feedparser_parse).

(** With a secret configured, the handler compares the header with the
    HMAC-MD5 of the body. *)
Lemma feed_push_update_checks_md5 now feed_key feed secret request w :
  feeds w !! feed_key = Some feed →
  hub_secret feed = Some secret → secret ≠ ""%string →
  feed_push_update now feed_key request w =
    if decide (headers_X_Hub_Signature request
               = Some (hmac_hexdigest hashlib_md5 secret (stream request)))
    then ingest_and_publish now feed_key feed (stream request) w
    else (w, Return (Body "" 200)).
Proof.
  intros Hf Hs Hne. unfold feed_push_update. unfold_M.
  rewrite Hf. unfold truthy_str. rewrite Hs.
  destruct (String.eqb_spec secret ""); [done|]. simpl.
  unfold hmac_new_hexdigest. simpl.
  case_bool_decide as Hd; case_decide as Hd'; try done.
Qed.

End Push.

(** C9, as the code has it: [feed_push_update] calls [hmac.new] without
    a digest, which is HMAC-MD5. A push that carries the HMAC-SHA1 of
    its body under the feed's secret is dropped like any push with a
    wrong signature: nothing is ingested, nothing is published, the
    response is empty. A push that carries the HMAC-MD5 is ingested and
    published. *)
Theorem feed_push_update_rejects_sha1_signature
    (K : Constants) (Item : Type) (guid_for_item : Item → string)
    (urlfetch_post : string → Feed → EntryKey → Entry → option Z)
    (prepare_entry_from_item :
       ParsedFeed Item → Item → FeedKey → Feed → bool → Z → bool → option Kwargs)
    (hmac_hexdigest : DigestMod → string → string → string)
    (feedparser_parse : string → ParsedFeed Item)
    (now : Z) (feed_key : FeedKey) (feed : Feed) (secret data : string)
    (w : World) :
  feeds w !! feed_key = Some feed →
  hub_secret feed = Some secret → secret ≠ ""%string →
  hmac_hexdigest hashlib_sha1 secret data
    ≠ hmac_hexdigest hashlib_md5 secret data →
  feed_push_update K Item guid_for_item urlfetch_post prepare_entry_from_item
    hmac_hexdigest feedparser_parse now feed_key
    {| headers_X_Hub_Signature := Some (hmac_hexdigest hashlib_sha1 secret data);
       stream := data |} w
  = (w, Return (Body "" 200))
  ∧ feed_push_update K Item guid_for_item urlfetch_post prepare_entry_from_item
      hmac_hexdigest feedparser_parse now feed_key
      {| headers_X_Hub_Signature := Some (hmac_hexdigest hashlib_md5 secret data);
         stream := data |} w
    = ingest_and_publish K Item guid_for_item urlfetch_post
        prepare_entry_from_item feedparser_parse now feed_key feed data w.
Proof.
  intros Hf Hs Hne Hdiff.
  rewrite !(feed_push_update_checks_md5 _ _ _ _ _ _ _ _ _ _ secret _ _ Hf Hs Hne).
  simpl. split.
  - rewrite decide_False; [done|]. by intros [= ?].
  - by rewrite decide_True.
Qed.

(** * Ingestion *)

Lemma filter_ext_in {A} (P Q : A → Prop) `{!∀ x, Decision (P x)}
    `{!∀ x, Decision (Q x)} (l : list A) :
  (∀ x, x ∈ l → P x ↔ Q x) → filter P l = filter Q l.
Proof.
  induction l as [|a l IH]; intros Hext; [done|].
  rewrite !filter_cons.
  rewrite IH by (intros x Hx; apply Hext; by right).
  destruct (decide (P a)) as [HP|HP], (decide (Q a)) as [HQ|HQ]; try done.
  - destruct HQ. apply Hext; [left|done].
  - destruct HP. apply Hext; [left|done].
Qed.

Lemma put_multi_spec now (l : list Row) w :
  put_multi now l w = (with_stored (put_all now id l (stored w)) w, Return ()).
Proof. apply (for_each_put_entry now id). Qed.

Section IncomingGuids.

Variable Item : Type.
Variable guid_for_item : Item → string.
Variables (parsed_feed : ParsedFeed Item) (feed_key : FeedKey).

Local Abbreviation keys_by_guid :=
  (keys_by_guid Item guid_for_item parsed_feed feed_key).
Local Abbreviation incoming_guids :=
  (incoming_guids Item guid_for_item parsed_feed feed_key).
Local Abbreviation known_guids :=
  (known_guids Item guid_for_item parsed_feed feed_key).
Local Abbreviation unknown_guids :=
  (unknown_guids Item guid_for_item parsed_feed feed_key).
Local Abbreviation reservation_rows :=
  (reservation_rows Item guid_for_item parsed_feed feed_key).

Lemma keys_by_guid_Some g k :
  keys_by_guid !! g = Some k ↔
    k = (feed_key, g) ∧ g ∈ guid_for_item <$> pf_entries Item parsed_feed.
Proof.
  unfold keys_by_guid. rewrite <- elem_of_list_to_map'.
  - rewrite list_elem_of_fmap. split.
    + intros (item & [= -> ->] & Hin). split; [done|].
      apply list_elem_of_fmap. by exists item.
    + intros [-> (item & -> & Hin)%list_elem_of_fmap]. by exists item.
  - intros k' (item & [= -> ->] & _)%list_elem_of_fmap
              (item' & [= Hg ->] & _)%list_elem_of_fmap.
    by rewrite Hg.
Qed.

Lemma elem_of_incoming_guids g :
  g ∈ incoming_guids ↔ g ∈ guid_for_item <$> pf_entries Item parsed_feed.
Proof.
  unfold incoming_guids. rewrite list_elem_of_fmap. split.
  - intros ([g' k] & -> & Hin). apply elem_of_map_to_list in Hin.
    by apply keys_by_guid_Some in Hin as [_ ?].
  - intros Hg. exists (g, (feed_key, g)). split; [done|].
    apply elem_of_map_to_list. by apply keys_by_guid_Some.
Qed.

Lemma incoming_guids_NoDup : NoDup incoming_guids.
Proof. apply NoDup_fst_map_to_list. Qed.

Lemma keys_by_guid_values (kv : string * EntryKey) :
  kv ∈ map_to_list keys_by_guid → kv.2 = (feed_key, kv.1).
Proof.
  destruct kv as [g k]. intros Hin%elem_of_map_to_list.
  by apply keys_by_guid_Some in Hin as [-> _].
Qed.

Lemma old_guids_eq (w : World) (l : list (string * EntryKey)) :
  (∀ kv, kv ∈ l → kv.2 = (feed_key, kv.1)) →
  (λ x : Row, key_id x.1)
    <$> omap id ((λ kv : string * EntryKey,
                    (λ e, (kv.2, e)) <$> (stored w !! kv.2)) <$> l)
  = filter (λ g, is_Some (stored w !! (feed_key, g))) l.*1.
Proof.
  induction l as [|[g k] l IH]; intros Hl; [done|].
  rewrite !fmap_cons. simpl. rewrite filter_cons.
  pose proof (Hl (g, k) ltac:(left)) as Hk. simpl in Hk. subst k.
  rewrite <- IH by (intros kv Hkv; apply Hl; by right).
  destruct (stored w !! (feed_key, g)) as [e|] eqn:E; simpl; reflexivity.
Qed.

Lemma new_guids_eq (w : World) :
  filter (λ x, x ∉ known_guids w) incoming_guids = unknown_guids w.
Proof.
  apply filter_ext_in. intros g Hg. unfold known_guids.
  rewrite list_elem_of_filter, eq_None_not_Some. tauto.
Qed.

Lemma unknown_guids_NoDup w : NoDup (unknown_guids w).
Proof. apply NoDup_filter, incoming_guids_NoDup. Qed.

Lemma elem_of_unknown_guids w g :
  g ∈ unknown_guids w ↔
    g ∈ guid_for_item <$> pf_entries Item parsed_feed
    ∧ stored w !! (feed_key, g) = None.
Proof.
  unfold unknown_guids. rewrite list_elem_of_filter, elem_of_incoming_guids.
  tauto.
Qed.

Lemma elem_of_known_guids w g :
  g ∈ known_guids w ↔
    g ∈ guid_for_item <$> pf_entries Item parsed_feed
    ∧ is_Some (stored w !! (feed_key, g)).
Proof.
  unfold known_guids. rewrite list_elem_of_filter, elem_of_incoming_guids.
  tauto.
Qed.

Lemma reservation_rows_lookup w x :
  reservation_rows w !! x =
    if decide (x ∈ unknown_guids w)
    then Some ((feed_key, x), new_entry x true) else None.
Proof.
  unfold reservation_rows. case_decide as Hx.
  - apply elem_of_list_to_map.
    + rewrite <- list_fmap_compose. simpl.
      rewrite (list_fmap_ext _ id); [|done].
      rewrite list_fmap_id. apply unknown_guids_NoDup.
    + apply list_elem_of_fmap. exists x. split; [|done].
      apply elem_of_unknown_guids in Hx as [Hx _].
      by rewrite (proj2 (keys_by_guid_Some x (feed_key, x)) (conj eq_refl Hx)).
  - apply not_elem_of_list_to_map_1.
    rewrite <- list_fmap_compose. simpl.
    rewrite (list_fmap_ext _ id); [|done]. by rewrite list_fmap_id.
Qed.

End IncomingGuids.

Section Enrichment.

Variable Item : Type.
Variable guid_for_item : Item → string.
Variable prepare_entry_from_item :
  ParsedFeed Item → Item → FeedKey → Feed → bool → Z → bool → option Kwargs.

Variables (now : Z) (parsed_feed : ParsedFeed Item) (feed_key : FeedKey)
          (feed : Feed) (overflow : bool) (overflow_reason : Z).

Local Abbreviation enrich_with :=
  (enrich_with Item prepare_entry_from_item parsed_feed feed_key feed
     overflow overflow_reason).

Lemma enrich_fold_lookup (m0 m : gmap string Row) (items : list Item) x :
  is_Some (m0 !! x) →
  foldl enrich_step m
    (omap (λ item,
             match m0 !! guid_for_item item with
             | None => None
             | Some _ =>
                 Some (guid_for_item item,
                       prepare_entry_from_item parsed_feed item feed_key feed
                         overflow overflow_reason overflow)
             end) items) !! x
  = (λ r : Row,
       (r.1, foldl (λ e item, if decide (guid_for_item item = x)
                              then enrich_with item e else e) r.2 items))
      <$> m !! x.
Proof.
  intros Hx. revert m. induction items as [|item items IH]; intros m.
  - simpl. by destruct (m !! x) as [[]|].
  - simpl. destruct (m0 !! guid_for_item item) as [r0|] eqn:E0; simpl.
    + rewrite IH. unfold enrich_step, enrich_with. simpl.
      destruct (prepare_entry_from_item parsed_feed item feed_key feed
                  overflow overflow_reason overflow) as [kw|].
      * rewrite lookup_alter. case_decide as Hg.
        -- subst x. destruct (m !! guid_for_item item) as [[k e]|]; [|done].
           simpl. first [done|by case_decide].
        -- destruct (m !! x) as [[k e]|]; [|done].
           simpl. first [done|by case_decide].
      * destruct (m !! x) as [[k e]|]; [|done].
        simpl. first [done|by case_decide].
    + rewrite IH. destruct (m !! x) as [[k e]|]; [|done]. simpl.
      case_decide as Hg; [|done].
      rewrite Hg in E0. rewrite E0 in Hx. by destruct Hx.
Qed.

End Enrichment.

Section IngestionSpec.

Variable Item : Type.
Variable guid_for_item : Item → string.
Variable prepare_entry_from_item :
  ParsedFeed Item → Item → FeedKey → Feed → bool → Z → bool → option Kwargs.

Variables (now : Z) (parsed_feed : ParsedFeed Item) (feed_key : FeedKey)
          (feed : Feed) (overflow : bool) (overflow_reason : Z).

Abbreviation unknown := (unknown_guids Item guid_for_item parsed_feed feed_key).
Abbreviation known := (known_guids Item guid_for_item parsed_feed feed_key).
Local Abbreviation keyed_by_guid := (keyed_by_guid feed_key).

Lemma keyed_rows_NoDup (m : gmap string Row) :
  keyed_by_guid m → NoDup ((map_to_list m).*2).*1.
Proof.
  intros Hm.
  assert (((map_to_list m).*2).*1 = (λ x, (feed_key, x)) <$> (map_to_list m).*1)
    as ->.
  { rewrite <- !list_fmap_compose. apply list_fmap_ext.
    intros i [x r] Hi%list_elem_of_lookup_2%elem_of_map_to_list. simpl.
    by apply Hm. }
  apply NoDup_fmap_2; [|apply NoDup_fst_map_to_list].
  by intros x y [= ->].
Qed.

Lemma elem_of_keyed_rows (m : gmap string Row) (r : Row) :
  keyed_by_guid m →
  r ∈ (map_to_list m).*2 ↔ m !! key_id r.1 = Some r.
Proof.
  intros Hm. rewrite list_elem_of_fmap. split.
  - intros ([x r'] & -> & Hin%elem_of_map_to_list). simpl.
    by rewrite (Hm _ _ Hin).
  - intros Hr. exists (key_id r.1, r). split; [done|].
    by apply elem_of_map_to_list.
Qed.

(** Putting the rows of such a dictionary. *)
Lemma put_rows_lookup (m : gmap string Row) store k :
  keyed_by_guid m →
  put_all now id (map_to_list m).*2 store !! k =
    if decide (key_parent k = feed_key)
    then match m !! key_id k with
         | Some r => Some (auto_now_add now r.2)
         | None => store !! k
         end
    else store !! k.
Proof.
  intros Hm.
  destruct (decide (k ∈ ((map_to_list m).*2).*1)) as [Hk|Hk].
  - pose proof Hk as ([k' e] & -> & Hin)%list_elem_of_fmap.
    rewrite (put_all_lookup_in now id _ _ _ _ (keyed_rows_NoDup m Hm) Hin).
    apply (elem_of_keyed_rows m _ Hm) in Hin. simpl in *.
    pose proof (Hm _ _ Hin) as Hkey. destruct k' as [p i].
    unfold key_parent, key_id in *. simpl in *. injection Hkey as ->.
    rewrite decide_True by done. by rewrite Hin.
  - rewrite put_all_lookup_notin by done. case_decide as Hp; [|done].
    destruct (m !! key_id k) as [r|] eqn:E; [|done].
    destruct Hk. apply list_elem_of_fmap. exists r. split.
    + rewrite (Hm _ _ E). destruct k. unfold key_parent, key_id in *.
      simpl in *. by subst.
    + apply list_elem_of_fmap. exists (key_id k, r). split; [done|].
      by apply elem_of_map_to_list.
Qed.

(** [process_parsed_feed] returns; it reports the guids the datastore
    did not have as new and the others as old; it stores one entry
    under each new guid and leaves everything else as it was. *)
Lemma process_parsed_feed_spec (w : World) :
  ∃ w',
    process_parsed_feed Item guid_for_item prepare_entry_from_item now
      parsed_feed feed_key feed overflow overflow_reason w
    = (w', Return (unknown w, known w))
    ∧ same_frame w w'
    ∧ ∀ k, stored w' !! k =
           if decide (key_parent k = feed_key ∧ key_id k ∈ unknown w)
           then Some (ingested_entry Item guid_for_item
                        prepare_entry_from_item now parsed_feed feed_key
                        feed overflow overflow_reason (key_id k))
           else stored w !! k.
Proof.
  unfold process_parsed_feed. unfold_M.
  fold (keys_by_guid Item guid_for_item parsed_feed feed_key).
  rewrite (old_guids_eq feed_key w _
             (keys_by_guid_values Item guid_for_item parsed_feed feed_key)).
  fold (incoming_guids Item guid_for_item parsed_feed feed_key).
  fold (known w). rewrite new_guids_eq.
  rewrite !put_multi_spec.
  fold (reservation_rows Item guid_for_item parsed_feed feed_key w).
  set (m1 := reservation_rows Item guid_for_item parsed_feed feed_key w).
  set (m2 := (λ r : Row, (r.1, auto_now_add now r.2)) <$> m1).
  set (m3 := foldl _ m2 _).
  eexists. split; [done|]. split; [done|]. simpl.
  assert (∀ x, m1 !! x = if decide (x ∈ unknown w)
                         then Some ((feed_key, x), new_entry x true)
                         else None) as Hm1.
  { intros x. apply reservation_rows_lookup. }
  assert (keyed_by_guid m1) as Hk1.
  { intros x r. rewrite Hm1. case_decide; [|done]. by intros [= <-]. }
  assert (∀ x, m3 !! x =
            if decide (x ∈ unknown w)
            then Some ((feed_key, x),
                       enriched Item guid_for_item prepare_entry_from_item
                         parsed_feed feed_key feed overflow overflow_reason x
                         (auto_now_add now (new_entry x true)))
            else None) as Hm3.
  { intros x. unfold m3.
    destruct (decide (x ∈ unknown w)) as [Hx|Hx].
    - rewrite (enrich_fold_lookup Item guid_for_item prepare_entry_from_item
                 parsed_feed feed_key feed overflow overflow_reason m2 m2).
      + unfold m2. rewrite lookup_fmap, Hm1, decide_True by done. done.
      + unfold m2. rewrite lookup_fmap, Hm1, decide_True by done. done.
    - assert (∀ (fs : list (string * option Kwargs)) (m : gmap string Row),
                m !! x = None →
                foldl (λ (m : gmap string Row) (f : string * option Kwargs),
                         match f.2 with
                         | Some entry_kwargs =>
                             alter (λ r : Row, (r.1, populate entry_kwargs r.2))
                                   f.1 m
                         | None => m
                         end) m fs !! x = None) as Hnone.
      { induction fs as [|f fs IH]; intros m Hm; [done|]. simpl. apply IH.
        destruct f.2; [|done]. rewrite lookup_alter. case_decide; [|done].
        subst. by rewrite Hm. }
      apply Hnone. unfold m2.
      rewrite lookup_fmap, Hm1, decide_False by done. done. }
  assert (keyed_by_guid m3) as Hk3.
  { intros x r. rewrite Hm3. case_decide; [|done]. by intros [= <-]. }
  intros k. rewrite (put_rows_lookup m3 _ k Hk3).
  destruct (decide (key_parent k = feed_key)) as [Hp|Hp].
  - rewrite Hm3. destruct (decide (key_id k ∈ unknown w)) as [Hu|Hu].
    + rewrite decide_True by done. done.
    + rewrite decide_False by tauto.
      rewrite (put_rows_lookup m1 _ k Hk1).
      rewrite decide_True by done. rewrite Hm1, decide_False by done. done.
  - rewrite decide_False by tauto.
    rewrite (put_rows_lookup m1 _ k Hk1). by rewrite decide_False.
Qed.

End IngestionSpec.

(** * [update_for_feed] *)

Section Lifecycle.

Variable K : Constants.
Variable Item : Type.
Variable guid_for_item : Item → string.
Variable urlfetch_post : string → Feed → EntryKey → Entry → option Z.
Variable prepare_entry_from_item :
  ParsedFeed Item → Item → FeedKey → Feed → bool → Z → bool → option Kwargs.
Variable fetch_parsed_feed_for_feed :
  FeedKey → Feed → option (ParsedFeed Item * FetchResponse).
Variable get_language : string → option string.

Abbreviation update_for_feed :=
  (update_for_feed K Item guid_for_item urlfetch_post prepare_entry_from_item
     fetch_parsed_feed_for_feed get_language).
Local Abbreviation ingest_publish_drain :=
  (ingest_publish_drain K Item guid_for_item urlfetch_post
     prepare_entry_from_item).
Local Abbreviation refreshed := (refreshed Item get_language).
Local Abbreviation modified_feed := (modified_feed Item get_language).
Local Abbreviation refreshed_world := (refreshed_world Item get_language).
Local Abbreviation drain_if_eligible := (drain_if_eligible K).

Lemma update_for_feed_fetched now feed_key feed publish skip_queue overflow
    overflow_reason w parsed_feed resp :
  fetch_parsed_feed_for_feed feed_key feed = Some (parsed_feed, resp) →
  status_code resp ≠ 304 →
  update_for_feed now feed_key feed publish skip_queue overflow
    overflow_reason w
  = ingest_publish_drain now parsed_feed feed_key
      (refreshed parsed_feed resp feed)
      (publish && negb (was_permanente_redirect resp)) skip_queue
      overflow overflow_reason
      (refreshed_world parsed_feed resp feed_key feed w).
Proof.
  intros Hfetch Hcode. unfold update_for_feed.
  rewrite Hfetch. rewrite bool_decide_eq_true_2 by done.
  unfold ingest_publish_drain, refreshed_world, refreshed, modified_feed,
    put_feed.
  unfold_M.
  destruct (was_permanente_redirect resp);
    [|destruct (truthy_str (headers_ETag resp)
                && bool_decide (etag feed ≠ headers_ETag resp))];
    (destruct (pf_language Item parsed_feed) as [l|];
     [cbv beta iota zeta;
      change (language (set_feed_url (final_url resp) feed))
        with (language feed);
      change (language (set_etag (headers_ETag resp) feed))
        with (language feed);
      destruct (bool_decide (get_language l ≠ language feed))|]);
    rewrite ?andb_false_r, ?andb_true_r;
    cbv beta iota zeta; cbn [orb];
    match goal with
    | |- context [process_parsed_feed ?a ?b ?c ?d ?e ?f ?g ?h ?i ?w] =>
        destruct (process_parsed_feed a b c d e f g h i w)
          as [w1 [[new_guids old_guids]|e1]]; [|reflexivity]
    end;
    (destruct publish;
     [match goal with
      | |- context [publish_for_feed ?a ?b ?c ?d ?e ?f ?w] =>
          destruct (publish_for_feed a b c d e f w) as [w2 [c2|e2]];
            [|reflexivity]
      | _ => idtac
      end|]);
    (destruct (bool_decide (5 ≤ length (new_guids ++ old_guids))%nat
               && bool_decide (length new_guids
                               = length (new_guids ++ old_guids)));
     [match goal with
      | |- context [drain_queue ?a ?b ?c ?w] =>
          destruct (drain_queue a b c w) as [w3 [[]|e3]]; reflexivity
      end|reflexivity]).
Qed.

Lemma refreshed_world_stored parsed_feed resp feed_key feed w :
  stored (refreshed_world parsed_feed resp feed_key feed w) = stored w.
Proof. unfold refreshed_world. by destruct (modified_feed _ _ _). Qed.

Lemma drained_not_eligible now feed_key w w' :
  (∀ k, stored w' !! k = drain_if_eligible now feed_key k <$> stored w !! k) →
  ∀ cursor, run_query_from (latest_unpublished feed_key) cursor w' = [].
Proof.
  intros Hst cursor. apply run_query_from_nil. intros [k e'] Hl.
  simpl in Hl. rewrite Hst in Hl. apply fmap_Some in Hl as (e & _ & ->).
  unfold drain_if_eligible.
  destruct (matches (latest_unpublished feed_key) (k, e)) eqn:Hm; [|done].
  unfold matches. simpl. rewrite published_auto_now_add. simpl.
  by rewrite andb_false_r.
Qed.

Lemma drain_queue_spec' now feed_key w :
  ∃ w', drain_queue K now feed_key w = (w', Return ())
        ∧ same_frame w w'
        ∧ ∀ k, stored w' !! k
               = drain_if_eligible now feed_key k <$> stored w !! k.
Proof.
  destruct (drain_queue_spec K now feed_key w) as (w' & Hrun & Hfr & Hst).
  exists w'. split_and!; [done..|]. intros k. rewrite Hst.
  unfold drain_if_eligible.
  destruct (stored w !! k) as [e|]; [|done]. simpl.
  by destruct (matches (latest_unpublished feed_key) (k, e)).
Qed.

Lemma filter_all {A} (P : A → Prop) `{!∀ x, Decision (P x)} (l : list A) :
  (∀ x, x ∈ l → P x) → filter P l = l.
Proof.
  induction l as [|a l IH]; intros Hl; [done|].
  rewrite filter_cons_True by (apply Hl; left).
  rewrite IH; [done|]. intros x Hx. apply Hl. by right.
Qed.

Lemma filter_none {A} (P : A → Prop) `{!∀ x, Decision (P x)} (l : list A) :
  (∀ x, x ∈ l → ¬ P x) → filter P l = [].
Proof.
  induction l as [|a l IH]; intros Hl; [done|].
  rewrite filter_cons_False by (apply Hl; left).
  apply IH. intros x Hx. apply Hl. by right.
Qed.

End Lifecycle.




(** * Ingestion is an idempotent upsert *)

(** C5: [process_parsed_feed] returns the guids of the parsed feed that
    the datastore did not have, each once, as new, and those it had as
    old; it creates one entry under each new guid and touches no other.
    A second run on the same content, at any time and with any flags,
    reports every guid as old, none as new, and leaves the world as it
    is. Under a key there is never more than one entry. *)
Theorem process_parsed_feed_idempotent
    (Item : Type) (guid_for_item : Item → string)
    (prepare_entry_from_item :
       ParsedFeed Item → Item → FeedKey → Feed → bool → Z → bool → option Kwargs)
    (now now' : Z) (parsed_feed : ParsedFeed Item) (feed_key : FeedKey)
    (feed feed' : Feed) (overflow overflow' : bool)
    (overflow_reason overflow_reason' : Z) (w : World) :
  let guids := guid_for_item <$> pf_entries Item parsed_feed in
  ∃ w1 new_guids old_guids old_guids',
    process_parsed_feed Item guid_for_item prepare_entry_from_item now
      parsed_feed feed_key feed overflow overflow_reason w
    = (w1, Return (new_guids, old_guids))
    ∧ (∀ g, g ∈ new_guids ↔ g ∈ guids ∧ stored w !! (feed_key, g) = None)
    ∧ (∀ g, g ∈ old_guids ↔ g ∈ guids ∧ is_Some (stored w !! (feed_key, g)))
    ∧ NoDup (new_guids ++ old_guids)
    ∧ (∀ k, is_Some (stored w1 !! k) ↔
            is_Some (stored w !! k)
            ∨ (key_parent k = feed_key ∧ key_id k ∈ new_guids))
    ∧ (∀ k, is_Some (stored w !! k) → stored w1 !! k = stored w !! k)
    ∧ (∀ k, (length (filter (λ r : Row, r.1 = k) (map_to_list (stored w1)))
             ≤ 1)%nat)
    ∧ process_parsed_feed Item guid_for_item prepare_entry_from_item now'
        parsed_feed feed_key feed' overflow' overflow_reason' w1
      = (w1, Return ([], old_guids'))
    ∧ NoDup old_guids'
    ∧ (∀ g, g ∈ old_guids' ↔ g ∈ guids).
Proof.
  intros guids.
  destruct (process_parsed_feed_spec Item guid_for_item prepare_entry_from_item
              now parsed_feed feed_key feed overflow overflow_reason w)
    as (w1 & Hrun1 & Hfr1 & Hst1).
  destruct (process_parsed_feed_spec Item guid_for_item prepare_entry_from_item
              now' parsed_feed feed_key feed' overflow' overflow_reason' w1)
    as (w2 & Hrun2 & Hfr2 & Hst2).
  set (new1 := unknown_guids Item guid_for_item parsed_feed feed_key w) in *.
  set (old1 := known_guids Item guid_for_item parsed_feed feed_key w) in *.
  assert (∀ g, g ∈ guids → is_Some (stored w1 !! (feed_key, g))) as Hall.
  { intros g Hg. rewrite Hst1. case_decide as Hd; [done|].
    destruct (stored w !! (feed_key, g)) eqn:E; [done|].
    destruct Hd. split; [done|]. by apply elem_of_unknown_guids. }
  assert (unknown_guids Item guid_for_item parsed_feed feed_key w1 = []) as Hnew2.
  { apply filter_none. intros g Hg%elem_of_incoming_guids Hnone.
    destruct (Hall g Hg) as [e He]. congruence. }
  assert (w2 = w1) as ->.
  { destruct Hfr2 as (Hu & Hf & Hp).
    assert (stored w2 = stored w1) as Hs.
    { apply map_eq. intros k. rewrite Hst2, Hnew2.
      rewrite decide_False; [done|]. intros [_ []%elem_of_nil]. }
    destruct w1, w2; simpl in *; by subst. }
  exists w1, new1, old1,
    (known_guids Item guid_for_item parsed_feed feed_key w1).
  split_and!.
  - done.
  - intros g. apply elem_of_unknown_guids.
  - intros g. apply elem_of_known_guids.
  - apply NoDup_app. split_and!.
    + apply unknown_guids_NoDup.
    + intros g [_ Hn]%elem_of_unknown_guids [_ [e He]]%elem_of_known_guids.
      congruence.
    + apply NoDup_filter, incoming_guids_NoDup.
  - intros k. rewrite Hst1. case_decide as Hd.
    + split; [by right|done].
    + split; [by left|]. by intros [?|?].
  - intros k [e He]. rewrite Hst1. case_decide as Hd; [|done].
    destruct Hd as [Hp [_ Hn]%elem_of_unknown_guids].
    destruct k as [p i]. unfold key_parent, key_id in *. simpl in *. subst p.
    congruence.
  - intros k.
    destruct (filter (λ r : Row, r.1 = k) (map_to_list (stored w1)))
      as [|r1 [|r2 l]] eqn:E; simpl; [lia..|]. exfalso.
    assert (NoDup (filter (λ r : Row, r.1 = k) (map_to_list (stored w1))))
      as Hnd by apply NoDup_filter, NoDup_map_to_list.
    assert (r1 ∈ filter (λ r : Row, r.1 = k) (map_to_list (stored w1))) as H1
      by (rewrite E; left).
    assert (r2 ∈ filter (λ r : Row, r.1 = k) (map_to_list (stored w1))) as H2
      by (rewrite E; right; left).
    rewrite E in Hnd. apply NoDup_cons in Hnd as [Hnd _]. apply Hnd.
    apply list_elem_of_filter in H1 as [H1 H1'], H2 as [H2 H2'].
    destruct r1 as [k1 e1], r2 as [k2 e2]. simpl in *. subst k1 k2.
    apply elem_of_map_to_list in H1', H2'.
    assert (e1 = e2) as -> by congruence. left.
  - by rewrite Hrun2, Hnew2.
  - apply NoDup_filter, incoming_guids_NoDup.
  - intros g. rewrite elem_of_known_guids. split; [tauto|]. intros Hg.
    split; [done|]. by apply Hall.
Qed.

Lemma process_parsed_feed_idempotent_witness :
  ∃ w1 new_guids old_guids',
    Sample.ingest_six Sample.no_entries = (w1, Return (new_guids, []))
    ∧ length new_guids = 6%nat
    ∧ size (stored w1) = 6%nat
    ∧ Sample.ingest_six w1 = (w1, Return ([], old_guids'))
    ∧ length old_guids' = 6%nat.
Proof.
  destruct (process_parsed_feed_idempotent string id Sample.prepare_all 100 100
              Sample.six_items Sample.feed_key Sample.feed Sample.feed false
              false 1 1 Sample.no_entries)
    as (w1 & new_guids & old_guids & old_guids' & Hrun1 & _ & _ & _ & _ & _ & _
        & Hrun2 & _).
  fold (Sample.ingest_six Sample.no_entries) in Hrun1.
  fold (Sample.ingest_six w1) in Hrun2.
  exists (Sample.ingest_six Sample.no_entries).1, new_guids, old_guids'.
  assert (w1 = (Sample.ingest_six Sample.no_entries).1) as Hw1
    by (by rewrite Hrun1).
  assert (Return (new_guids, old_guids) = (Sample.ingest_six Sample.no_entries).2)
    as Hres by (by rewrite Hrun1).
  vm_compute in Hres. injection Hres as -> ->.
  rewrite <- Hw1. split_and!.
  - exact Hrun1.
  - reflexivity.
  - rewrite Hw1. vm_compute. reflexivity.
  - exact Hrun2.
  - assert (Return ([], old_guids') = (Sample.ingest_six w1).2) as Hres
      by (by rewrite Hrun2).
    rewrite Hw1 in Hres. vm_compute in Hres. by injection Hres as ->.
Defined.

Lemma feed_push_update_rejects_sha1_signature_witness :
  let push signature :=
    feed_push_update Sample.constants string id (Sample.always 200)
      Sample.prepare_all Sample.toy_hmac (λ _, Sample.six_items) 100
      Sample.feed_key
      {| headers_X_Hub_Signature := Some signature; stream := "<rss/>" |}
      Sample.feed_with_secret in
  push (Sample.toy_hmac hashlib_sha1 "s3cret" "<rss/>")
  = (Sample.feed_with_secret, Return (Body "" 200))
  ∧ size (stored (push (Sample.toy_hmac hashlib_md5 "s3cret" "<rss/>")).1)
    = 6%nat.
Proof.
  intros push. split.
  - apply (feed_push_update_rejects_sha1_signature Sample.constants string id
             (Sample.always 200) Sample.prepare_all Sample.toy_hmac
             (λ _, Sample.six_items) 100 Sample.feed_key
             {| feed_url := "http://example.com/rss"; manual_control := true;
                schedule_period := 60; max_stories_per_period := 1;
                status := 1; etag := None; language := None;
                hub_secret := Some "s3cret"%string |}
             "s3cret"%string "<rss/>"%string Sample.feed_with_secret).
    + vm_compute. reflexivity.
    + reflexivity.
    + discriminate.
    + discriminate.
  - vm_compute. reflexivity.
Defined.

Lemma reauthorize_activates_every_feed_witness :
  ∃ w',
    reauthorize Sample.constants Sample.user_key Sample.several_feeds
      = (w', Return ())
    ∧ status <$> feeds Sample.several_feeds !! (Some Sample.user_key, 1) = Some 1
    ∧ status <$> feeds Sample.several_feeds !! (Some Sample.user_key, 2) = Some 2
    ∧ status <$> feeds Sample.several_feeds !! (Some Sample.user_key, 3) = Some 10
    ∧ status <$> feeds w' !! (Some Sample.user_key, 1) = Some 1
    ∧ status <$> feeds w' !! (Some Sample.user_key, 2) = Some 1
    ∧ status <$> feeds w' !! (Some Sample.user_key, 3) = Some 1
    ∧ status <$> feeds w' !! (Some "adn_user_id=2"%string, 4) = Some 2.
Proof.
  destruct (reauthorize_activates_every_feed Sample.constants Sample.user_key
              Sample.several_feeds) as (w' & Hrun & Hf & _).
  - reflexivity.
  - exists w'. split; [exact Hrun|].
    split_and!; rewrite ?Hf; vm_compute; reflexivity.
Defined.

(** * Published entries stay out of the queue *)

Section Settled.

Variable K : Constants.
Variable Item : Type.
Variable guid_for_item : Item → string.
Variable urlfetch_post : string → Feed → EntryKey → Entry → option Z.
Variable prepare_entry_from_item :
  ParsedFeed Item → Item → FeedKey → Feed → bool → Z → bool → option Kwargs.
Variable fetch_parsed_feed_for_feed :
  FeedKey → Feed → option (ParsedFeed Item * FetchResponse).
Variable get_language : string → option string.
Variable hmac_hexdigest : DigestMod → string → string → string.
Variable feedparser_parse : string → ParsedFeed Item.

Local Abbreviation publish_entry := (publish_entry K urlfetch_post).
Local Abbreviation publish_each := (publish_each K urlfetch_post).
Local Abbreviation publish_for_feed := (publish_for_feed K urlfetch_post).
Local Abbreviation process_parsed_feed :=
  (process_parsed_feed Item guid_for_item prepare_entry_from_item).
Local Abbreviation update_for_feed :=
  (update_for_feed K Item guid_for_item urlfetch_post prepare_entry_from_item
     fetch_parsed_feed_for_feed get_language).
Local Abbreviation feed_push_update :=
  (feed_push_update K Item guid_for_item urlfetch_post
     prepare_entry_from_item hmac_hexdigest feedparser_parse).
Local Abbreviation run_operation :=
  (run_operation K Item guid_for_item urlfetch_post prepare_entry_from_item
     fetch_parsed_feed_for_feed get_language hmac_hexdigest feedparser_parse).
Local Abbreviation manual_publish_of := (manual_publish_of Item).
Local Abbreviation run_operations :=
  (run_operations K Item guid_for_item urlfetch_post prepare_entry_from_item
     fetch_parsed_feed_for_feed get_language hmac_hexdigest feedparser_parse).

Lemma silent_on_same k w w' : posted w' = posted w → silent_on k w w'.
Proof.
  intros H. exists []. split; [by rewrite app_nil_r|]. apply not_elem_of_nil.
Qed.

Lemma silent_on_trans k w1 w2 w3 :
  silent_on k w1 w2 → silent_on k w2 w3 → silent_on k w1 w3.
Proof.
  intros (l1 & H1 & N1) (l2 & H2 & N2). exists (l1 ++ l2). split.
  - by rewrite H2, H1, app_assoc.
  - rewrite elem_of_app. tauto.
Qed.

Lemma settled_same k w w' :
  stored w' !! k = stored w !! k → settled k w → settled k w'.
Proof. unfold settled. by intros ->. Qed.

Lemma settled_gone k w : stored w !! k = None → settled k w.
Proof. unfold settled. by intros ->. Qed.

Lemma settled_not_eligible k w feed_key cursor :
  settled k w →
  k ∉ (run_query_from (latest_unpublished feed_key) cursor w).*1.
Proof.
  intros Hs ([k' e] & -> & Hin)%list_elem_of_fmap.
  apply elem_of_run_query_from in Hin as (Hl & [_ Hf]%matches_spec & _).
  simpl in *. unfold settled in Hs. rewrite Hl in Hs. rewrite Hs in Hf. done.
Qed.

Lemma publish_entry_self_world now key self w w' out :
  publish_entry_self K urlfetch_post now key self w = (w', out) →
  ∃ out', publish_entry now key self w = (w', out').
Proof.
  intros H. unfold publish_entry. unfold_M. rewrite H.
  destruct out; by eexists.
Qed.

(** [publish_entry] leaves the other entries as they are, or deletes
    them with their orphaned feed. *)
Lemma publish_entry_other_keys now key self w w' out k :
  k ≠ key →
  publish_entry now key self w = (w', out) →
  stored w' !! k = stored w !! k ∨ stored w' !! k = None.
Proof.
  intros Hk Hrun.
  destruct (owned_or_not (key_parent key) w) as [(feed & user & Ho)|Hno].
  - left.
    destruct (publish_entry_owned K urlfetch_post _ _ _ _ _ _ _ _ Ho Hrun)
      as (_ & _ & _ & Hother & _).
    by apply Hother.
  - revert Hrun.
    unfold publish_entry, publish_entry_self. unfold_M.
    destruct (feeds w !! key_parent key) as [feed|] eqn:Hf.
    + destruct (key_parent (key_parent key)) as [uk|] eqn:Hp.
      * destruct (users w !! uk) as [user|] eqn:Hu.
        -- destruct Hno. exists feed, user. split; [done|]. by exists uk.
        -- intros [= <- <-]. by left.
      * destruct (delete_for_feed_spec (key_parent key) w)
          as (w1 & -> & _ & Hst).
        unfold delete_feed_key. unfold_M. intros [= <- <-]. simpl.
        rewrite Hst. destruct (stored w !! k) as [e|]; [|by left].
        destruct (matches (latest_for_feed (key_parent key)) (k, e));
          [by right|by left].
    + intros [= <- <-]. by left.
Qed.

(** The entry posted is left as it was, deleted with its orphaned
    feed, or stored published. *)
Lemma publish_entry_this_key now key self w w' out :
  publish_entry now key self w = (w', out) →
  stored w' !! key = stored w !! key ∨ stored w' !! key = None
  ∨ ∃ e, stored w' !! key = Some e ∧ published e = true.
Proof.
  intros Hrun.
  destruct (owned_or_not (key_parent key) w) as [(feed & user & Ho)|Hno].
  - destruct (publish_entry_owned K urlfetch_post _ _ _ _ _ _ _ _ Ho Hrun)
      as (_ & _ & _ & _ & [H|H]); [by left|by right; right].
  - revert Hrun.
    unfold publish_entry, publish_entry_self. unfold_M.
    destruct (feeds w !! key_parent key) as [feed|] eqn:Hf.
    + destruct (key_parent (key_parent key)) as [uk|] eqn:Hp.
      * destruct (users w !! uk) as [user|] eqn:Hu.
        -- destruct Hno. exists feed, user. split; [done|]. by exists uk.
        -- intros [= <- <-]. by left.
      * destruct (delete_for_feed_spec (key_parent key) w)
          as (w1 & -> & _ & Hst).
        unfold delete_feed_key. unfold_M. intros [= <- <-]. simpl.
        rewrite Hst. destruct (stored w !! key) as [e|]; [|by left].
        destruct (matches (latest_for_feed (key_parent key)) (key, e));
          [by right; left|by left].
    + intros [= <- <-]. by left.
Qed.

(** [publish_entry] never clears the [published] flag of its object. *)
Lemma publish_entry_self_published now key self w w' e' :
  published self = true →
  publish_entry_self K urlfetch_post now key self w = (w', Return e') →
  published e' = true.
Proof.
  intros Hpub. unfold publish_entry_self. unfold_M.
  destruct (feeds w !! key_parent key) as [feed|]; [|done].
  destruct (key_parent (key_parent key)) as [uk|].
  - destruct (users w !! uk) as [user|]; [|by intros [= <- <-]].
    unfold log_post, put_feed, put_entry. unfold_M.
    destruct (urlfetch_post _ _ _ _) as [code|]; [|by intros [= <- <-]].
    destruct (code =? 401); [|destruct (code =? 200);
                               [|destruct (code =? 400); [|done]]];
      intros [= <- <-]; by rewrite published_auto_now_add.
  - destruct (delete_for_feed_spec (key_parent key) w) as (w1 & -> & _).
    unfold delete_feed_key. unfold_M. by intros [= <- <-].
Qed.

Lemma publish_each_settled now (l : list Row) n w w' out k :
  k ∉ l.*1 → settled k w →
  publish_each now l n w = (w', out) → settled k w'.
Proof.
  revert n w. induction l as [|r l IH]; intros n w Hk Hs; simpl.
  - unfold_M. by intros [= <- <-].
  - unfold_M. rewrite fmap_cons, not_elem_of_cons in Hk.
    destruct Hk as [Hne Hk].
    destruct (publish_entry now r.1 r.2 w) as [w1 [[]|e]] eqn:Hrun.
    + apply IH; [done|].
      destruct (publish_entry_other_keys _ _ _ _ _ _ _ Hne Hrun) as [H|H].
      * by apply (settled_same k w).
      * by apply settled_gone.
    + intros [= <- <-].
      destruct (publish_entry_other_keys _ _ _ _ _ _ _ Hne Hrun) as [H|H].
      * by apply (settled_same k w).
      * by apply settled_gone.
Qed.

Lemma publish_for_feed_settled now feed_key feed skip_queue w w' out k :
  settled k w →
  publish_for_feed now feed_key feed skip_queue w = (w', out) →
  settled k w' ∧ silent_on k w w'.
Proof.
  intros Hs Hrun. split.
  - revert Hrun. unfold publish_for_feed. unfold_M.
    destruct ((0 <? remaining_budget K now feed_key feed w) || skip_queue);
      [|by intros [= <- <-]].
    unfold fetch. unfold_M.
    destruct (_ <? 0); [by intros [= <- <-]|].
    apply publish_each_settled; [|done].
    intros Hin. apply (settled_not_eligible k w feed_key None Hs).
    rewrite <- (take_drop (Z.to_nat
      (if skip_queue then or_1 (remaining_budget K now feed_key feed w)
       else remaining_budget K now feed_key feed w))
      (run_query_from (latest_unpublished feed_key) None w)).
    rewrite fmap_app. apply elem_of_app. by left.
  - apply publish_for_feed_posts in Hrun as (l' & [rest Hpre] & Hp).
    exists l'.*1. split; [done|]. intros Hin.
    apply (settled_not_eligible k w feed_key None Hs).
    unfold run_query in Hpre. rewrite Hpre, fmap_app. apply elem_of_app.
    by left.
Qed.

Lemma drain_queue_settled now feed_key w w' out k :
  settled k w → drain_queue K now feed_key w = (w', out) →
  settled k w' ∧ silent_on k w w'.
Proof.
  intros Hs Hrun.
  destruct (drain_queue_spec K now feed_key w)
    as (w1 & Hrun1 & (_ & _ & Hp) & Hst).
  rewrite Hrun1 in Hrun. injection Hrun as <- <-.
  split; [|by apply silent_on_same].
  unfold settled in *. rewrite Hst.
  destruct (stored w !! k) as [e|]; [|done].
  destruct (matches (latest_unpublished feed_key) (k, e)); [|done].
  by rewrite published_auto_now_add.
Qed.

Lemma delete_for_feed_settled feed_key w w' out k :
  settled k w → delete_for_feed feed_key w = (w', out) →
  settled k w' ∧ silent_on k w w'.
Proof.
  intros Hs Hrun.
  destruct (delete_for_feed_spec feed_key w)
    as (w1 & Hrun1 & (_ & _ & Hp) & Hst).
  rewrite Hrun1 in Hrun. injection Hrun as <- <-.
  split; [|by apply silent_on_same].
  unfold settled in *. rewrite Hst.
  destruct (stored w !! k) as [e|]; [|done].
  by destruct (matches (latest_for_feed feed_key) (k, e)).
Qed.

(** Ingestion writes under keys that were not stored. *)
Lemma process_parsed_feed_keeps now parsed_feed feed_key feed overflow
    overflow_reason w w' out k :
  is_Some (stored w !! k) →
  process_parsed_feed now parsed_feed feed_key feed overflow
    overflow_reason w = (w', out) →
  stored w' !! k = stored w !! k ∧ posted w' = posted w.
Proof.
  intros [e He] Hrun.
  destruct (process_parsed_feed_spec Item guid_for_item
              prepare_entry_from_item now parsed_feed feed_key feed overflow
              overflow_reason w) as (w1 & Hrun1 & (_ & _ & Hp) & Hst).
  rewrite Hrun1 in Hrun. injection Hrun as <- <-. split; [|done].
  rewrite Hst. case_decide as Hd; [|done].
  destruct Hd as [Hpar [_ Hn]%elem_of_unknown_guids].
  destruct k as [p i]. unfold key_parent, key_id in *. simpl in *. subst p.
  congruence.
Qed.

Lemma settled_published k w e :
  settled k w → stored w !! k = Some e → published e = true.
Proof. unfold settled. intros H He. by rewrite He in H. Qed.

Lemma settled_of_published k w e :
  stored w !! k = Some e → published e = true → settled k w.
Proof. unfold settled. by intros -> ->. Qed.

Lemma ingest_publish_drain_settled now parsed_feed feed_key feed publish
    skip_queue overflow overflow_reason w w' out k :
  is_Some (stored w !! k) → settled k w →
  ingest_publish_drain K Item guid_for_item urlfetch_post
    prepare_entry_from_item now parsed_feed feed_key feed publish skip_queue
    overflow overflow_reason w = (w', out) →
  settled k w' ∧ silent_on k w w'.
Proof.
  intros Hsome Hs. unfold ingest_publish_drain. unfold_M.
  destruct (process_parsed_feed now parsed_feed feed_key feed overflow
              overflow_reason w) as [w1 [[new_guids old_guids]|e1]] eqn:E1.
  2:{ intros [= <- <-].
      destruct (process_parsed_feed_keeps _ _ _ _ _ _ _ _ _ _ Hsome E1)
        as [Hk Hp].
      split; [by apply (settled_same k w)|by apply silent_on_same]. }
  destruct (process_parsed_feed_keeps _ _ _ _ _ _ _ _ _ _ Hsome E1)
    as [Hk1 Hp1].
  assert (settled k w1) as Hs1 by (by apply (settled_same k w)).
  assert (silent_on k w w1) as Hq1 by (by apply silent_on_same).
  assert (∀ w2 (o : Outcome ()),
            (if publish
             then λ w, let (w', o) := publish_for_feed now feed_key feed
                                        skip_queue w in
                       match o with
                       | Return _ => (w', Return ())
                       | Raise e => (w', Raise e)
                       end
             else λ w, (w, Return ())) w1 = (w2, o) →
            settled k w2 ∧ silent_on k w1 w2) as Hpub.
  { intros w2 o. destruct publish.
    - destruct (publish_for_feed now feed_key feed skip_queue w1)
        as [w2' [c|e]] eqn:E2; intros [= <- <-];
        by apply (publish_for_feed_settled _ _ _ _ _ _ _ _ Hs1 E2).
    - intros [= <- <-]. split; [done|by apply silent_on_same]. }
  match goal with
  | |- context [let (_, _) := ?m in _] =>
      destruct m as [w2 [[]|e2]] eqn:E2
  end.
  2:{ intros [= <- <-]. destruct (Hpub _ _ E2) as [Hs2 Hq2].
      split; [done|]. by eapply silent_on_trans. }
  destruct (Hpub _ _ E2) as [Hs2 Hq2].
  destruct (bool_decide (5 ≤ length (new_guids ++ old_guids))%nat
            && bool_decide (length new_guids = length (new_guids ++ old_guids))).
  - destruct (drain_queue K now feed_key w2) as [w3 [[]|e3]] eqn:E3;
      intros [= <- <-];
      destruct (drain_queue_settled _ _ _ _ _ _ Hs2 E3) as [Hs3 Hq3];
      (split; [done|]);
      apply (silent_on_trans k w w2 w3); [|done| |done];
      by apply (silent_on_trans k w w1 w2).
  - intros [= <- <-]. split; [done|]. by eapply silent_on_trans.
Qed.

Lemma update_for_feed_settled now feed_key feed publish skip_queue overflow
    overflow_reason w w' out k :
  is_Some (stored w !! k) → settled k w →
  update_for_feed now feed_key feed publish skip_queue overflow
    overflow_reason w = (w', out) →
  settled k w' ∧ silent_on k w w'.
Proof.
  intros Hsome Hs Hrun.
  destruct (fetch_parsed_feed_for_feed feed_key feed)
    as [[parsed_feed resp]|] eqn:Hfetch.
  2:{ revert Hrun. unfold update_for_feed.
      rewrite Hfetch. unfold_M. intros [= <- <-].
      split; [done|by apply silent_on_same]. }
  destruct (decide (status_code resp = 304)) as [H304|H304].
  - revert Hrun. unfold update_for_feed.
    rewrite Hfetch. rewrite bool_decide_eq_false_2 by (by intros ?).
    unfold_M. destruct publish.
    + destruct (publish_for_feed now feed_key feed skip_queue w)
        as [w2 [c|e]] eqn:E2; intros [= <- <-];
        by apply (publish_for_feed_settled _ _ _ _ _ _ _ _ Hs E2).
    + intros [= <- <-]. split; [done|by apply silent_on_same].
  - rewrite (update_for_feed_fetched K Item guid_for_item urlfetch_post
               prepare_entry_from_item fetch_parsed_feed_for_feed
               get_language now feed_key feed publish skip_queue overflow
               overflow_reason w parsed_feed resp Hfetch H304) in Hrun.
    set (w0 := refreshed_world Item get_language parsed_feed resp feed_key
                 feed w) in *.
    assert (stored w0 = stored w) as Hw0 by apply refreshed_world_stored.
    assert (posted w0 = posted w) as Hp0.
    { unfold w0, refreshed_world. by destruct (modified_feed _ _ _ _ _). }
    apply ingest_publish_drain_settled with (k := k) in Hrun.
    + destruct Hrun as [Hs' (l & Hp & Hl)]. split; [done|].
      exists l. split; [by rewrite Hp, Hp0|done].
    + by rewrite Hw0.
    + unfold settled. by rewrite Hw0.
Qed.

Lemma feed_push_update_settled now feed_key request w w' out k :
  is_Some (stored w !! k) → settled k w →
  feed_push_update now feed_key request w = (w', out) →
  settled k w' ∧ silent_on k w w'.
Proof.
  intros Hsome Hs. unfold feed_push_update. unfold_M.
  destruct (feeds w !! feed_key) as [feed|];
    [|intros [= <- <-]; split; [done|by apply silent_on_same]].
  destruct (if truthy_str (hub_secret feed) then _ else false);
    [intros [= <- <-]; split; [done|by apply silent_on_same]|].
  destruct (process_parsed_feed now (feedparser_parse (stream request))
              feed_key feed false (OVERFLOW_REASON_BACKLOG K) w)
    as [w1 [r1|e1]] eqn:E1;
    destruct (process_parsed_feed_keeps _ _ _ _ _ _ _ _ _ _ Hsome E1)
      as [Hk1 Hp1].
  2:{ intros [= <- <-].
      split; [by apply (settled_same k w)|by apply silent_on_same]. }
  assert (settled k w1) as Hs1 by (by apply (settled_same k w)).
  destruct (publish_for_feed now feed_key feed false w1)
    as [w2 [c|e]] eqn:E2; intros [= <- <-];
    destruct (publish_for_feed_settled _ _ _ _ _ _ _ _ Hs1 E2) as [Hs2 Hq2];
    (split; [done|]); apply (silent_on_trans k w w1 w2); try done;
    by apply silent_on_same.
Qed.

Lemma publish_entry_silent now key self w w' out k :
  key ≠ k →
  publish_entry now key self w = (w', out) → silent_on k w w'.
Proof.
  intros Hk Hrun.
  destruct (owned_or_not (key_parent key) w) as [(feed & user & Ho)|Hno].
  - destruct (publish_entry_owned K urlfetch_post _ _ _ _ _ _ _ _ Ho Hrun)
      as (Hp & _).
    exists [key]. split; [done|].
    rewrite not_elem_of_cons. split; [done|apply not_elem_of_nil].
  - destruct (publish_entry_unowned K urlfetch_post _ _ _ _ _ _ Hno Hrun)
      as (Hp & _).
    by apply silent_on_same.
Qed.

(** The manual publication leaves a published entry published, and
    it posts no other entry. *)
Lemma feed_entry_publish_settled now g_user feed_id key w w' out k :
  settled k w →
  feed_entry_publish K urlfetch_post now g_user feed_id key w = (w', out) →
  settled k w' ∧ (key ≠ k → silent_on k w w').
Proof.
  intros Hs. unfold feed_entry_publish. unfold_M.
  destruct (feeds w !! (Some g_user, feed_id)) as [feed|];
    [|intros [= <- <-]; split; [done|by intros _; apply silent_on_same]].
  case_bool_decide;
    [|intros [= <- <-]; split; [done|by intros _; apply silent_on_same]].
  destruct (stored w !! key) as [entry|] eqn:Hentry;
    [|intros [= <- <-]; split; [done|by intros _; apply silent_on_same]].
  destruct (publish_entry_self K urlfetch_post now key entry w)
    as [w1 [e1|x]] eqn:E1;
    destruct (publish_entry_self_world _ _ _ _ _ _ E1) as [out' E1'].
  - unfold put_entry. unfold_M. intros [= <- <-]. simpl. split.
    + unfold settled. simpl. destruct (decide (k = key)) as [->|Hne].
      * rewrite lookup_insert_eq, published_auto_now_add. simpl.
        apply (publish_entry_self_published _ _ _ _ _ _) with (2 := E1).
        unfold settled in Hs. by rewrite Hentry in Hs.
      * rewrite lookup_insert_ne by done.
        destruct (publish_entry_other_keys _ _ _ _ _ _ _ Hne E1') as [H'|H'];
          rewrite H'; [apply Hs|done].
    + intros Hne.
      destruct (publish_entry_silent _ _ _ _ _ _ _ Hne E1') as (l & Hp & Hl).
      by exists l.
  - intros [= <- <-]. split.
    + destruct (decide (k = key)) as [->|Hne].
      * destruct (publish_entry_this_key _ _ _ _ _ _ E1')
          as [H'|[H'|(e & H' & Hpub)]].
        -- by apply (settled_same key w).
        -- by apply settled_gone.
        -- by apply (settled_of_published key w1 e).
      * destruct (publish_entry_other_keys _ _ _ _ _ _ _ Hne E1') as [H'|H'].
        -- by apply (settled_same k w).
        -- by apply settled_gone.
    + intros Hne. by apply (publish_entry_silent _ _ _ _ _ _ _ Hne E1').
Qed.

Lemma for_each_keeps {A} (l : list A) (body : A → M unit) :
  (∀ x w w' out, body x w = (w', out) →
                 stored w' = stored w ∧ posted w' = posted w) →
  ∀ w w' out, for_each l body w = (w', out) →
              stored w' = stored w ∧ posted w' = posted w.
Proof.
  intros Hbody. induction l as [|x l IH]; intros w w' out; simpl; unfold_M.
  - by intros [= <- <-].
  - destruct (body x w) as [w1 [[]|e]] eqn:E.
    + intros [H1 H2]%IH. destruct (Hbody _ _ _ _ E) as [H3 H4].
      split; congruence.
    + intros [= <- <-]. by apply (Hbody _ _ _ _ E).
Qed.

(** Every operation leaves a stored, published entry published or
    deleted; none but its manual publication posts it. *)
Lemma run_operation_settled op w k :
  is_Some (stored w !! k) → settled k w →
  settled k (run_operation op w)
  ∧ (¬ manual_publish_of k op → silent_on k w (run_operation op w)).
Proof.
  intros Hsome Hs.
  cut (settled k (run_operation op w)
       ∧ (manual_publish_of k op ∨ silent_on k w (run_operation op w))).
  { intros [H1 [H2|H2]]; split; done. }
  destruct op; simpl;
    [assert (∀ P Q R : Prop, P ∧ Q → P ∧ (R ∨ Q)) as Hweak by tauto;
     apply Hweak..|].
  - destruct (publish_for_feed _ _ _ _ w) as [w' out] eqn:E.
    by apply (publish_for_feed_settled _ _ _ _ _ _ _ _ Hs E).
  - destruct (drain_queue K _ _ w) as [w' out] eqn:E.
    by apply (drain_queue_settled _ _ _ _ _ _ Hs E).
  - destruct (process_parsed_feed _ _ _ _ _ _ w) as [w' out] eqn:E.
    destruct (process_parsed_feed_keeps _ _ _ _ _ _ _ _ _ _ Hsome E)
      as [Hk1 Hp1]. simpl.
    split; [by apply (settled_same k w)|by apply silent_on_same].
  - destruct (update_for_feed _ _ _ _ _ _ _ w) as [w' out] eqn:E.
    by apply (update_for_feed_settled _ _ _ _ _ _ _ _ _ _ _ Hsome Hs E).
  - destruct (delete_for_feed _ w) as [w' out] eqn:E.
    by apply (delete_for_feed_settled _ _ _ _ _ Hs E).
  - destruct (reauthorize K user_key w) as [w' out] eqn:E. simpl.
    unfold reauthorize in E. unfold_M.
    assert (stored w' = stored w ∧ posted w' = posted w) as [Hst Hp].
    { revert E. apply for_each_keeps. intros [fk f] w0 w0' o.
      destruct (truthy (FEED_STATE_NEEDS_REAUTH K)).
      - unfold put_feed. unfold_M. by intros [= <- <-].
      - unfold_M. by intros [= <- <-]. }
    split; [|by apply silent_on_same].
    unfold settled. by rewrite Hst.
  - destruct (delete_feed g_user feed_id w) as [w' out] eqn:E. simpl.
    revert E. unfold delete_feed. unfold_M.
    destruct (feeds w !! (Some g_user, feed_id));
      [|intros [= <- <-]; split; [done|by apply silent_on_same]].
    destruct (delete_for_feed (Some g_user, feed_id) w)
      as [w1 [[]|e]] eqn:E1;
      destruct (delete_for_feed_settled _ _ _ _ _ Hs E1) as [Hs1 Hq1];
      unfold delete_feed_key; unfold_M; intros [= <- <-]; done.
  - destruct (feed_push_update _ _ _ w) as [w' out] eqn:E.
    by apply (feed_push_update_settled _ _ _ _ _ _ _ Hsome Hs E).
  - destruct (feed_entry_publish K urlfetch_post now g_user feed_id key w)
      as [w' out] eqn:E.
    destruct (feed_entry_publish_settled _ _ _ _ _ _ _ _ Hs E) as [H1 H2].
    split; [done|]. destruct (decide (key = k)); [by left|right; auto].
Qed.

Lemma run_operations_cons op ops w :
  run_operations (op :: ops) w = run_operations ops (run_operation op w).
Proof. done. Qed.

(** As long as it is stored, an entry once published stays published
    through every sequence of operations, and nothing is posted for
    it unless it is published manually. *)
Lemma run_operations_settled ops : ∀ w k e,
  stored w !! k = Some e → published e = true →
  (∀ n, is_Some (stored (run_operations (take n ops) w) !! k)) →
  settled k (run_operations ops w)
  ∧ (Forall (λ op, ¬ manual_publish_of k op) ops →
     silent_on k w (run_operations ops w)).
Proof.
  induction ops as [|op ops IH]; intros w k e He Hpub Hkept.
  - split; [by eapply settled_of_published|by intros _; apply silent_on_same].
  - rewrite run_operations_cons.
    destruct (run_operation_settled op w k) as [Hs1 Hq1];
      [done|by eapply settled_of_published|].
    pose proof (Hkept 1%nat) as [e1 He1]. simpl in He1.
    unfold run_operations in He1. simpl in He1.
    assert (published e1 = true) as Hpub1.
    { unfold settled in Hs1. by rewrite He1 in Hs1. }
    destruct (IH _ k e1 He1 Hpub1) as [Hs2 Hq2].
    + intros n. apply (Hkept (S n)).
    + split; [done|]. intros [Hop Hops]%Forall_cons.
      eapply silent_on_trans; eauto.
Qed.

End Settled.

(** * A malformed entry is terminal *)



(** * The drain of the queue *)

Lemma World_eq (w w' : World) :
  users w' = users w → feeds w' = feeds w → stored w' = stored w →
  posted w' = posted w → w' = w.
Proof. destruct w, w'; simpl; by intros -> -> -> ->. Qed.

Lemma latest_unpublished_matches feed_key k e :
  matches (latest_unpublished feed_key) (k, e) = true
  ↔ key_parent k = feed_key ∧ published e = false ∧ creating e = false.
Proof.
  rewrite matches_spec. simpl.
  rewrite andb_true_iff, !bool_decide_eq_true. tauto.
Qed.

Lemma latest_unpublished_matches_false feed_key k e :
  matches (latest_unpublished feed_key) (k, e) = false
  ↔ ¬ (key_parent k = feed_key ∧ published e = false ∧ creating e = false).
Proof.
  rewrite <- latest_unpublished_matches. by destruct (matches _ _).
Qed.

(** X1: [drain_queue] returns; it stores every unpublished, enriched
    entry of the feed as published and overflowed with the reason
    FEED_OVERFLOW and changes nothing else of it but an unset [added];
    [published_at] stays as it was. Every other entry, the feeds, the
    users and the posts sent are left alone. Afterwards the queue of the
    feed is empty, and a second drain changes nothing. *)
Theorem drain_queue_overflows_the_queue
    (K : Constants) (now now' : Z) (feed_key : FeedKey) (w : World) :
  ∃ w',
    drain_queue K now feed_key w = (w', Return ())
    ∧ users w' = users w ∧ feeds w' = feeds w ∧ posted w' = posted w
    ∧ (∀ k e, stored w !! k = Some e →
         if decide (key_parent k = feed_key ∧ published e = false
                    ∧ creating e = false)
         then ∃ e', stored w' !! k = Some e'
                    ∧ published e' = true ∧ overflow e' = true
                    ∧ overflow_reason e' = OVERFLOW_REASON_FEED_OVERFLOW K
                    ∧ published_at e' = published_at e
                    ∧ creating e' = false ∧ guid e' = guid e
                    ∧ title e' = title e ∧ link e' = link e
                    ∧ added e' = Some (default now (added e))
         else stored w' !! k = Some e)
    ∧ (∀ k, stored w !! k = None → stored w' !! k = None)
    ∧ (∀ cursor, run_query_from (latest_unpublished feed_key) cursor w' = [])
    ∧ drain_queue K now' feed_key w' = (w', Return ()).
Proof.
  destruct (drain_queue_spec K now feed_key w) as (w' & Hrun & (Hu & Hf & Hp) & Hst).
  exists w'. split_and!; try done.
  - intros k e He. specialize (Hst k). rewrite He in Hst.
    case_decide as Hd.
    + apply latest_unpublished_matches in Hd as Hm. rewrite Hm in Hst.
      eexists. split; [exact Hst|].
      destruct Hd as (_ & _ & Hc).
      unfold auto_now_add, drain_entry. simpl.
      destruct (added e) eqn:Ha; simpl; rewrite ?Ha; split_and!; done.
    + apply latest_unpublished_matches_false in Hd. by rewrite Hd in Hst.
  - intros k He. specialize (Hst k). by rewrite He in Hst.
  - intros cursor. apply run_query_from_nil. intros [k e'] He'. simpl in *.
    specialize (Hst k). rewrite He' in Hst.
    destruct (stored w !! k) as [e|]; [|done].
    destruct (matches (latest_unpublished feed_key) (k, e)) eqn:Hm.
    + injection Hst as ->. apply (drain_leaves_query K now feed_key k e).
      done.
    + by injection Hst as ->.
  - destruct (drain_queue_spec K now' feed_key w')
      as (w'' & Hrun' & (Hu' & Hf' & Hp') & Hst').
    rewrite Hrun'. f_equal. apply World_eq; try done.
    apply map_eq. intros k. rewrite Hst'.
    destruct (stored w' !! k) as [e'|] eqn:He'; [|done].
    destruct (matches (latest_unpublished feed_key) (k, e')) eqn:Hm; [|done].
    exfalso. specialize (Hst k). rewrite He' in Hst.
    destruct (stored w !! k) as [e|]; [|done].
    destruct (matches (latest_unpublished feed_key) (k, e)) eqn:Hm0.
    + injection Hst as ->.
      by rewrite (drain_leaves_query K now feed_key k e _ eq_refl) in Hm.
    + injection Hst as ->. congruence.
Qed.

Lemma published_at_auto_now_add now e :
  published_at (auto_now_add now e) = published_at e.
Proof. unfold auto_now_add. by destruct (added e). Qed.

Lemma overflow_auto_now_add now e :
  overflow (auto_now_add now e) = overflow e.
Proof. unfold auto_now_add. by destruct (added e). Qed.

Lemma overflow_reason_auto_now_add now e :
  overflow_reason (auto_now_add now e) = overflow_reason e.
Proof. unfold auto_now_add. by destruct (added e). Qed.

Lemma elem_of_run_query_keys q w k :
  k ∈ (run_query q w).*1
  ↔ ∃ e, stored w !! k = Some e ∧ matches q (k, e) = true.
Proof.
  rewrite list_elem_of_fmap. split.
  - intros ([k' e] & -> & Hin). apply elem_of_run_query in Hin. by exists e.
  - intros (e & He & Hm). exists (k, e). split; [done|].
    by apply elem_of_run_query.
Qed.

Lemma latest_matches K feed_key include_overflow overflow_cats order_by k e :
  matches (latest K feed_key include_overflow overflow_cats order_by) (k, e)
  = true
  ↔ key_parent k = feed_key ∧ published e = true ∧ creating e = false
    ∧ overflow e = include_overflow
    ∧ (include_overflow = true →
       overflow_reason e ∈ default [OVERFLOW_REASON_MALFORMED K;
                                    OVERFLOW_REASON_FEED_OVERFLOW K]
                            overflow_cats).
Proof.
  rewrite matches_spec. simpl.
  rewrite !andb_true_iff, !bool_decide_eq_true.
  destruct include_overflow.
  - rewrite bool_decide_eq_true. destruct overflow_cats; simpl; tauto.
  - intuition congruence.
Qed.

(** X2: an entry that [drain_queue] takes out of the queue is from then
    on in neither listing of the feed, the unpublished one
    ([latest_unpublished]) and the published one ([latest] without
    overflow, whatever the order); it is found only by [latest] with
    [include_overflow=True]. *)
Theorem drain_queue_hides_entries_from_listings
    (K : Constants) (now : Z) (feed_key : FeedKey) (w : World)
    (k : EntryKey) (e : Entry) (order_by : string) :
  stored w !! k = Some e → key_parent k = feed_key →
  published e = false → creating e = false →
  let w' := (drain_queue K now feed_key w).1 in
  (k ∈ (run_query (latest_unpublished feed_key) w).*1)
  ∧ (k ∉ (run_query (latest_unpublished feed_key) w').*1)
  ∧ (k ∉ (run_query (latest K feed_key false None order_by) w').*1)
  ∧ (k ∈ (run_query (latest K feed_key true None order_by) w').*1).
Proof.
  intros He Hk Hp Hc w'.
  destruct (drain_queue_spec K now feed_key w) as (w1 & Hrun & _ & Hst).
  assert (w' = w1) as -> by (unfold w'; by rewrite Hrun).
  assert (matches (latest_unpublished feed_key) (k, e) = true) as Hm
    by (by apply latest_unpublished_matches).
  assert (stored w1 !! k = Some (auto_now_add now (drain_entry K e))) as He'.
  { rewrite Hst, He. by rewrite Hm. }
  split_and!.
  - apply elem_of_run_query_keys. by exists e.
  - rewrite elem_of_run_query_keys. intros (e' & He'' & Hm').
    rewrite He' in He''. injection He'' as <-.
    by rewrite (drain_leaves_query K now feed_key k e _ eq_refl) in Hm'.
  - rewrite elem_of_run_query_keys. intros (e' & He'' & Hm').
    rewrite He' in He''. injection He'' as <-.
    apply latest_matches in Hm' as (_ & _ & _ & Hov & _).
    by rewrite overflow_auto_now_add in Hov.
  - apply elem_of_run_query_keys. eexists. split; [exact He'|].
    apply latest_matches. rewrite published_auto_now_add,
      creating_auto_now_add, overflow_auto_now_add,
      overflow_reason_auto_now_add. simpl.
    split_and!; try done. intros _. set_solver.
Qed.

Lemma drain_queue_hides_entries_from_listings_witness :
  let k : EntryKey := (Sample.feed_key, "old"%string) in
  let w' := (drain_queue Sample.constants 100 Sample.feed_key
               Sample.two_unpublished).1 in
  (k ∈ (run_query (latest_unpublished Sample.feed_key)
          Sample.two_unpublished).*1)
  ∧ (k ∉ (run_query (latest_unpublished Sample.feed_key) w').*1)
  ∧ (k ∉ (run_query (latest Sample.constants Sample.feed_key false None
                       "-published_at") w').*1)
  ∧ (k ∈ (run_query (latest Sample.constants Sample.feed_key true None
                       "-published_at") w').*1).
Proof.
  apply (drain_queue_hides_entries_from_listings Sample.constants 100
           Sample.feed_key Sample.two_unpublished
           (Sample.feed_key, "old"%string) (Sample.entry "old" 10)
           "-published_at");
    vm_compute; reflexivity.
Defined.

(** X3: when no unpublished entry carries a publication time, the drain
    of a feed's queue leaves the remaining budget of every feed as it
    was, at every clock reading: drained entries do not count as
    published in the window. *)
Theorem drain_queue_keeps_budget
    (K : Constants) (now now' : Z) (feed_key feed_key' : FeedKey)
    (feed : Feed) (w : World) :
  (∀ k e, stored w !! k = Some e → published e = false →
          published_at e = None) →
  remaining_budget K now' feed_key' feed (drain_queue K now feed_key w).1
  = remaining_budget K now' feed_key' feed w.
Proof.
  intros Hunset.
  destruct (drain_queue_spec K now feed_key w) as (w1 & Hrun & _ & Hst).
  rewrite Hrun. simpl. unfold remaining_budget, count, run_query.
  do 3 f_equal. apply run_query_from_ext. intros [k e'] Hm. simpl.
  apply matches_spec in Hm as [_ Hf]. simpl in Hf.
  rewrite !andb_true_iff, !bool_decide_eq_true in Hf.
  destruct Hf as [[Hpub _] Hsince].
  rewrite Hst. destruct (stored w !! k) as [e|] eqn:He; [|done].
  destruct (matches (latest_unpublished feed_key) (k, e)) eqn:Hm.
  - apply latest_unpublished_matches in Hm as (_ & Hp & _).
    split.
    + intros [= <-]. rewrite published_at_auto_now_add in Hsince.
      simpl in Hsince. by rewrite (Hunset k e He Hp) in Hsince.
    + intros [= ->]. congruence.
  - done.
Qed.

Lemma drain_queue_keeps_budget_witness :
  remaining_budget Sample.constants 10000 Sample.feed_key Sample.feed
    (drain_queue Sample.constants 9700 Sample.feed_key Sample.over_budget).1
  = remaining_budget Sample.constants 10000 Sample.feed_key Sample.feed
      Sample.over_budget.
Proof.
  apply (drain_queue_keeps_budget Sample.constants 9700 10000 Sample.feed_key
           Sample.feed_key Sample.feed Sample.over_budget).
  assert (map_Forall (λ (k : EntryKey) e,
                        published e = false → published_at e = None)
            (stored Sample.over_budget)) as H.
  { apply map_Forall_to_list. vm_compute. repeat constructor; discriminate. }
  exact H.
Defined.

(** * The throttle of [publish_for_feed] *)

Section Throttle.

Variable K : Constants.
Variable urlfetch_post : string → Feed → EntryKey → Entry → option Z.

Local Abbreviation publish_entry := (publish_entry K urlfetch_post).
Local Abbreviation publish_each := (publish_each K urlfetch_post).
Local Abbreviation publish_for_feed := (publish_for_feed K urlfetch_post).

Lemma publish_each_other_keys now (l : list Row) n w w' out k :
  k ∉ l.*1 → publish_each now l n w = (w', out) →
  stored w' !! k = stored w !! k ∨ stored w' !! k = None.
Proof.
  revert n w. induction l as [|r l IH]; intros n w Hk; simpl.
  - unfold_M. intros [= <- <-]. by left.
  - unfold_M. rewrite fmap_cons, not_elem_of_cons in Hk.
    destruct Hk as [Hne Hk].
    destruct (publish_entry now r.1 r.2 w) as [w1 [[]|e]] eqn:Hrun.
    + intros Hrest.
      destruct (IH _ _ Hk Hrest) as [H|H]; [|by right].
      rewrite H.
      apply (publish_entry_other_keys K urlfetch_post _ _ _ _ _ _ _ Hne Hrun).
    + intros [= <- <-].
      apply (publish_entry_other_keys K urlfetch_post _ _ _ _ _ _ _ Hne Hrun).
Qed.

(** A query finds at most as many rows more as keys were written. *)
Lemma run_query_length_changed q w w' (keys : list EntryKey) :
  (∀ k, k ∉ keys → stored w' !! k = stored w !! k ∨ stored w' !! k = None) →
  (length (run_query q w') ≤ length (run_query q w) + length keys)%nat.
Proof.
  intros Hother.
  rewrite <- (length_fmap fst (run_query q w')),
          <- (length_fmap fst (run_query q w)), <- length_app.
  apply submseteq_length, NoDup_submseteq; [apply run_query_from_NoDup|].
  intros k Hk. apply elem_of_app.
  destruct (decide (k ∈ keys)) as [Hin|Hout]; [by right|left].
  apply elem_of_run_query_keys in Hk as (e & He & Hm).
  apply elem_of_run_query_keys. exists e. split; [|done].
  destruct (Hother k Hout) as [H|H]; congruence.
Qed.

Lemma remaining_budget_changed now feed_key feed w w' (keys : list EntryKey) :
  (∀ k, k ∉ keys → stored w' !! k = stored w !! k ∨ stored w' !! k = None) →
  remaining_budget K now feed_key feed w - Z.of_nat (length keys)
  ≤ remaining_budget K now feed_key feed w'.
Proof.
  intros Hother. unfold remaining_budget, count.
  pose proof (run_query_length_changed
                (latest_published feed_key
                   (Some (now - timedelta_minutes
                                  (if manual_control feed
                                   then schedule_period feed
                                   else DEFAULT_PERIOD_SCHEDULE K))))
                w w' keys Hother).
  lia.
Qed.

End Throttle.

(** X4: [publish_for_feed] without [skip_queue] never overdraws the
    budget. When the remaining budget is not negative before the call,
    it is not negative after it, for the same clock reading and feed
    settings, whether the call returns or raises; and the call issues no
    more POSTs than the budget it found. *)
Theorem publish_for_feed_never_overdraws
    (K : Constants) (urlfetch_post : string → Feed → EntryKey → Entry → option Z)
    (now : Z) (feed_key : FeedKey) (feed : Feed) (w w' : World)
    (out : Outcome Z) :
  0 ≤ remaining_budget K now feed_key feed w →
  publish_for_feed K urlfetch_post now feed_key feed false w = (w', out) →
  0 ≤ remaining_budget K now feed_key feed w'
  ∧ ∃ sent, posted w' = posted w ++ sent
            ∧ Z.of_nat (length sent) ≤ remaining_budget K now feed_key feed w.
Proof.
  intros Hb Hrun.
  destruct (decide (remaining_budget K now feed_key feed w = 0)) as [H0|Hpos].
  - rewrite publish_for_feed_closed in Hrun by lia.
    injection Hrun as <- <-. split; [done|].
    exists []. rewrite app_nil_r. split; [done|]. simpl. lia.
  - rewrite publish_for_feed_open in Hrun.
    2:{ apply orb_true_iff. left. apply Z.ltb_lt. lia. }
    2:{ rewrite fetch_limit_positive; lia. }
    rewrite fetch_limit_positive in Hrun by lia.
    set (selected := take _ _) in Hrun.
    assert (length selected ≤ Z.to_nat (remaining_budget K now feed_key feed w))%nat
      as Hlen by (unfold selected; rewrite length_take; lia).
    split.
    + pose proof (remaining_budget_changed K now feed_key feed w w'
                    selected.*1) as Hch.
      rewrite length_fmap in Hch.
      assert (∀ k, k ∉ selected.*1 →
                stored w' !! k = stored w !! k ∨ stored w' !! k = None) as Ho.
      { intros k Hk.
        apply (publish_each_other_keys K urlfetch_post _ _ _ _ _ _ _ Hk Hrun). }
      specialize (Hch Ho). lia.
    + destruct (publish_each_posts K urlfetch_post now feed_key selected 0 w
                  w' out) as (l' & Hpre & Hp & _); [|done|].
      { intros r Hr. apply (run_query_parent (latest_unpublished feed_key) w).
        unfold selected in Hr. by apply elem_of_take in Hr as (? & ?%list_elem_of_lookup_2 & _). }
      exists l'.*1. split; [done|]. rewrite length_fmap.
      apply prefix_length in Hpre. lia.
Qed.

Lemma publish_for_feed_never_overdraws_witness :
  let result :=
    publish_for_feed Sample.constants (Sample.always 200) 100
      Sample.feed_key Sample.feed false Sample.two_unpublished in
  remaining_budget Sample.constants 100 Sample.feed_key Sample.feed
    Sample.two_unpublished = 1
  ∧ 0 ≤ remaining_budget Sample.constants 100 Sample.feed_key Sample.feed
          result.1
  ∧ ∃ sent, posted result.1 = posted Sample.two_unpublished ++ sent
            ∧ Z.of_nat (length sent)
              ≤ remaining_budget Sample.constants 100 Sample.feed_key
                  Sample.feed Sample.two_unpublished.
Proof.
  intros result. split; [vm_compute; reflexivity|].
  apply (publish_for_feed_never_overdraws Sample.constants (Sample.always 200)
           100 Sample.feed_key Sample.feed Sample.two_unpublished result.1
           result.2).
  - vm_compute. discriminate.
  - apply surjective_pairing.
Defined.

(** X5: a POST that the API answers with a status other than 200, 400
    and 401 stops the run of [publish_for_feed] at once: the call raises
    with that answer, the entry and every entry after it in the
    selection stay as they were, unpublished, and no other POST is
    issued. *)
Theorem publish_for_feed_stops_at_refused_post
    (K : Constants) (urlfetch_post : string → Feed → EntryKey → Entry → option Z)
    (now : Z) (feed_key : FeedKey) (feed : Feed) (skip_queue : bool)
    (w : World) (feed0 : Feed) (user : User) (r : Row) (rest : list Row)
    (code : Z) :
  0 < remaining_budget K now feed_key feed w →
  owned feed_key feed0 user w →
  run_query (latest_unpublished feed_key) w = r :: rest →
  urlfetch_post (access_token user) feed0 r.1 r.2 = Some code →
  code ≠ 401 → code ≠ 200 → code ≠ 400 →
  publish_for_feed K urlfetch_post now feed_key feed skip_queue w
  = (with_posted (posted w ++ [r.1]) w, Raise (Exception code)).
Proof.
  intros Hb Ho Hq Hpost H1 H2 H3.
  rewrite publish_for_feed_open.
  2:{ apply orb_true_iff. left. apply Z.ltb_lt. lia. }
  2:{ rewrite fetch_limit_positive; lia. }
  rewrite fetch_limit_positive, Hq by lia.
  destruct (Z.to_nat (remaining_budget K now feed_key feed w)) as [|n] eqn:Hn;
    [lia|].
  simpl. unfold_M.
  assert (key_parent r.1 = feed_key) as Hr.
  { apply (run_query_parent (latest_unpublished feed_key) w). rewrite Hq.
    by left. }
  rewrite <- Hr in Ho.
  by rewrite (publish_entry_other K urlfetch_post now r.1 r.2 w feed0 user code
                Ho Hpost H1 H2 H3).
Qed.

Lemma publish_for_feed_stops_at_refused_post_witness :
  publish_for_feed Sample.constants (Sample.always 500) 100 Sample.feed_key
    Cases.two_an_hour false Sample.two_unpublished
  = (with_posted [(Sample.feed_key, "new"%string)] Sample.two_unpublished,
     Raise (Exception 500)).
Proof.
  apply (publish_for_feed_stops_at_refused_post Sample.constants
           (Sample.always 500) 100 Sample.feed_key
           Cases.two_an_hour false
           Sample.two_unpublished Sample.feed {| access_token := "token" |}
           ((Sample.feed_key, "new"%string), Sample.entry "new" 20)
           [((Sample.feed_key, "old"%string), Sample.entry "old" 10)] 500).
  - vm_compute. reflexivity.
  - split; [vm_compute; reflexivity|].
    exists Sample.user_key. split; vm_compute; reflexivity.
  - vm_compute. reflexivity.
  - reflexivity.
  - discriminate.
  - discriminate.
  - discriminate.
Defined.

Section FailedPosts.

Variable K : Constants.
Variable urlfetch_post : string → Feed → EntryKey → Entry → option Z.
Hypothesis Hdown : ∀ token feed key entry,
  urlfetch_post token feed key entry = None.

Lemma publish_each_failed_posts now feed_key feed0 user (l : list Row) :
  ∀ n w,
    (∀ r, r ∈ l → key_parent r.1 = feed_key) →
    owned feed_key feed0 user w →
    publish_each K urlfetch_post now l n w
    = (with_posted (posted w ++ l.*1) w, Return (n + Z.of_nat (length l))).
Proof.
  induction l as [|r l IH]; intros n w Hl Ho; simpl.
  - unfold_M. rewrite app_nil_r, Z.add_0_r. by destruct w.
  - unfold_M.
    assert (key_parent r.1 = feed_key) as Hr by (apply Hl; left).
    pose proof Ho as Ho'. rewrite <- Hr in Ho'.
    rewrite (publish_entry_failed K urlfetch_post now r.1 r.2 w feed0 user
               Ho' (Hdown _ _ _ _)).
    rewrite IH.
    + simpl. rewrite <- app_assoc. do 2 f_equal. lia.
    + intros r' Hr'. apply Hl. by right.
    + done.
Qed.

End FailedPosts.

(** X6: the number that [publish_for_feed] returns counts the POSTs it
    tried, not the entries it published. When every POST fails on the
    network, the call still returns the size of the selection, and it
    leaves the datastore as it was: every selected entry is still in
    the queue. *)
Theorem publish_for_feed_counts_failed_posts
    (K : Constants) (urlfetch_post : string → Feed → EntryKey → Entry → option Z)
    (now : Z) (feed_key : FeedKey) (feed : Feed) (skip_queue : bool)
    (w : World) (feed0 : Feed) (user : User) :
  (∀ token feed key entry, urlfetch_post token feed key entry = None) →
  0 < remaining_budget K now feed_key feed w →
  owned feed_key feed0 user w →
  let selected :=
    take (Z.to_nat (remaining_budget K now feed_key feed w))
         (run_query (latest_unpublished feed_key) w) in
  publish_for_feed K urlfetch_post now feed_key feed skip_queue w
  = (with_posted (posted w ++ selected.*1) w,
     Return (Z.of_nat (length selected))).
Proof.
  intros Hdown Hb Ho selected.
  rewrite publish_for_feed_open.
  2:{ apply orb_true_iff. left. apply Z.ltb_lt. lia. }
  2:{ rewrite fetch_limit_positive; lia. }
  rewrite fetch_limit_positive by lia. fold selected.
  rewrite (publish_each_failed_posts K urlfetch_post Hdown now feed_key feed0
             user selected 0 w); [done| |done].
  intros r Hr. apply (run_query_parent (latest_unpublished feed_key) w).
  unfold selected in Hr.
  by apply elem_of_take in Hr as (? & ?%list_elem_of_lookup_2 & _).
Qed.

Lemma publish_for_feed_counts_failed_posts_witness :
  publish_for_feed Sample.constants (λ _ _ _ _, None) 100 Sample.feed_key
    Cases.two_an_hour false Sample.two_unpublished
  = (with_posted [(Sample.feed_key, "new"%string);
                  (Sample.feed_key, "old"%string)] Sample.two_unpublished,
     Return 2).
Proof.
  apply (publish_for_feed_counts_failed_posts Sample.constants
           (λ _ _ _ _, None) 100 Sample.feed_key
           Cases.two_an_hour false
           Sample.two_unpublished Sample.feed {| access_token := "token" |}).
  - reflexivity.
  - vm_compute. reflexivity.
  - split; [vm_compute; reflexivity|].
    exists Sample.user_key. split; vm_compute; reflexivity.
Defined.

(** X7: with [skip_queue] and a remaining budget of exactly zero,
    [publish_for_feed] issues one POST, for the newest entry of the
    queue, and touches no other entry. *)
Theorem publish_for_feed_skip_queue_posts_newest
    (K : Constants) (urlfetch_post : string → Feed → EntryKey → Entry → option Z)
    (now : Z) (feed_key : FeedKey) (feed : Feed) (w w' : World)
    (out : Outcome Z) (feed0 : Feed) (user : User) (r : Row)
    (rest : list Row) :
  remaining_budget K now feed_key feed w = 0 →
  owned feed_key feed0 user w →
  run_query (latest_unpublished feed_key) w = r :: rest →
  publish_for_feed K urlfetch_post now feed_key feed true w = (w', out) →
  posted w' = posted w ++ [r.1]
  ∧ (∀ r', r' ∈ rest → added_le (added r'.2) (added r.2))
  ∧ (∀ k, k ≠ r.1 → stored w' !! k = stored w !! k)
  ∧ (∀ c, out = Return c → c = 1).
Proof.
  intros Hb Ho Hq Hrun.
  rewrite publish_for_feed_open in Hrun.
  2:{ apply orb_true_r. }
  2:{ rewrite Hb. by vm_compute. }
  rewrite Hb, fetch_limit_zero, Hq in Hrun. simpl in Hrun. unfold_M.
  assert (key_parent r.1 = feed_key) as Hr.
  { apply (run_query_parent (latest_unpublished feed_key) w). rewrite Hq.
    by left. }
  rewrite <- Hr in Ho.
  destruct (publish_entry K urlfetch_post now r.1 r.2 w) as [w1 [[]|e]] eqn:Hpe;
    injection Hrun as <- <-;
    destruct (publish_entry_owned K urlfetch_post _ _ _ _ _ _ _ _ Ho Hpe)
      as (Hp & _ & _ & Hother & _).
  all: split_and!; [done| |done|].
  all: try (intros c [= <-]; done).
  all: try (intros c [=]).
  all: pose proof (run_query_newest_first feed_key w) as Hs;
    unfold newest_first in Hs; rewrite Hq in Hs;
    apply StronglySorted_inv in Hs as [_ Hall];
    rewrite Forall_forall in Hall; intros r' Hr'; by apply Hall.
Qed.

Lemma publish_for_feed_skip_queue_posts_newest_witness :
  let w := Cases.one_posted in
  let result :=
    publish_for_feed Sample.constants (Sample.always 200) 10000
      Sample.feed_key Sample.feed true w in
  remaining_budget Sample.constants 10000 Sample.feed_key Sample.feed w = 0
  ∧ posted result.1 = [(Sample.feed_key, "new"%string)]
  ∧ result.2 = Return 1.
Proof.
  intros w result. split; [vm_compute; reflexivity|].
  destruct (publish_for_feed_skip_queue_posts_newest Sample.constants
              (Sample.always 200) 10000 Sample.feed_key Sample.feed w
              result.1 result.2 Sample.feed {| access_token := "token" |}
              ((Sample.feed_key, "new"%string), Sample.entry "new" 20)
              [((Sample.feed_key, "old"%string), Sample.entry "old" 10)])
    as (Hp & _ & _ & Hc).
  - vm_compute. reflexivity.
  - split; [vm_compute; reflexivity|].
    exists Sample.user_key. split; vm_compute; reflexivity.
  - vm_compute. reflexivity.
  - apply surjective_pairing.
  - split; [exact Hp|]. vm_compute. reflexivity.
Defined.

Lemma latest_for_feed_matches feed_key k e :
  matches (latest_for_feed feed_key) (k, e) = true
  ↔ key_parent k = feed_key ∧ creating e = false.
Proof. rewrite matches_spec. simpl. by rewrite bool_decide_eq_true. Qed.

(** X8: [publish_entry] on an entry of a feed whose key has no parent
    issues no POST. It deletes the feed and every enriched entry of it
    (reservations stay) and returns. From then on [publish_entry] on an
    entry below that feed key raises: the feed it reads is gone. *)
Theorem publish_entry_deletes_orphaned_feed
    (K : Constants) (urlfetch_post : string → Feed → EntryKey → Entry → option Z)
    (now : Z) (key : EntryKey) (self : Entry) (w : World) (feed : Feed) :
  feeds w !! key_parent key = Some feed →
  key_parent (key_parent key) = None →
  ∃ w',
    publish_entry K urlfetch_post now key self w = (w', Return ())
    ∧ feeds w' = delete (key_parent key) (feeds w)
    ∧ users w' = users w ∧ posted w' = posted w
    ∧ (∀ k, stored w' !! k =
            match stored w !! k with
            | Some e =>
                if decide (key_parent k = key_parent key ∧ creating e = false)
                then None else Some e
            | None => None
            end)
    ∧ (∀ now' key' self',
         key_parent key' = key_parent key →
         publish_entry K urlfetch_post now' key' self' w'
         = (w', Raise AttributeError)).
Proof.
  intros Hf Hp.
  destruct (delete_for_feed_spec (key_parent key) w)
    as (w1 & Hdel & (Hu & Hfe & Hpo) & Hst).
  exists (with_feeds (delete (key_parent key) (feeds w1)) w1).
  split_and!; simpl; try done.
  - unfold publish_entry, publish_entry_self. unfold_M.
    rewrite Hf, Hp, Hdel. unfold delete_feed_key. unfold_M. done.
  - by rewrite Hfe.
  - intros k. rewrite Hst. destruct (stored w !! k) as [e|]; [|done].
    destruct (matches (latest_for_feed (key_parent key)) (k, e)) eqn:Hm.
    + apply latest_for_feed_matches in Hm. by rewrite decide_True.
    + rewrite decide_False; [done|]. intros Hd.
      apply latest_for_feed_matches in Hd. congruence.
  - intros now' key' self' Hk'.
    unfold publish_entry, publish_entry_self. unfold_M. simpl.
    by rewrite Hk', lookup_delete_eq.
Qed.

Lemma publish_entry_deletes_orphaned_feed_witness :
  ∃ w',
    publish_entry Sample.constants (Sample.always 200) 100
      (Cases.orphan_key, "e"%string) (Sample.entry "e" 10) Cases.orphaned
    = (w', Return ())
    ∧ feeds w' = ∅ ∧ posted w' = []
    ∧ stored w' !! (Cases.orphan_key, "e"%string) = None
    ∧ stored w' !! (Cases.orphan_key, "r"%string)
      = Some (set_added (Some 20) (new_entry "r" true)).
Proof.
  destruct (publish_entry_deletes_orphaned_feed Sample.constants
              (Sample.always 200) 100 (Cases.orphan_key, "e"%string)
              (Sample.entry "e" 10) Cases.orphaned Sample.feed)
    as (w' & Hrun & Hf & _ & Hp & Hst & _).
  - vm_compute. reflexivity.
  - reflexivity.
  - exists w'. split_and!; [done| | | |].
    + rewrite Hf. vm_compute. reflexivity.
    + rewrite Hp. reflexivity.
    + rewrite Hst. vm_compute. reflexivity.
    + rewrite Hst. vm_compute. reflexivity.
Defined.

(** * Ingestion and polling *)

Section Quiet.

Variable K : Constants.
Variable Item : Type.
Variable guid_for_item : Item → string.
Variable urlfetch_post : string → Feed → EntryKey → Entry → option Z.
Variable prepare_entry_from_item :
  ParsedFeed Item → Item → FeedKey → Feed → bool → Z → bool → option Kwargs.

Local Abbreviation process_parsed_feed :=
  (process_parsed_feed Item guid_for_item prepare_entry_from_item).
Local Abbreviation ingest_publish_drain :=
  (ingest_publish_drain K Item guid_for_item urlfetch_post
     prepare_entry_from_item).

Lemma grows_below_refl feed_key w : grows_below feed_key w w.
Proof. by split. Qed.

Lemma grows_below_trans feed_key w1 w2 w3 :
  grows_below feed_key w1 w2 → grows_below feed_key w2 w3 →
  grows_below feed_key w1 w3.
Proof.
  intros [H1 H2] [H3 H4]. split.
  - intros k Hk. by rewrite H3, H1.
  - intros k Hk. by apply H4, H2.
Qed.

Lemma process_parsed_feed_grows now parsed_feed feed_key feed overflow
    overflow_reason w :
  ∃ w' guids,
    process_parsed_feed now parsed_feed feed_key feed overflow
      overflow_reason w = (w', Return guids)
    ∧ same_frame w w' ∧ grows_below feed_key w w'.
Proof.
  destruct (process_parsed_feed_spec Item guid_for_item
              prepare_entry_from_item now parsed_feed feed_key feed overflow
              overflow_reason w) as (w' & Hrun & Hframe & Hst).
  exists w'. eexists. split_and!; [exact Hrun|done|]. split.
  - intros k Hk. rewrite Hst. rewrite decide_False; [done|]. tauto.
  - intros k Hk. rewrite Hst. by case_decide.
Qed.

Lemma drain_queue_grows now feed_key w :
  ∃ w', drain_queue K now feed_key w = (w', Return ())
        ∧ same_frame w w' ∧ grows_below feed_key w w'.
Proof.
  destruct (drain_queue_spec K now feed_key w) as (w' & Hrun & Hframe & Hst).
  exists w'. split_and!; [done|done|]. split.
  - intros k Hk. rewrite Hst. destruct (stored w !! k) as [e|]; [|done].
    destruct (matches (latest_unpublished feed_key) (k, e)) eqn:Hm; [|done].
    apply latest_unpublished_matches in Hm. tauto.
  - intros k [e He]. rewrite Hst, He.
    by destruct (matches (latest_unpublished feed_key) (k, e)).
Qed.

Lemma ingest_publish_drain_quiet now parsed_feed feed_key feed skip_queue
    overflow overflow_reason w :
  ∃ w' n,
    ingest_publish_drain now parsed_feed feed_key feed false skip_queue
      overflow overflow_reason w = (w', Return (parsed_feed, n))
    ∧ 0 ≤ n ∧ same_frame w w' ∧ grows_below feed_key w w'.
Proof.
  unfold ingest_publish_drain. unfold_M.
  destruct (process_parsed_feed_grows now parsed_feed feed_key feed overflow
              overflow_reason w)
    as (w1 & [new_guids old_guids] & -> & Hf1 & Hg1).
  destruct (bool_decide (5 ≤ length (new_guids ++ old_guids))%nat
            && bool_decide (length new_guids
                            = length (new_guids ++ old_guids))).
  - destruct (drain_queue_grows now feed_key w1) as (w2 & -> & Hf2 & Hg2).
    exists w2. eexists. split_and!; [done|lia|..].
    + by eapply same_frame_trans.
    + by eapply grows_below_trans.
  - exists w1. eexists. split_and!; [done|lia|done|done].
Qed.

Lemma ingest_publish_drain_ingests now parsed_feed feed_key feed skip_queue
    overflow overflow_reason w g :
  g ∈ guid_for_item <$> pf_entries Item parsed_feed →
  is_Some (stored (ingest_publish_drain now parsed_feed feed_key feed false
                     skip_queue overflow overflow_reason w).1
           !! (feed_key, g)).
Proof.
  intros Hg. unfold ingest_publish_drain. unfold_M.
  destruct (process_parsed_feed_spec Item guid_for_item
              prepare_entry_from_item now parsed_feed feed_key feed overflow
              overflow_reason w) as (w1 & -> & _ & Hst).
  assert (is_Some (stored w1 !! (feed_key, g))) as H1.
  { rewrite Hst. case_decide as Hd; [done|].
    destruct (stored w !! (feed_key, g)) eqn:He; [done|].
    destruct Hd. split; [done|]. simpl. by apply elem_of_unknown_guids. }
  destruct (bool_decide _ && bool_decide _).
  - destruct (drain_queue_grows now feed_key w1) as (w2 & -> & _ & _ & Hg2).
    simpl. by apply Hg2.
  - done.
Qed.

End Quiet.

Lemma process_feed_quiet
    (K : Constants) (Item : Type) (guid_for_item : Item → string)
    (urlfetch_post : string → Feed → EntryKey → Entry → option Z)
    (prepare_entry_from_item :
       ParsedFeed Item → Item → FeedKey → Feed → bool → Z → bool
       → option Kwargs)
    (fetch_parsed_feed_for_feed :
       FeedKey → Feed → option (ParsedFeed Item * FetchResponse))
    (get_language : string → option string)
    (now : Z) (feed_key : FeedKey) (self : Feed) (overflow : option bool)
    (overflow_reason : option Z) (w : World) :
  ∃ w' out,
    process_feed K Item guid_for_item urlfetch_post prepare_entry_from_item
      fetch_parsed_feed_for_feed get_language now feed_key self overflow
      overflow_reason w = (w', out)
    ∧ posted w' = posted w ∧ users w' = users w
    ∧ (∀ k, k ≠ feed_key → feeds w' !! k = feeds w !! k)
    ∧ (∀ k, key_parent k ≠ feed_key → stored w' !! k = stored w !! k)
    ∧ (∀ k, is_Some (stored w !! k) → is_Some (stored w' !! k))
    ∧ match fetch_parsed_feed_for_feed feed_key self with
      | None => out = Raise FetchException ∧ w' = w
      | Some (parsed_feed, _) => ∃ n, out = Return (parsed_feed, n) ∧ 0 ≤ n
      end.
Proof.
  unfold process_feed. unfold_M.
  destruct (fetch_parsed_feed_for_feed feed_key self)
    as [[parsed_feed resp]|] eqn:Hfetch.
  2:{ unfold update_for_feed. rewrite Hfetch. unfold_M.
      exists w. eexists. split_and!; done. }
  destruct (decide (status_code resp = 304)) as [H304|H304].
  - unfold update_for_feed. rewrite Hfetch.
    rewrite bool_decide_eq_false_2 by (by intros ?). unfold_M.
    exists w. eexists. split_and!; try done. by exists 0.
  - rewrite (update_for_feed_fetched K Item guid_for_item urlfetch_post
               prepare_entry_from_item fetch_parsed_feed_for_feed
               get_language now feed_key self false false false
               (OVERFLOW_REASON_BACKLOG K) w parsed_feed resp Hfetch H304).
    simpl.
    destruct (ingest_publish_drain_quiet K Item guid_for_item urlfetch_post
                prepare_entry_from_item now parsed_feed feed_key
                (refreshed Item get_language parsed_feed resp self) false
                false (OVERFLOW_REASON_BACKLOG K)
                (refreshed_world Item get_language parsed_feed resp feed_key
                   self w))
      as (w' & n & -> & Hn & (Hu & Hf & Hp) & [Hg1 Hg2]).
    exists w'. eexists. split; [done|].
    rewrite refreshed_world_stored in Hg1, Hg2.
    assert (posted (refreshed_world Item get_language parsed_feed resp
                      feed_key self w) = posted w
            ∧ users (refreshed_world Item get_language parsed_feed resp
                       feed_key self w) = users w
            ∧ ∀ k, k ≠ feed_key →
                   feeds (refreshed_world Item get_language parsed_feed resp
                            feed_key self w) !! k = feeds w !! k)
      as (Hp0 & Hu0 & Hf0).
    { unfold refreshed_world. destruct (modified_feed _ _ _ _ _); [|done].
      split_and!; [done|done|]. intros k Hk. simpl.
      by rewrite lookup_insert_ne. }
    split_and!; try congruence; try done.
    + intros k Hk. rewrite Hf. by apply Hf0.
    + by exists n.
Qed.


(** X9: the poll of a feed, [Feed.process_feed], never posts. Whatever
    the fetcher answers and whatever arguments it is given, it leaves
    the posts sent, the users and every other feed alone, deletes no
    entry and touches no entry of another feed; and it fails in one way
    only, by the fetch failing, and then nothing is changed. *)
Theorem process_feed_never_posts
    (K : Constants) (Item : Type) (guid_for_item : Item → string)
    (urlfetch_post : string → Feed → EntryKey → Entry → option Z)
    (prepare_entry_from_item :
       ParsedFeed Item → Item → FeedKey → Feed → bool → Z → bool
       → option Kwargs)
    (fetch_parsed_feed_for_feed :
       FeedKey → Feed → option (ParsedFeed Item * FetchResponse))
    (get_language : string → option string)
    (now : Z) (feed_key : FeedKey) (self : Feed) (overflow : option bool)
    (overflow_reason : option Z) (w : World) :
  ∃ w' out,
    process_feed K Item guid_for_item urlfetch_post prepare_entry_from_item
      fetch_parsed_feed_for_feed get_language now feed_key self overflow
      overflow_reason w = (w', out)
    ∧ posted w' = posted w ∧ users w' = users w
    ∧ (∀ k, k ≠ feed_key → feeds w' !! k = feeds w !! k)
    ∧ (∀ k, key_parent k ≠ feed_key → stored w' !! k = stored w !! k)
    ∧ (∀ k, is_Some (stored w !! k) → is_Some (stored w' !! k))
    ∧ match fetch_parsed_feed_for_feed feed_key self with
      | None => out = Raise FetchException ∧ w' = w
      | Some (parsed_feed, _) => ∃ n, out = Return (parsed_feed, n) ∧ 0 ≤ n
      end.
Proof.
  apply process_feed_quiet.
Qed.

(** X10: a permanent redirect makes [update_for_feed] store the feed
    under the address it was redirected to, with its ETag as it was, and
    no entry is posted in that run even when publishing was asked for. *)
Theorem update_for_feed_follows_permanent_redirect
    (K : Constants) (Item : Type) (guid_for_item : Item → string)
    (urlfetch_post : string → Feed → EntryKey → Entry → option Z)
    (prepare_entry_from_item :
       ParsedFeed Item → Item → FeedKey → Feed → bool → Z → bool
       → option Kwargs)
    (fetch_parsed_feed_for_feed :
       FeedKey → Feed → option (ParsedFeed Item * FetchResponse))
    (get_language : string → option string)
    (now : Z) (feed_key : FeedKey) (feed : Feed)
    (publish skip_queue overflow : bool) (overflow_reason : Z)
    (parsed_feed : ParsedFeed Item) (resp : FetchResponse) (w : World) :
  fetch_parsed_feed_for_feed feed_key feed = Some (parsed_feed, resp) →
  status_code resp ≠ 304 →
  was_permanente_redirect resp = true →
  ∃ w' n feed',
    update_for_feed K Item guid_for_item urlfetch_post prepare_entry_from_item
      fetch_parsed_feed_for_feed get_language now feed_key feed publish
      skip_queue overflow overflow_reason w = (w', Return (parsed_feed, n))
    ∧ posted w' = posted w
    ∧ feeds w' !! feed_key = Some feed'
    ∧ feed_url feed' = final_url resp ∧ etag feed' = etag feed
    ∧ manual_control feed' = manual_control feed
    ∧ status feed' = status feed.
Proof.
  intros Hfetch H304 Hredirect.
  rewrite (update_for_feed_fetched K Item guid_for_item urlfetch_post
             prepare_entry_from_item fetch_parsed_feed_for_feed
             get_language now feed_key feed publish skip_queue overflow
             overflow_reason w parsed_feed resp Hfetch H304).
  rewrite Hredirect, andb_false_r.
  destruct (ingest_publish_drain_quiet K Item guid_for_item urlfetch_post
              prepare_entry_from_item now parsed_feed feed_key
              (refreshed Item get_language parsed_feed resp feed) skip_queue
              overflow overflow_reason
              (refreshed_world Item get_language parsed_feed resp feed_key
                 feed w))
    as (w' & n & -> & Hn & (Hu & Hf & Hp) & _).
  exists w', n, (refreshed Item get_language parsed_feed resp feed).
  split; [done|].
  assert (modified_feed Item get_language parsed_feed resp feed = true) as Hm.
  { unfold modified_feed. by rewrite Hredirect. }
  unfold refreshed_world in *. rewrite Hm in *. simpl in *.
  split_and!; [done|by rewrite Hf, lookup_insert_eq|..];
    unfold refreshed; rewrite Hredirect;
    destruct (pf_language Item parsed_feed); try done;
    by case_bool_decide.
Qed.

Lemma update_for_feed_follows_permanent_redirect_witness :
  ∃ w' n feed',
    update_for_feed Sample.constants string id (Sample.always 200)
      Sample.prepare_all Cases.fetch_moved Sample.no_language 100
      Sample.feed_key Sample.feed true false false 1 Sample.two_unpublished
    = (w', Return (Sample.six_items, n))
    ∧ posted w' = []
    ∧ feeds w' !! Sample.feed_key = Some feed'
    ∧ feed_url feed' = "http://example.com/feed.xml"%string.
Proof.
  destruct (update_for_feed_follows_permanent_redirect Sample.constants string
              id (Sample.always 200) Sample.prepare_all Cases.fetch_moved
              Sample.no_language 100 Sample.feed_key Sample.feed true false
              false 1 Sample.six_items
              {| status_code := 200; headers_ETag := Some "v2"%string;
                 was_permanente_redirect := true;
                 final_url := "http://example.com/feed.xml" |}
              Sample.two_unpublished)
    as (w' & n & feed' & Hrun & Hp & Hf & Hurl & _).
  - reflexivity.
  - discriminate.
  - reflexivity.
  - exists w', n, feed'. split_and!; done.
Defined.

Lemma enriched_failed (Item : Type) (guid_for_item : Item → string)
    (prepare_entry_from_item :
       ParsedFeed Item → Item → FeedKey → Feed → bool → Z → bool
       → option Kwargs)
    parsed_feed feed_key feed overflow overflow_reason g e :
  (∀ item, item ∈ pf_entries Item parsed_feed → guid_for_item item = g →
           prepare_entry_from_item parsed_feed item feed_key feed overflow
             overflow_reason overflow = None) →
  enriched Item guid_for_item prepare_entry_from_item parsed_feed feed_key
    feed overflow overflow_reason g e = e.
Proof.
  unfold enriched.
  assert (∀ (l : list Item) e,
            (∀ item, item ∈ l → guid_for_item item = g →
                     prepare_entry_from_item parsed_feed item feed_key feed
                       overflow overflow_reason overflow = None) →
            foldl (λ e item, if decide (guid_for_item item = g)
                             then enrich_with Item prepare_entry_from_item
                                    parsed_feed feed_key feed overflow
                                    overflow_reason item e
                             else e) e l = e) as Hfold.
  { intros l. induction l as [|item l IH]; intros e0 Hnone; [done|].
    simpl. rewrite IH.
    - case_decide as Hg; [|done]. unfold enrich_with.
      rewrite Hnone; [done|by left|done].
    - intros item' Hin. apply Hnone. by right. }
  apply Hfold.
Qed.

(** X11: an item whose preparation gave nothing is never taken in
    again. Its guid is left as a reservation ([creating=True], stamped
    with the time of the run), and every later run of
    [process_parsed_feed] for the feed, whatever the parsed feed and
    whatever the preparation gives then, finds the guid known and
    leaves the reservation as it is: the entry never enters the
    queue. *)
Theorem failed_enrichment_is_never_retried
    (Item : Type) (guid_for_item : Item → string)
    (prepare_entry_from_item prepare_entry_from_item' :
       ParsedFeed Item → Item → FeedKey → Feed → bool → Z → bool
       → option Kwargs)
    (now now' : Z) (parsed_feed parsed_feed' : ParsedFeed Item)
    (feed_key : FeedKey) (feed feed' : Feed) (overflow overflow' : bool)
    (overflow_reason overflow_reason' : Z) (w : World) (g : string) :
  g ∈ guid_for_item <$> pf_entries Item parsed_feed →
  stored w !! (feed_key, g) = None →
  (∀ item, item ∈ pf_entries Item parsed_feed → guid_for_item item = g →
           prepare_entry_from_item parsed_feed item feed_key feed overflow
             overflow_reason overflow = None) →
  let w1 :=
    (process_parsed_feed Item guid_for_item prepare_entry_from_item now
       parsed_feed feed_key feed overflow overflow_reason w).1 in
  let second :=
    process_parsed_feed Item guid_for_item prepare_entry_from_item' now'
      parsed_feed' feed_key feed' overflow' overflow_reason' w1 in
  let reservation := set_added (Some now) (new_entry g true) in
  stored w1 !! (feed_key, g) = Some reservation
  ∧ stored second.1 !! (feed_key, g) = Some reservation
  ∧ (∀ new_guids old_guids,
       second.2 = Return (new_guids, old_guids) → g ∉ new_guids)
  ∧ (∀ cursor,
       (feed_key, g)
       ∉ (run_query_from (latest_unpublished feed_key) cursor second.1).*1).
Proof.
  intros Hg Hnew Hnone w1 second reservation.
  destruct (process_parsed_feed_spec Item guid_for_item
              prepare_entry_from_item now parsed_feed feed_key feed overflow
              overflow_reason w) as (w1' & Hrun1 & _ & Hst1).
  assert (w1 = w1') as Hw1 by (unfold w1; by rewrite Hrun1).
  assert (stored w1 !! (feed_key, g) = Some reservation) as H1.
  { rewrite Hw1, Hst1. rewrite decide_True.
    2:{ split; [done|]. simpl. by apply elem_of_unknown_guids. }
    simpl. unfold ingested_entry. rewrite enriched_failed by done. done. }
  destruct (process_parsed_feed_spec Item guid_for_item
              prepare_entry_from_item' now' parsed_feed' feed_key feed'
              overflow' overflow_reason' w1) as (w2 & Hrun2 & _ & Hst2).
  assert (g ∉ unknown_guids Item guid_for_item parsed_feed' feed_key w1)
    as Hknown.
  { intros [_ Hn]%elem_of_unknown_guids. congruence. }
  assert (stored second.1 !! (feed_key, g) = Some reservation) as H2.
  { unfold second. rewrite Hrun2. simpl. rewrite Hst2.
    rewrite decide_False; [done|]. simpl. tauto. }
  split_and!; [done|done|..].
  - intros new_guids old_guids. unfold second. rewrite Hrun2. simpl.
    by intros [= <- <-].
  - intros cursor ([k e] & Hk & Hin)%list_elem_of_fmap. simpl in Hk. subst k.
    apply elem_of_run_query_from in Hin as (Hl & Hm & _). simpl in Hl.
    rewrite H2 in Hl. injection Hl as <-.
    apply latest_unpublished_matches in Hm as (_ & _ & Hc). done.
Qed.

Lemma failed_enrichment_is_never_retried_witness :
  let w1 :=
    (process_parsed_feed string id (Sample.prepare_but "g3") 100
       Sample.six_items Sample.feed_key Sample.feed false 1
       Sample.no_entries).1 in
  let second :=
    process_parsed_feed string id Sample.prepare_all 200 Sample.six_items
      Sample.feed_key Sample.feed false 1 w1 in
  let reservation := set_added (Some 100) (new_entry "g3" true) in
  stored w1 !! (Sample.feed_key, "g3"%string) = Some reservation
  ∧ stored second.1 !! (Sample.feed_key, "g3"%string) = Some reservation
  ∧ (∀ new_guids old_guids,
       second.2 = Return (new_guids, old_guids) → "g3"%string ∉ new_guids)
  ∧ (∀ cursor,
       (Sample.feed_key, "g3"%string)
       ∉ (run_query_from (latest_unpublished Sample.feed_key) cursor
            second.1).*1).
Proof.
  apply (failed_enrichment_is_never_retried string id
           (Sample.prepare_but "g3") Sample.prepare_all 100 200
           Sample.six_items Sample.six_items Sample.feed_key Sample.feed
           Sample.feed false false 1 1 Sample.no_entries "g3"%string).
  - vm_compute. set_solver.
  - vm_compute. reflexivity.
  - intros item _ Hitem. unfold id in Hitem. subst item. reflexivity.
Defined.

(** * The manual publication of an entry *)

(** X12: [feed_entry_publish] acts on the entry it is asked for and on
    nothing else. It leaves every other entry, the users and every
    other feed as they are, and it issues at most one POST, for that
    entry. It refuses, changing nothing, when the user has no feed of
    that id, when the entry is not below that feed, and when the entry
    does not exist. *)
Theorem feed_entry_publish_touches_only_its_entry
    (K : Constants) (urlfetch_post : string → Feed → EntryKey → Entry → option Z)
    (now : Z) (g_user : UserKey) (feed_id : Z) (key : EntryKey) (w : World) :
  let result := feed_entry_publish K urlfetch_post now g_user feed_id key w in
  let feed_key : FeedKey := (Some g_user, feed_id) in
  (∀ k, k ≠ key → stored result.1 !! k = stored w !! k)
  ∧ users result.1 = users w
  ∧ (∀ k, k ≠ feed_key → feeds result.1 !! k = feeds w !! k)
  ∧ (posted result.1 = posted w ∨ posted result.1 = posted w ++ [key])
  ∧ (feeds w !! feed_key = None ∨ key_parent key ≠ feed_key →
     result = (w, Return (jsonify_error "Can't find that feed" 404)))
  ∧ (is_Some (feeds w !! feed_key) → key_parent key = feed_key →
     stored w !! key = None →
     result = (w, Return (jsonify_error "Can't find that entry" 404))).
Proof.
  intros result feed_key. unfold result, feed_entry_publish. unfold_M.
  fold feed_key.
  destruct (feeds w !! feed_key) as [feed|] eqn:Hf; simpl.
  2:{ split_and!; try done; try (by left); try (by intros [? ?]). }
  case_bool_decide as Hparent; simpl.
  2:{ split_and!; try done; try (by left); try (by intros [? ?]). }
  destruct (stored w !! key) as [entry|] eqn:Hentry; simpl.
  2:{ split_and!; try done; try (by left); try (intros [?|?]; done). }
  unfold publish_entry_self. unfold_M. rewrite Hparent, Hf. simpl.
  unfold log_post, put_feed, put_entry. unfold_M.
  destruct (users w !! g_user) as [user|]; simpl.
  2:{ split_and!; try done; try (by left); try (intros [?|?]; done);
        intros k Hk; by rewrite lookup_insert_ne. }
  destruct (urlfetch_post (access_token user) feed key entry) as [code|];
    simpl.
  2:{ split_and!; try done; try (by right); try (intros [?|?]; done);
        intros k Hk; by rewrite lookup_insert_ne. }
  destruct (code =? 401); [|destruct (code =? 200); [|destruct (code =? 400)]];
    simpl; split_and!; try done; try (by right); try (intros [?|?]; done);
    intros k Hk; by rewrite !lookup_insert_ne by done.
Qed.

(** X13: [feed_entry_publish] answers ok whenever [publish_entry]
    returns, also when the POST failed on the network or was refused;
    one POST is issued, and the entry is stored with its overflow flag
    cleared. It is stored published unless the POST failed on the
    network. After a 400 an enriched entry is therefore listed by
    [latest] among the published entries of the feed, with the reason
    MALFORMED still on it. *)
Theorem feed_entry_publish_clears_overflow
    (K : Constants) (urlfetch_post : string → Feed → EntryKey → Entry → option Z)
    (now : Z) (g_user : UserKey) (feed_id : Z) (key : EntryKey) (w : World)
    (feed : Feed) (user : User) (entry : Entry) :
  feeds w !! (Some g_user, feed_id) = Some feed →
  users w !! g_user = Some user →
  key_parent key = (Some g_user, feed_id) →
  stored w !! key = Some entry →
  let answer := urlfetch_post (access_token user) feed key entry in
  answer = None ∨ answer = Some 200 ∨ answer = Some 400 ∨ answer = Some 401 →
  ∃ w' e',
    feed_entry_publish K urlfetch_post now g_user feed_id key w
    = (w', Return jsonify_ok)
    ∧ posted w' = posted w ++ [key]
    ∧ stored w' !! key = Some e'
    ∧ overflow e' = false
    ∧ published e' = match answer with
                     | Some _ => true
                     | None => published entry
                     end
    ∧ (answer = Some 400 → creating entry = false →
       overflow_reason e' = OVERFLOW_REASON_MALFORMED K
       ∧ key ∈ (run_query (latest K (key_parent key) false None "added") w').*1).
Proof.
  intros Hf Hu Hparent Hentry answer Hanswer.
  unfold feed_entry_publish. unfold_M. rewrite Hf.
  rewrite bool_decide_eq_true_2 by done. rewrite Hentry.
  unfold publish_entry_self. unfold_M. rewrite Hparent, Hf. simpl.
  rewrite Hu. unfold log_post, put_feed, put_entry. unfold_M.
  fold answer.
  destruct Hanswer as [Ha|[Ha|[Ha|Ha]]]; rewrite Ha; simpl;
    eexists _, _; (split; [reflexivity|]); simpl;
    (split; [done|]); (split; [apply lookup_insert_eq|]);
    rewrite ?overflow_auto_now_add, ?published_auto_now_add; simpl;
    rewrite ?overflow_auto_now_add, ?published_auto_now_add; simpl;
    split_and!; try done.
  intros _ Hc.
  rewrite !overflow_reason_auto_now_add. simpl.
  rewrite ?overflow_reason_auto_now_add. simpl. split; [done|].
  apply elem_of_run_query_keys. eexists. split; [apply lookup_insert_eq|].
  apply latest_matches.
  rewrite !published_auto_now_add, !creating_auto_now_add,
    !overflow_auto_now_add. simpl.
  rewrite !published_auto_now_add, !creating_auto_now_add. simpl.
  split_and!; done.
Qed.

Lemma feed_entry_publish_clears_overflow_witness :
  let key : EntryKey := (Sample.feed_key, "old"%string) in
  ∃ w' e',
    feed_entry_publish Sample.constants (Sample.always 400) 100
      Sample.user_key 7 key Sample.two_unpublished
    = (w', Return jsonify_ok)
    ∧ posted w' = [key]
    ∧ stored w' !! key = Some e'
    ∧ Sample.flags e' = (false, true, false, 2)
    ∧ (key ∈ (run_query (latest Sample.constants Sample.feed_key false None
                          "added") w').*1).
Proof.
  intros key.
  destruct (feed_entry_publish_clears_overflow Sample.constants
              (Sample.always 400) 100 Sample.user_key 7 key
              Sample.two_unpublished Sample.feed {| access_token := "token" |}
              (Sample.entry "old" 10))
    as (w' & e' & Hrun & Hp & He & Hov & Hpub & Hlisted).
  - vm_compute. reflexivity.
  - vm_compute. reflexivity.
  - reflexivity.
  - vm_compute. reflexivity.
  - right. right. left. reflexivity.
  - destruct (Hlisted eq_refl eq_refl) as [Hreason Hin].
    exists w', e'. split_and!; [done|done|done| |done].
    unfold Sample.flags. rewrite Hov, Hpub, Hreason.
    assert (creating e' = false) as ->; [|done].
    apply elem_of_run_query_keys in Hin as (e & He0 & Hm).
    rewrite He in He0. injection He0 as <-.
    by apply latest_matches in Hm as (_ & _ & Hc & _).
Defined.

(** * The description of a feed *)

Lemma substring_0_length (n : nat) (s : string) :
  (String.length (String.substring 0 n s) ≤ n)%nat.
Proof.
  revert s. induction n as [|n IH]; intros [|c s]; simpl; try lia.
  specialize (IH s). lia.
Qed.

Lemma substring_0_short (n : nat) (s : string) :
  (String.length s ≤ n)%nat → String.substring 0 n s = s.
Proof.
  revert s. induction n as [|n IH]; intros [|c s]; simpl; try done; try lia.
  intros Hl. rewrite IH; [done|lia].
Qed.

Lemma substring_0_idemp (n : nat) (s : string) :
  String.substring 0 n (String.substring 0 n s) = String.substring 0 n s.
Proof. apply substring_0_short, substring_0_length. Qed.

Lemma prefix_substring_0 (p s : string) (n : nat) :
  (String.length p ≤ n)%nat → String.prefix p s = true →
  String.prefix p (String.substring 0 n s) = true.
Proof.
  revert s n. induction p as [|a p IH]; intros s n Hn Hp.
  { by destruct (substring 0 n s). }
  destruct s as [|c s]; [done|]. destruct n as [|n]; simpl in Hn; [lia|].
  simpl in *. destruct (ascii_dec a c); [|done]. apply IH; [lia|done].
Qed.

Lemma slice_keeps_http (s : string) :
  String.prefix "http" s = true → String.prefix "http" (slice_0_499 s) = true.
Proof. apply prefix_substring_0. simpl. lia. Qed.

Lemma slice_nonempty (s : string) :
  String.eqb s "" = false → String.eqb (slice_0_499 s) "" = false.
Proof. by destruct s. Qed.

Lemma clip_idemp (x : option string) : clip (clip x) = clip x.
Proof.
  unfold clip, truthy_str. destruct x as [s|]; [|done]. simpl.
  destruct (String.eqb s "") eqn:Hs; simpl; rewrite ?Hs; [done|].
  rewrite slice_nonempty by done. simpl. unfold slice_0_499.
  by rewrite substring_0_idemp.
Qed.

Lemma clip_bounded (x : option string) (s : string) :
  clip x = Some s → (String.length s ≤ 499)%nat.
Proof.
  unfold clip, truthy_str. destruct x as [s0|]; [|done]. simpl.
  destruct (String.eqb_spec s0 ""); simpl.
  - intros [= <-]. subst. simpl. lia.
  - intros [= <-]. apply substring_0_length.
Qed.

(** The link after [not link or not link.startswith('http')] and the
    clipping. *)
Lemma clipped_link_http (link : option string) (s : string) :
  clip (if not_http link then link_from_feed_url else link) = Some s →
  String.prefix "http" s = true.
Proof.
  unfold not_http, link_from_feed_url. destruct link as [s0|]; [|done].
  destruct (String.eqb s0 "") eqn:He; simpl; [done|].
  destruct (String.prefix "http" s0) eqn:Hp; simpl; [|done].
  unfold clip, truthy_str. rewrite He. simpl. intros [= <-].
  by apply slice_keeps_http.
Qed.

Lemma update_feed_from_parsed_feed_fields self feed_info save :
  let self' := (update_feed_from_parsed_feed self (Some feed_info) save).1 in
  fd_feed_url self' = fd_feed_url self
  ∧ fd_link self'
    = clip (if not_http (fi_link feed_info) then link_from_feed_url
            else fi_link feed_info)
  ∧ fd_title self' = clip (fi_title feed_info)
  ∧ fd_description self' = clip (fi_subtitle feed_info).
Proof.
  unfold update_feed_from_parsed_feed.
  repeat case_bool_decide; simpl; split_and!; try done;
    by apply dec_stable.
Qed.

(** X14: after [update_feed_from_parsed_feed] with a parsed feed, the
    link, the title and the description of the feed are at most 499
    characters long, whether the call changed them or not; the title and
    the description are those of the parsed feed, clipped. The link is
    unset or begins with [http]: a link of the parsed feed that is
    missing, empty or of another form is dropped, not replaced by the
    address of the feed, so that [effective_link] is then the feed's
    [feed_url]. The [feed_url] itself is never changed. *)
Theorem update_feed_from_parsed_feed_clips
    (self : FeedDescription) (feed_info : FeedInfo) (save : bool) :
  let self' := (update_feed_from_parsed_feed self (Some feed_info) save).1 in
  let bounded (x : option string) :=
    ∀ s, x = Some s → (String.length s ≤ 499)%nat in
  fd_feed_url self' = fd_feed_url self
  ∧ bounded (fd_link self') ∧ bounded (fd_title self')
  ∧ bounded (fd_description self')
  ∧ fd_title self'
    = (if truthy_str (fi_title feed_info)
       then String.substring 0 499 <$> fi_title feed_info
       else fi_title feed_info)
  ∧ fd_description self'
    = (if truthy_str (fi_subtitle feed_info)
       then String.substring 0 499 <$> fi_subtitle feed_info
       else fi_subtitle feed_info)
  ∧ (∀ s, fd_link self' = Some s →
          String.prefix "http" s = true
          ∧ fi_link feed_info ≠ None
          ∧ Some s = String.substring 0 499 <$> fi_link feed_info)
  ∧ (not_http (fi_link feed_info) = true →
     fd_link self' = None
     ∧ effective_link self' = Some (fd_feed_url self)).
Proof.
  intros self' bounded.
  destruct (update_feed_from_parsed_feed_fields self feed_info save)
    as (Hurl & Hlink & Htitle & Hdesc).
  fold self' in Hurl, Hlink, Htitle, Hdesc.
  split_and!; try done.
  - intros s Hs. rewrite Hlink in Hs. by apply clip_bounded in Hs.
  - intros s Hs. rewrite Htitle in Hs. by apply clip_bounded in Hs.
  - intros s Hs. rewrite Hdesc in Hs. by apply clip_bounded in Hs.
  - intros s Hs. rewrite Hlink in Hs. split; [by apply clipped_link_http in Hs|].
    destruct (not_http (fi_link feed_info)) eqn:Hn; [done|].
    destruct (fi_link feed_info) as [s0|]; [|done]. simpl in Hn.
    apply orb_false_iff in Hn as [He _].
    unfold clip, truthy_str in Hs. rewrite He in Hs. simpl in Hs.
    split; [done|]. simpl. unfold slice_0_499 in Hs. congruence.
  - intros Hn. rewrite Hn in Hlink. unfold link_from_feed_url in Hlink.
    split; [done|]. unfold effective_link. rewrite Hlink, Hurl. done.
Qed.

(** X15: [update_feed_from_parsed_feed] returns [True] exactly when it
    changed the feed and [False] when the feed already had the values
    of the parsed feed; it changes nothing and returns nothing for a
    falsy parsed feed. Applied again with the same parsed feed it
    returns [False] (or nothing) and leaves the feed as it is. *)
Theorem update_feed_from_parsed_feed_idempotent
    (self : FeedDescription) (parsed_feed : option FeedInfo)
    (save save' : bool) :
  let first := update_feed_from_parsed_feed self parsed_feed save in
  (first.2 = Some true ↔ first.1 ≠ self)
  ∧ (first.2 = None ↔ parsed_feed = None)
  ∧ update_feed_from_parsed_feed first.1 parsed_feed save'
    = (first.1, match parsed_feed with
                | Some _ => Some false
                | None => None
                end).
Proof.
  intros first.
  destruct parsed_feed as [feed_info|]; [|by split_and!].
  pose proof (update_feed_from_parsed_feed_fields self feed_info save)
    as (Hurl & Hlink & Htitle & Hdesc).
  fold first in Hurl, Hlink, Htitle, Hdesc.
  split_and!.
  - unfold first, update_feed_from_parsed_feed.
    destruct (_ || _) eqn:Hch; simpl.
    + split; [|done]. intros _ Heq.
      rewrite !orb_true_iff, !bool_decide_eq_true in Hch.
      destruct self; simpl in *. injection Heq as <- <- <-. tauto.
    + split; [done|]. intros Hne. done.
  - unfold first, update_feed_from_parsed_feed. by destruct (_ || _).
  - generalize dependent first. intros self1 _ Hlink Htitle Hdesc.
    unfold update_feed_from_parsed_feed.
    rewrite !bool_decide_eq_false_2; [done|intros []; congruence..].
Qed.

(** * The keys of users *)

Lemma to_int_not_nil (n : Z) :
  Z.to_int n ≠ Decimal.Pos Decimal.Nil ∧ Z.to_int n ≠ Decimal.Neg Decimal.Nil.
Proof.
  destruct n as [|p|p]; simpl; split; try discriminate;
    intros [= H]; by apply (DecimalPos.Unsigned.to_uint_nonnil p).
Qed.

Lemma percent_d_inj (a b : Z) : percent_d a = percent_d b → a = b.
Proof.
  unfold percent_d. intros Heq.
  apply DecimalZ.to_int_inj.
  destruct (to_int_not_nil a) as [Ha1 Ha2], (to_int_not_nil b) as [Hb1 Hb2].
  pose proof (NilZero.isi (Z.to_int a) Ha1 Ha2) as Ha.
  pose proof (NilZero.isi (Z.to_int b) Hb1 Hb2) as Hb.
  rewrite Heq in Ha. congruence.
Qed.

(** X16: [User.key_from_adn_user] gives different keys to different
    ids: two users have the same key only if they have the same id. *)
Theorem key_from_adn_user_injective (a b : Z) :
  key_from_adn_user a = key_from_adn_user b ↔ a = b.
Proof.
  split; [|by intros ->].
  unfold key_from_adn_user. simpl. intros [= Heq]. by apply percent_d_inj.
Qed.

(** * The keys of a task *)

Section JoinSplit.

Variable c : ascii.

Lemma split_nonempty (s : string) : split c s ≠ [].
Proof.
  destruct s as [|a s]; simpl; [done|].
  destruct (Ascii.eqb a c); [done|]. by destruct (split c s).
Qed.

Lemma split_no_sep (x : string) :
  has_char c x = false → split c x = [x].
Proof.
  induction x as [|a x IH]; simpl; [done|].
  intros [Ha Hx]%orb_false_iff. rewrite Ha, (IH Hx). done.
Qed.

Lemma split_app_sep (x s : string) :
  has_char c x = false →
  split c (x ++ String c s) = x :: split c s.
Proof.
  induction x as [|a x IH]; simpl.
  - intros _. by rewrite Ascii.eqb_refl.
  - intros [Ha Hx]%orb_false_iff. rewrite Ha, (IH Hx). done.
Qed.

(** [sep.join(l).split(sep)] gives [l] back when [l] is not empty and
    no string of it holds the separator. *)
Lemma split_join (l : list string) :
  l ≠ [] → Forall (λ x, has_char c x = false) l →
  split c (join (String c EmptyString) l) = l.
Proof.
  induction l as [|x l IH]; [done|]. intros _ Hall.
  apply Forall_cons in Hall as [Hx Hl].
  destruct l as [|y l]; simpl.
  - by apply split_no_sep.
  - change (String c EmptyString ++ ?s)%string with (String c s).
    rewrite split_app_sep by done. f_equal. by apply IH.
Qed.

Lemma join_nonempty (sep : string) (l : list string) :
  l ≠ [] → Forall (λ x, x ≠ EmptyString) l → join sep l ≠ EmptyString.
Proof.
  destruct l as [|x l]; [done|]. intros _ [Hx _]%Forall_cons.
  destruct l; simpl; [done|]. by destruct x.
Qed.

End JoinSplit.

Section Tasks.

Variable urlsafe : FeedKey → string.
Variable Key_urlsafe : string → option FeedKey.
(** The keys at hand: [Key] reads their strings back, and the strings
    are not empty and hold no comma. *)
Variable at_hand : FeedKey → Prop.
Hypothesis Hround : ∀ k, at_hand k → Key_urlsafe (urlsafe k) = Some k.
Hypothesis Hcomma : ∀ k, at_hand k → has_char "," (urlsafe k) = false.
Hypothesis Hnonempty : ∀ k, at_hand k → urlsafe k ≠ EmptyString.

Local Abbreviation task_keys := (task_keys Key_urlsafe).

Lemma ndb_keys_of_urlsafe (ks : list FeedKey) :
  Forall at_hand ks →
  ndb_keys_of Key_urlsafe (urlsafe <$> ks) = inr ks.
Proof.
  induction ks as [|k ks IH]; [done|]. intros [Hk Hks]%Forall_cons.
  rewrite fmap_cons. cbn [ndb_keys_of]. by rewrite Hround, IH.
Qed.

Lemma task_keys_join (page : list (FeedKey * Feed)) :
  Forall at_hand page.*1 → page ≠ [] →
  task_keys
    {| params_keys :=
         join "," ((λ x : FeedKey * Feed, urlsafe x.1) <$> page) |}
  = page.*1.
Proof.
  intros Hall Hpage. unfold task_keys. cbn [params_keys].
  replace ((λ x : FeedKey * Feed, urlsafe x.1) <$> page)
    with (urlsafe <$> page.*1) by (by rewrite <- list_fmap_compose).
  rewrite split_join.
  - by rewrite ndb_keys_of_urlsafe.
  - by destruct page.
  - apply Forall_fmap. eapply Forall_impl; [exact Hall|]. apply Hcomma.
Qed.

Lemma page_keys_nonempty (page : list (FeedKey * Feed)) :
  Forall at_hand page.*1 → page ≠ [] →
  String.eqb (join "," ((λ x : FeedKey * Feed, urlsafe x.1) <$> page))
    EmptyString = false.
Proof.
  intros Hall Hpage. apply String.eqb_neq.
  replace ((λ x : FeedKey * Feed, urlsafe x.1) <$> page)
    with (urlsafe <$> page.*1) by (by rewrite <- list_fmap_compose).
  apply join_nonempty.
  - by destruct page.
  - apply Forall_fmap. eapply Forall_impl; [exact Hall|]. apply Hnonempty.
Qed.

Lemma update_all_feeds_loop_spec (fuel : nat) :
  ∀ (feeds : list (FeedKey * Feed)) (cursor : nat) (futures : list Task)
    (success : Z),
    Forall at_hand feeds.*1 →
    (length (drop cursor feeds) < fuel)%nat →
    ∃ tasks n,
      update_all_feeds_loop urlsafe fuel feeds cursor futures success
      = Some (futures ++ tasks, n)
      ∧ mjoin (task_keys <$> tasks) = (drop cursor feeds).*1
      ∧ Forall (λ t, (0 < length (task_keys t) ≤ 100)%nat) tasks
      ∧ length tasks = ((length (drop cursor feeds) + 99) / 100)%nat.
Proof.
  induction fuel as [|fuel IH];
    intros feeds cursor futures success Hhand Hfuel; [lia|].
  cbn [update_all_feeds_loop]. unfold fetch_page_of.
  remember (drop cursor feeds) as rest eqn:Hrest_eq.
  destruct (decide (rest = [])) as [Hnil|Hrest].
  { rewrite Hnil. cbn [take fmap list_fmap join length].
    rewrite bool_decide_eq_false_2 by (simpl; lia).
    exists [], success. rewrite app_nil_r. by split_and!. }
  assert (take 100 rest ≠ []) as Hpage by (by destruct rest).
  assert (Forall at_hand (take 100 rest).*1) as Hpagehand.
  { rewrite Forall_forall in Hhand. apply Forall_forall. intros k Hk.
    apply Hhand. apply list_elem_of_fmap in Hk as (x & -> & Hx).
    apply list_elem_of_fmap. exists x. split; [done|].
    apply elem_of_take in Hx as (i & Hx%list_elem_of_lookup_2 & _).
    subst rest. apply list_elem_of_lookup in Hx as [j Hj].
    rewrite lookup_drop in Hj. by eapply list_elem_of_lookup_2. }
  rewrite (page_keys_nonempty _ Hpagehand Hpage).
  pose proof (task_keys_join _ Hpagehand Hpage) as Hkeys.
  set (task := {| params_keys := _ |}) in *.
  assert (0 < length rest)%nat as Hpos
    by (destruct rest; simpl; [done|lia]).
  assert (0 < length (task_keys task) ≤ 100)%nat as Hsize.
  { rewrite Hkeys, length_fmap, length_take. lia. }
  case_bool_decide as Hmore.
  - assert (length (take 100 rest) = 100%nat) as Hlen
      by (rewrite length_take; lia).
    rewrite Hlen.
    assert (drop (cursor + 100) feeds = drop 100 rest) as Hdrop
      by (subst rest; by rewrite drop_drop).
    destruct (IH feeds (cursor + 100)%nat (futures ++ [task]) (success + 1))
      as (tasks & n & Hrun & Hcat & Hall & Hcount); [done| |].
    { rewrite Hdrop, length_drop. lia. }
    exists (task :: tasks), n. split_and!.
    + rewrite Hrun. f_equal. by rewrite <- app_assoc.
    + rewrite fmap_cons. simpl. rewrite Hcat, Hkeys, Hdrop.
      by rewrite <- fmap_app, take_drop.
    + by constructor.
    + change (length (task :: tasks)) with (S (length tasks)).
      rewrite Hcount, Hdrop, length_drop.
      pose proof (Nat.div_mod_eq (length rest - 100 + 99)%nat 100%nat) as Hdm.
      pose proof (Nat.mod_upper_bound (length rest - 100 + 99)%nat 100%nat)
        as Hub.
      apply Nat.div_unique
        with (r := ((length rest - 100 + 99) `mod` 100)%nat); lia.
  - exists [task], (success + 1). split_and!.
    + done.
    + simpl. rewrite app_nil_r, Hkeys. by rewrite take_ge by lia.
    + by constructor.
    + change (length [task]) with 1%nat.
      apply Nat.div_unique with (r := (length rest - 1)%nat); lia.
Qed.

End Tasks.

Lemma for_interval_NoDup K update_interval interval_id w :
  NoDup (for_interval K update_interval interval_id w).*1.
Proof.
  unfold for_interval. apply NoDup_fmap_fst.
  - intros k x1 x2 [_ H1]%list_elem_of_filter [_ H2]%list_elem_of_filter.
    apply elem_of_map_to_list in H1, H2. congruence.
  - apply NoDup_filter, NoDup_map_to_list.
Qed.

Lemma elem_of_for_interval K update_interval interval_id w k x :
  (k, x) ∈ for_interval K update_interval interval_id w
  ↔ feeds w !! k = Some x
    ∧ update_interval k = interval_id ∧ status x = FEED_STATE_ACTIVE K.
Proof.
  unfold for_interval. rewrite list_elem_of_filter, elem_of_map_to_list.
  simpl. tauto.
Qed.

(** X17: a cron call of [update_all_feeds] queues every active feed of
    the interval for a poll exactly once. It adds one task for every
    hundred feeds (the last one for those that are left), each with at
    least one key and at most a hundred, and the keys that
    [tq_feed_poll] reads out of the tasks, by splitting the parameter at
    the commas, are the keys of those feeds, each once. A call without
    the cron header queues nothing. *)
Theorem update_all_feeds_queues_every_feed_once
    (K : Constants) (urlsafe : FeedKey → string)
    (Key_urlsafe : string → option FeedKey) (update_interval : FeedKey → Z)
    (request : CronRequest) (interval_id : Z) (w : World) :
  (∀ k, is_Some (feeds w !! k) →
        Key_urlsafe (urlsafe k) = Some k
        ∧ has_char "," (urlsafe k) = false ∧ urlsafe k ≠ EmptyString) →
  let result := update_all_feeds K urlsafe update_interval request interval_id w in
  let due := for_interval K update_interval interval_id w in
  let polled := mjoin (task_keys Key_urlsafe <$> result.1) in
  (headers_X_Appengine_Cron request ≠ Some "true"%string →
   result = ([], Return (jsonify_error "Not a cron call" 404)))
  ∧ (headers_X_Appengine_Cron request = Some "true"%string →
     result.2 = Return jsonify_ok
     ∧ Forall (λ t, (0 < length (task_keys Key_urlsafe t) ≤ 100)%nat) result.1
     ∧ length result.1 = ((length due + 99) / 100)%nat
     ∧ polled = due.*1
     ∧ NoDup polled
     ∧ ∀ k, k ∈ polled
            ↔ ∃ feed, feeds w !! k = Some feed
                      ∧ update_interval k = interval_id
                      ∧ status feed = FEED_STATE_ACTIVE K).
Proof.
  intros Hkeys result due polled. split.
  - intros Hcron. unfold result, update_all_feeds.
    by rewrite bool_decide_eq_true_2.
  - intros Hcron.
    assert (Forall (λ k, is_Some (feeds w !! k)) due.*1) as Hhand.
    { apply Forall_forall. intros k ([k' x] & -> & Hin)%list_elem_of_fmap.
      apply elem_of_for_interval in Hin as (Hf & _). by exists x. }
    destruct (update_all_feeds_loop_spec urlsafe Key_urlsafe
                (λ k, is_Some (feeds w !! k))
                (λ k Hk, proj1 (Hkeys k Hk))
                (λ k Hk, proj1 (proj2 (Hkeys k Hk)))
                (λ k Hk, proj2 (proj2 (Hkeys k Hk)))
                (S (length due)) due 0 [] 0 Hhand)
      as (tasks & n & Hrun & Hcat & Hall & Hcount).
    { rewrite drop_0. lia. }
    rewrite drop_0 in Hcat, Hcount.
    assert (result = (tasks, Return jsonify_ok)) as Hresult.
    { unfold result, update_all_feeds.
      rewrite bool_decide_eq_false_2 by (by intros ?).
      fold due. by rewrite Hrun. }
    unfold polled. rewrite Hresult. simpl.
    split_and!; try done.
    + rewrite Hcat. apply for_interval_NoDup.
    + intros k. rewrite Hcat. rewrite list_elem_of_fmap. split.
      * intros ([k' x] & -> & Hin). exists x.
        by apply elem_of_for_interval in Hin.
      * intros (x & Hx). exists (k, x). split; [done|].
        by apply elem_of_for_interval.
Qed.

Lemma update_all_feeds_queues_every_feed_once_witness :
  let result :=
    update_all_feeds Sample.constants Cases.urlsafe (λ _, 5)
      {| headers_X_Appengine_Cron := Some "true"%string |} 5
      Cases.many_feeds in
  let polled := mjoin (task_keys Cases.Key_urlsafe <$> result.1) in
  result.2 = Return jsonify_ok
  ∧ length result.1 = 2%nat
  ∧ length polled = 150%nat
  ∧ NoDup polled.
Proof.
  intros result polled.
  destruct (update_all_feeds_queues_every_feed_once Sample.constants
              Cases.urlsafe Cases.Key_urlsafe (λ _, 5)
              {| headers_X_Appengine_Cron := Some "true"%string |} 5
              Cases.many_feeds) as [_ Hcron].
  - assert (map_Forall
              (λ (k : FeedKey) (_ : Feed),
                 Cases.Key_urlsafe (Cases.urlsafe k) = Some k
                 ∧ has_char "," (Cases.urlsafe k) = false
                 ∧ Cases.urlsafe k ≠ EmptyString)
              (feeds Cases.many_feeds)) as Hall.
    { apply map_Forall_to_list.
      apply (bool_decide_unpack _). vm_compute. exact I. }
    intros k [x Hx]. exact (Hall k x Hx).
  - destruct (Hcron eq_refl) as (Hok & _ & Hlen & Hpolled & Hnodup & _).
    split_and!; [done| |  |done].
    + unfold result. rewrite Hlen. vm_compute. reflexivity.
    + unfold polled, result. rewrite Hpolled. vm_compute. reflexivity.
Defined.

(** * The poll task *)

Section PollTask.

Variable K : Constants.
Variable Item : Type.
Variable guid_for_item : Item → string.
Variable urlfetch_post : string → Feed → EntryKey → Entry → option Z.
Variable prepare_entry_from_item :
  ParsedFeed Item → Item → FeedKey → Feed → bool → Z → bool → option Kwargs.
Variable fetch_parsed_feed_for_feed :
  FeedKey → Feed → option (ParsedFeed Item * FetchResponse).
Variable get_language : string → option string.

Local Abbreviation poll_one :=
  (process_feed K Item guid_for_item urlfetch_post prepare_entry_from_item
     fetch_parsed_feed_for_feed get_language).
Local Abbreviation poll_all :=
  (poll_feeds K Item guid_for_item urlfetch_post prepare_entry_from_item
     fetch_parsed_feed_for_feed get_language).

Lemma process_feed_ingests now feed_key self overflow overflow_reason w
    parsed_feed resp g :
  fetch_parsed_feed_for_feed feed_key self = Some (parsed_feed, resp) →
  status_code resp ≠ 304 →
  g ∈ guid_for_item <$> pf_entries Item parsed_feed →
  is_Some (stored (poll_one now feed_key self overflow overflow_reason
                     w).1 !! (feed_key, g)).
Proof.
  intros Hfetch H304 Hg. unfold process_feed. unfold_M.
  rewrite (update_for_feed_fetched K Item guid_for_item urlfetch_post
             prepare_entry_from_item fetch_parsed_feed_for_feed
             get_language now feed_key self false false false
             (OVERFLOW_REASON_BACKLOG K) w parsed_feed resp Hfetch H304).
  simpl.
  pose proof (ingest_publish_drain_ingests K Item guid_for_item
                urlfetch_post prepare_entry_from_item now parsed_feed
                feed_key (refreshed Item get_language parsed_feed resp self)
                false false (OVERFLOW_REASON_BACKLOG K)
                (refreshed_world Item get_language parsed_feed resp
                   feed_key self w) g Hg) as Hin.
  destruct (ingest_publish_drain _ _ _ _ _ _ _ _ _ _ _ _ _ _)
    as [w' [[pf n]|e]]; exact Hin.
Qed.

(** What the loops of [tq_feed_poll] leave. *)
Lemma poll_feeds_spec now (feeds : list (FeedKey * option Feed)) :
  ∀ counts w,
    let result := poll_all now feeds counts w in
    posted result.1 = posted w ∧ users result.1 = users w
    ∧ (∀ k, is_Some (stored w !! k) → is_Some (stored result.1 !! k))
    ∧ success result.2 + errors result.2
      = success counts + errors counts + Z.of_nat (length feeds)
    ∧ (∀ feed_key feed parsed_feed resp g,
         (feed_key, Some feed) ∈ feeds →
         fetch_parsed_feed_for_feed feed_key feed = Some (parsed_feed, resp) →
         status_code resp ≠ 304 →
         g ∈ guid_for_item <$> pf_entries Item parsed_feed →
         is_Some (stored result.1 !! (feed_key, g))).
Proof.
  induction feeds as [|[feed_key [feed|]] rest IH]; intros counts w result.
  - unfold result. simpl. split_and!; try done; [lia|].
    intros ? ? ? ? ? Hin. by apply elem_of_nil in Hin.
  - unfold result. cbn [poll_feeds].
    destruct (process_feed_quiet K Item guid_for_item urlfetch_post
                prepare_entry_from_item fetch_parsed_feed_for_feed
                get_language now feed_key feed None None w)
      as (w1 & out & Hrun & Hp & Hu & _ & _ & Hkeep & _).
    pose proof (process_feed_ingests now feed_key feed None None w) as Hing. rewrite Hrun in Hing |- *. simpl in Hing.
    assert (∀ counts',
              success counts' + errors counts'
              = success counts + errors counts + 1 →
              let result' := poll_all now rest counts' w1 in
              posted result'.1 = posted w ∧ users result'.1 = users w
              ∧ (∀ k, is_Some (stored w !! k) →
                      is_Some (stored result'.1 !! k))
              ∧ success result'.2 + errors result'.2
                = success counts + errors counts
                  + Z.of_nat (length ((feed_key, Some feed) :: rest))
              ∧ (∀ feed_key0 feed0 parsed_feed resp g,
                   (feed_key0, Some feed0) ∈ (feed_key, Some feed) :: rest →
                   fetch_parsed_feed_for_feed feed_key0 feed0
                   = Some (parsed_feed, resp) →
                   status_code resp ≠ 304 →
                   g ∈ guid_for_item <$> pf_entries Item parsed_feed →
                   is_Some (stored result'.1 !! (feed_key0, g)))) as Hrest.
    { intros counts' Hcounts result'.
      destruct (IH counts' w1) as (Hp' & Hu' & Hkeep' & Hsum' & Hing').
      fold result' in Hp', Hu', Hkeep', Hsum', Hing'.
      split_and!.
      - congruence.
      - congruence.
      - intros k Hk. by apply Hkeep', Hkeep.
      - rewrite Hsum', Hcounts. simpl length. lia.
      - intros fk0 feed0 pf resp g [Hhere|Hin]%elem_of_cons Hf H304 Hg.
        + injection Hhere as -> ->. apply Hkeep'. by eapply Hing.
        + by eapply Hing'. }
    destruct out as [[pf n]|e]; apply Hrest; simpl; lia.
  - unfold result. cbn [poll_feeds].
    destruct (IH {| success := success counts; errors := errors counts + 1;
                    entries_created := entries_created counts |} w)
      as (Hp' & Hu' & Hkeep' & Hsum' & Hing').
    split_and!; try done.
    + rewrite Hsum'. simpl. lia.
    + intros fk0 feed0 pf resp g [Hhere|Hin]%elem_of_cons Hf H304 Hg;
        [done|]. by eapply Hing'.
Qed.

End PollTask.

(** X18: [tq_feed_poll] never posts, keeps the users and deletes no
    entry. Without the queue header it refuses and changes nothing.
    When its keys are read, it answers ok whatever the polls do: every
    key is counted as a success or as an error, and every feed among the
    keys whose fetch gives a parsed feed (other than a 304) has all the
    guids of that parsed feed stored when the task is done, also when
    the poll of another feed raised. *)
Theorem tq_feed_poll_polls_every_feed
    (K : Constants) (Item : Type) (guid_for_item : Item → string)
    (urlfetch_post : string → Feed → EntryKey → Entry → option Z)
    (prepare_entry_from_item :
       ParsedFeed Item → Item → FeedKey → Feed → bool → Z → bool
       → option Kwargs)
    (fetch_parsed_feed_for_feed :
       FeedKey → Feed → option (ParsedFeed Item * FetchResponse))
    (get_language : string → option string)
    (Key_urlsafe : string → option FeedKey)
    (now : Z) (request : TaskRequest) (w : World) :
  let result :=
    tq_feed_poll K Item guid_for_item urlfetch_post prepare_entry_from_item
      fetch_parsed_feed_for_feed get_language Key_urlsafe now request w in
  let w' := result.1.1 in
  posted w' = posted w ∧ users w' = users w
  ∧ (∀ k, is_Some (stored w !! k) → is_Some (stored w' !! k))
  ∧ (truthy_str (headers_X_AppEngine_QueueName request) = false →
     result.1 = (w, Responded (jsonify_error "Not a Task call" 404)))
  ∧ (∀ keys ndb_keys,
       truthy_str (headers_X_AppEngine_QueueName request) = true →
       form_keys request = Some keys → keys ≠ EmptyString →
       ndb_keys_of Key_urlsafe (split "," keys) = inr ndb_keys →
       result.1.2 = Responded jsonify_ok
       ∧ success result.2 + errors result.2 = Z.of_nat (length ndb_keys)
       ∧ ∀ feed_key feed parsed_feed resp g,
           feed_key ∈ ndb_keys → feeds w !! feed_key = Some feed →
           fetch_parsed_feed_for_feed feed_key feed = Some (parsed_feed, resp) →
           status_code resp ≠ 304 →
           g ∈ guid_for_item <$> pf_entries Item parsed_feed →
           is_Some (stored w' !! (feed_key, g))).
Proof.
  intros result w'. unfold w', result, tq_feed_poll.
  destruct (truthy_str (headers_X_AppEngine_QueueName request)) eqn:Hq; simpl.
  2:{ split_and!; try done. }
  destruct (form_keys request) as [keys|] eqn:Hkeys.
  2:{ split_and!; try done. }
  destruct (String.eqb_spec keys EmptyString) as [->|Hne].
  { split_and!; try done. intros ? ? _ [= <-]. done. }
  destruct (ndb_keys_of Key_urlsafe (split "," keys)) as [bad|ndb_keys] eqn:Hk.
  { split_and!; try done. intros ? ? _ [= <-] _. by rewrite Hk. }
  pose proof (poll_feeds_spec K Item guid_for_item urlfetch_post
                prepare_entry_from_item fetch_parsed_feed_for_feed
                get_language now ((λ k, (k, feeds w !! k)) <$> ndb_keys)
                {| success := 0; errors := 0; entries_created := 0 |} w)
    as (Hp & Hu & Hkeep & Hsum & Hing).
  destruct (poll_feeds _ _ _ _ _ _ _ _ _ _ _) as [w1 counts]. simpl in *.
  split_and!; try done.
  intros keys' ndb_keys' _ [= <-] _. rewrite Hk. intros [= <-].
  split_and!; [done|by rewrite Hsum, length_fmap|].
  intros fk feed pf resp g Hin Hf. apply Hing.
  apply list_elem_of_fmap. exists fk. by rewrite Hf.
Qed.

(** * The post job *)

Section PostJob.

Variable K : Constants.
Variable urlfetch_post : string → Feed → EntryKey → Entry → option Z.

Local Abbreviation publish_entry := (publish_entry K urlfetch_post).
Local Abbreviation publish_each := (publish_each K urlfetch_post).
Local Abbreviation publish_for_feed := (publish_for_feed K urlfetch_post).

(** [publish_entry] writes below the feed of its entry only. *)
Lemma publish_entry_below now key self w w' out k :
  key_parent k ≠ key_parent key →
  publish_entry now key self w = (w', out) →
  stored w' !! k = stored w !! k.
Proof.
  intros Hk Hrun.
  destruct (owned_or_not (key_parent key) w) as [(feed & user & Ho)|Hno].
  - destruct (publish_entry_owned K urlfetch_post _ _ _ _ _ _ _ _ Ho Hrun)
      as (_ & _ & _ & Hother & _).
    apply Hother. by intros ->.
  - revert Hrun. unfold publish_entry, publish_entry_self. unfold_M.
    destruct (feeds w !! key_parent key) as [feed|] eqn:Hf.
    + destruct (key_parent (key_parent key)) as [uk|] eqn:Hp.
      * destruct (users w !! uk) as [user|] eqn:Hu.
        -- destruct Hno. exists feed, user. split; [done|]. by exists uk.
        -- by intros [= <- <-].
      * destruct (delete_for_feed_spec (key_parent key) w)
          as (w1 & -> & _ & Hst).
        unfold delete_feed_key. unfold_M. intros [= <- <-]. simpl.
        rewrite Hst. destruct (stored w !! k) as [e|]; [|done].
        destruct (matches (latest_for_feed (key_parent key)) (k, e)) eqn:Hm;
          [|done].
        by apply latest_for_feed_matches in Hm as [? _].
    + by intros [= <- <-].
Qed.

Lemma publish_each_below now feed_key (l : list Row) n w w' out k :
  (∀ r, r ∈ l → key_parent r.1 = feed_key) →
  key_parent k ≠ feed_key →
  publish_each now l n w = (w', out) →
  stored w' !! k = stored w !! k.
Proof.
  revert n w. induction l as [|r l IH]; intros n w Hl Hk; simpl.
  - unfold_M. by intros [= <- <-].
  - unfold_M.
    assert (key_parent r.1 = feed_key) as Hr by (apply Hl; left).
    destruct (publish_entry now r.1 r.2 w) as [w1 [[]|e]] eqn:Hrun.
    + intros Hrest.
      rewrite (IH _ _ (λ r Hr, Hl r (list_elem_of_further _ _ _ Hr)) Hk Hrest).
      eapply publish_entry_below; [|exact Hrun]. by rewrite Hr.
    + intros [= <- <-].
      eapply publish_entry_below; [|exact Hrun]. by rewrite Hr.
Qed.

Lemma publish_for_feed_below now feed_key feed skip_queue w w' out k :
  key_parent k ≠ feed_key →
  publish_for_feed now feed_key feed skip_queue w = (w', out) →
  stored w' !! k = stored w !! k.
Proof.
  intros Hk. unfold publish_for_feed. unfold_M.
  destruct ((0 <? remaining_budget K now feed_key feed w) || skip_queue);
    [|by intros [= <- <-]].
  unfold fetch. unfold_M.
  destruct (_ <? 0); [by intros [= <- <-]|].
  apply publish_each_below with (feed_key := feed_key); [|done].
  intros r (i & Hr%list_elem_of_lookup_2 & _)%elem_of_take.
  by apply (run_query_parent (latest_unpublished feed_key) w).
Qed.

Lemma post_feeds_spec now (l : list (FeedKey * Feed)) :
  NoDup l.*1 →
  ∀ counts w0 w,
    (∀ k, key_parent k ∈ l.*1 → stored w !! k = stored w0 !! k) →
    ∃ w' counts' (sent : list Row),
      post_feeds K urlfetch_post now l counts w = (w', Return counts')
      ∧ posted w' = posted w ++ sent.*1
      ∧ NoDup sent.*1
      ∧ Forall (λ r, stored w0 !! r.1 = Some r.2
                     ∧ published r.2 = false ∧ creating r.2 = false
                     ∧ key_parent r.1 ∈ l.*1) sent.
Proof.
  induction l as [|[feed_key feed] rest IH]; intros Hnodup counts w0 w Hsame.
  - exists w, counts, []. simpl. unfold_M. rewrite app_nil_r.
    split_and!; [done|done|constructor|constructor].
  - rewrite fmap_cons in Hnodup. apply NoDup_cons in Hnodup as [Hnotin Hrest].
    cbn [post_feeds]. destruct counts as [[success errors] num_posted].
    destruct (publish_for_feed now feed_key feed false w) as [w1 out] eqn:Hrun.
    destruct (publish_for_feed_posts K urlfetch_post _ _ _ _ _ _ _ Hrun)
      as (l' & Hpre & Hposted).
    assert (∀ r, r ∈ l' → stored w0 !! r.1 = Some r.2
                           ∧ published r.2 = false ∧ creating r.2 = false
                           ∧ key_parent r.1 = feed_key) as Hl'.
    { intros r Hr. assert (r ∈ run_query (latest_unpublished feed_key) w)
        as Hin by (destruct Hpre as [? ->]; apply elem_of_app; by left).
      apply elem_of_run_query in Hin as [Hst Hm].
      destruct r as [k e].
      apply latest_unpublished_matches in Hm as (Hk & Hp & Hc).
      simpl in *. split_and!; try done. rewrite <- Hsame; [done|].
      rewrite Hk. simpl. by left. }
    assert (NoDup l'.*1) as Hnd'.
    { destruct Hpre as [l2 Heq].
      pose proof (run_query_from_NoDup (latest_unpublished feed_key) None w)
        as Hn. unfold run_query in Heq. rewrite Heq, fmap_app in Hn.
      by apply NoDup_app in Hn as [? _]. }
    assert (∀ k, key_parent k ∈ rest.*1 → stored w1 !! k = stored w0 !! k)
      as Hsame1.
    { intros k Hk. rewrite <- Hsame by (simpl; by right).
      eapply publish_for_feed_below; [|exact Hrun]. by intros <-. }
    assert (∀ counts1,
              ∃ w' counts' (sent : list Row),
                post_feeds K urlfetch_post now rest counts1 w1
                = (w', Return counts')
                ∧ posted w' = posted w ++ sent.*1
                ∧ NoDup sent.*1
                ∧ Forall (λ r, stored w0 !! r.1 = Some r.2
                               ∧ published r.2 = false ∧ creating r.2 = false
                               ∧ key_parent r.1
                                 ∈ ((feed_key, feed) :: rest).*1) sent)
      as Hgo.
    { intros counts1.
      destruct (IH Hrest counts1 w0 w1 Hsame1)
        as (w' & counts' & sent & Hrun' & Hp' & Hnd & Hall).
      exists w', counts', (l' ++ sent). split_and!.
      - done.
      - rewrite Hp', Hposted, fmap_app, app_assoc. done.
      - rewrite fmap_app. apply NoDup_app. split_and!; [done| |done].
        intros k ([k1 e1] & -> & Hin1)%list_elem_of_fmap
                 ([k2 e2] & Heq & Hin2)%list_elem_of_fmap.
        simpl in Heq. subst k2.
        destruct (Hl' _ Hin1) as (_ & _ & _ & Hk1).
        rewrite Forall_forall in Hall.
        destruct (Hall _ Hin2) as (_ & _ & _ & Hk2). simpl in *.
        rewrite Hk1 in Hk2. done.
      - apply Forall_app. split.
        + apply Forall_forall. intros r Hr.
          destruct (Hl' r Hr) as (? & ? & ? & Hk).
          split_and!; try done. rewrite Hk. simpl. by left.
        + eapply Forall_impl; [exact Hall|]. simpl.
          intros r (? & ? & ? & ?). split_and!; try done. by right. }
    destruct out as [num_posts|e]; apply Hgo.
Qed.

End PostJob.

(** X19: [post_all_feeds] refuses a call without the cron header and
    changes nothing then. A cron call answers ok whatever the POSTs do.
    It issues a POST for no entry twice, and only for entries that were
    stored unpublished and enriched, below a stored feed, when the call
    began: it never posts an entry again that was published. *)
Theorem post_all_feeds_posts_each_entry_once
    (K : Constants) (urlfetch_post : string → Feed → EntryKey → Entry → option Z)
    (now : Z) (request : CronRequest) (w : World) :
  let result := post_all_feeds K urlfetch_post now request w in
  (headers_X_Appengine_Cron request ≠ Some "true"%string →
   result = (w, Return (jsonify_error "Not a cron call" 404)))
  ∧ (headers_X_Appengine_Cron request = Some "true"%string →
     result.2 = Return jsonify_ok
     ∧ ∃ sent : list Row,
         posted result.1 = posted w ++ sent.*1
         ∧ NoDup sent.*1
         ∧ Forall (λ r, stored w !! r.1 = Some r.2
                        ∧ published r.2 = false ∧ creating r.2 = false
                        ∧ is_Some (feeds w !! key_parent r.1)) sent).
Proof.
  intros result. unfold result, post_all_feeds. split.
  - intros Hcron. by rewrite bool_decide_eq_true_2.
  - intros Hcron. rewrite bool_decide_eq_false_2 by (by intros ?). unfold_M.
    destruct (post_feeds_spec K urlfetch_post now (map_to_list (feeds w))
                (NoDup_fst_map_to_list _) (0, 0, 0) w w (λ _ _, eq_refl))
      as (w' & counts' & sent & -> & Hp & Hnd & Hall).
    simpl. split; [done|]. exists sent. split_and!; [done|done|].
    eapply Forall_impl; [exact Hall|]. simpl.
    intros [k e] (? & ? & ? & Hin). split_and!; try done.
    apply list_elem_of_fmap in Hin as ([fk f] & Hfk & Hin). simpl in *.
    apply elem_of_map_to_list in Hin. rewrite Hfk. by exists f.
Qed.

(** * The media feed *)

Section Media.

Variables (now : Z) (self_key : FeedKey) (overflow : bool)
          (overflow_reason : Z).

Local Abbreviation run_posts :=
  (λ posts, instagram_process_posts now self_key posts overflow
              overflow_reason).
Local Abbreviation entry_of :=
  (λ post, auto_now_add now (instagram_entry post overflow overflow_reason)).

(** The posts with their images: every id that is not stored gets the
    entry of the first post that has it; nothing stored is written. *)
Lemma instagram_process_posts_spec (posts : list InstagramPost) :
  Forall with_images posts →
  ∀ n w,
    ∃ w' c,
      run_posts posts n w = (w', Return c)
      ∧ same_frame w w'
      ∧ (∀ k, stored w' !! k =
              match stored w !! k with
              | Some e => Some e
              | None =>
                  if decide (key_parent k = self_key)
                  then entry_of <$> first_post (key_id k) posts
                  else None
              end)
      ∧ c - n = Z.of_nat (size (stored w')) - Z.of_nat (size (stored w)).
Proof.
  induction posts as [|post rest IH]; intros Hall n w.
  - exists w, n. simpl. unfold_M. split_and!; [done|done| |lia].
    intros k. destruct (stored w !! k); [done|]. by case_decide.
  - apply Forall_cons in Hall as [[Hstd Hlow] Hrest].
    cbn [instagram_process_posts]. unfold_M.
    destruct (stored w !! (self_key, post_id post)) as [e0|] eqn:Hhere.
    + destruct (IH Hrest n w) as (w' & c & Hrun & Hframe & Hst & Hc).
      exists w', c. split_and!; [done|done| |done].
      intros k. rewrite Hst. destruct (stored w !! k) eqn:Hk; [done|].
      case_decide as Hp; [|done]. unfold first_post. simpl.
      rewrite filter_cons. case_decide as Hid; [|done].
      destruct k as [p g]. simpl in *. subst. congruence.
    + rewrite Hstd, Hlow. simpl. unfold put_entry. unfold_M.
      set (w1 := with_stored _ w).
      destruct (IH Hrest (n + 1) w1) as (w' & c & Hrun & Hframe & Hst & Hc).
      exists w', c. split_and!; [done| | |].
      * destruct Hframe as (? & ? & ?). by split_and!.
      * intros k. rewrite Hst. unfold w1. simpl.
        destruct (decide (k = (self_key, post_id post))) as [->|Hne].
        -- rewrite lookup_insert_eq, Hhere. simpl.
           rewrite decide_True by done. unfold first_post.
           rewrite filter_cons. by rewrite decide_True.
        -- rewrite lookup_insert_ne by done.
           destruct (stored w !! k) eqn:Hk; [done|].
           case_decide as Hp; [|done]. unfold first_post.
           rewrite filter_cons. case_decide as Hid; [|done].
           destruct k as [p g]. simpl in *. subst. done.
      * unfold w1 in Hc. simpl in Hc.
        rewrite map_size_insert_None in Hc by done. lia.
Qed.

(** Posts whose ids are stored are passed over. *)
Lemma instagram_process_posts_known (posts : list InstagramPost) n w :
  Forall (λ p, is_Some (stored w !! (self_key, post_id p))) posts →
  run_posts posts n w = (w, Return n).
Proof.
  induction posts as [|post rest IH]; intros Hall; [done|].
  apply Forall_cons in Hall as [[e He] Hrest].
  cbn [instagram_process_posts]. unfold_M. rewrite He. by apply IH.
Qed.

Lemma instagram_process_posts_app (before after : list InstagramPost) n w :
  run_posts (before ++ after) n w
  = match run_posts before n w with
    | (w1, Return c) => run_posts after c w1
    | (w1, Raise e) => (w1, Raise e)
    end.
Proof.
  revert n w. induction before as [|post rest IH]; intros n w; [done|].
  cbn [instagram_process_posts app]. unfold_M.
  destruct (stored w !! (self_key, post_id post)); [apply IH|].
  destruct (negb (post_standard_resolution post)); [done|].
  destruct (negb (post_low_resolution post)); [done|].
  unfold put_entry. unfold_M. apply IH.
Qed.

End Media.

Lemma first_post_is_Some g (posts : list InstagramPost) :
  g ∈ post_id <$> posts → is_Some (first_post g posts).
Proof.
  intros (p & -> & Hin)%list_elem_of_fmap. unfold first_post.
  destruct (filter (λ p0, post_id p0 = post_id p) posts) as [|x l] eqn:Hf;
    [|by eexists].
  assert (p ∈ filter (λ p0, post_id p0 = post_id p) posts) as Hp
    by (by apply list_elem_of_filter).
  rewrite Hf in Hp. by apply elem_of_nil in Hp.
Qed.

(** X20: when every post of the media feed has its images,
    [InstagramFeed.process_feed] returns, and the number it returns is
    the number of entries it has created. It writes nothing that was
    stored: an id without an entry gets the entry of the first post
    that carries it, and every other entry, the feeds, the users and the
    posts sent are kept. Run again, on the same posts, it creates
    nothing and returns 0. *)
Theorem instagram_process_feed_adds_missing_posts
    (fetch_posts : FeedKey → Exn + list InstagramPost)
    (now now' : Z) (self_key : FeedKey) (overflow overflow' : bool)
    (overflow_reason overflow_reason' : Z) (w : World)
    (posts : list InstagramPost) :
  fetch_posts self_key = inr posts →
  Forall with_images posts →
  ∃ w' c,
    instagram_process_feed fetch_posts now self_key overflow overflow_reason w
    = (w', Return c)
    ∧ users w' = users w ∧ feeds w' = feeds w ∧ posted w' = posted w
    ∧ (∀ k e, stored w !! k = Some e → stored w' !! k = Some e)
    ∧ (∀ k, stored w !! k = None →
            stored w' !! k
            = if decide (key_parent k = self_key)
              then (λ post, auto_now_add now
                              (instagram_entry post overflow overflow_reason))
                     <$> first_post (key_id k) posts
              else None)
    ∧ c = Z.of_nat (size (stored w')) - Z.of_nat (size (stored w))
    ∧ instagram_process_feed fetch_posts now' self_key overflow'
        overflow_reason' w' = (w', Return 0).
Proof.
  intros Hfetch Hall. unfold instagram_process_feed. rewrite Hfetch.
  destruct (instagram_process_posts_spec now self_key overflow overflow_reason
              posts Hall 0 w) as (w' & c & Hrun & (Hu & Hf & Hp) & Hst & Hc).
  exists w', c. split_and!; try done.
  - intros k e He. by rewrite Hst, He.
  - intros k Hk. by rewrite Hst, Hk.
  - lia.
  - apply instagram_process_posts_known. apply Forall_forall. intros p Hp0.
    rewrite Hst. destruct (stored w !! (self_key, post_id p)); [done|].
    rewrite decide_True by done. simpl.
    destruct (first_post_is_Some (post_id p) posts) as [p' ->]; [|done].
    apply list_elem_of_fmap. by exists p.
Qed.

Lemma instagram_process_feed_adds_missing_posts_witness :
  ∃ w' c,
    instagram_process_feed Cases.fetch_media 100 Cases.media_key true 1
      Cases.media = (w', Return c)
    ∧ c = 1
    ∧ stored w' !! (Cases.media_key, "m1"%string)
      = Some (Sample.entry "m1" 10)
    ∧ Sample.flags <$> stored w' !! (Cases.media_key, "m2"%string)
      = Some (false, true, true, 1)
    ∧ instagram_process_feed Cases.fetch_media 200 Cases.media_key false 1 w'
      = (w', Return 0).
Proof.
  destruct (instagram_process_feed_adds_missing_posts Cases.fetch_media 100 200
              Cases.media_key true false 1 1 Cases.media Cases.media_posts)
    as (w' & c & Hrun & _ & _ & _ & Hkeep & Hnew & Hc & Hagain).
  - reflexivity.
  - repeat constructor.
  - exists w', c. split_and!; [done| | | |done].
    + pose proof Hrun as Heq. vm_compute in Heq. congruence.
    + apply Hkeep. vm_compute. reflexivity.
    + rewrite Hnew by (vm_compute; reflexivity). vm_compute. reflexivity.
Defined.

Lemma instagram_entry_flags post overflow overflow_reason now :
  let e := auto_now_add now (instagram_entry post overflow overflow_reason) in
  published e = overflow ∧ creating e = false ∧ published_at e = None.
Proof.
  simpl. rewrite published_auto_now_add, creating_auto_now_add,
    published_at_auto_now_add.
  unfold instagram_entry. by destruct overflow.
Qed.

(** X21: what [InstagramFeed.process_feed] creates with a true
    [overflow] never enters the queue and uses none of the budget: the
    result of [latest_unpublished] and the remaining budget of every
    feed are as before the run. Without [overflow], every entry it
    creates is in the queue of the feed afterwards. *)
Theorem instagram_process_feed_queues_unless_overflow
    (K : Constants) (fetch_posts : FeedKey → Exn + list InstagramPost)
    (now : Z) (self_key : FeedKey) (overflow : bool) (overflow_reason : Z)
    (w : World) (posts : list InstagramPost) :
  fetch_posts self_key = inr posts →
  Forall with_images posts →
  let w' :=
    (instagram_process_feed fetch_posts now self_key overflow overflow_reason
       w).1 in
  (overflow = true →
   (∀ feed_key cursor,
      run_query_from (latest_unpublished feed_key) cursor w'
      = run_query_from (latest_unpublished feed_key) cursor w)
   ∧ (∀ now' feed_key feed,
        remaining_budget K now' feed_key feed w'
        = remaining_budget K now' feed_key feed w))
  ∧ (overflow = false →
     ∀ post, post ∈ posts → stored w !! (self_key, post_id post) = None →
             (self_key, post_id post)
             ∈ (run_query (latest_unpublished self_key) w').*1).
Proof.
  intros Hfetch Hall w'.
  unfold w', instagram_process_feed. rewrite Hfetch.
  destruct (instagram_process_posts_spec now self_key overflow overflow_reason
              posts Hall 0 w) as (w1 & c & -> & _ & Hst & _). simpl.
  assert (∀ k e, stored w1 !! k = Some e → stored w !! k = Some e
                 ∨ (stored w !! k = None ∧ published e = overflow
                    ∧ creating e = false ∧ published_at e = None)) as Hcases.
  { intros k e. rewrite Hst. destruct (stored w !! k); [by left|].
    case_decide; [|done].
    destruct (first_post (key_id k) posts) as [p|]; [|done].
    intros [= <-]. right. split; [done|].
    apply instagram_entry_flags. }
  split.
  - intros ->. split.
    + intros feed_key cursor. apply run_query_from_ext.
      intros [k e] Hm. simpl.
      apply latest_unpublished_matches in Hm as (_ & Hp & _). split.
      * intros He. destruct (Hcases k e He) as [?|(_ & Hp' & _)]; [done|].
        congruence.
      * intros He. by rewrite Hst, He.
    + intros now' feed_key feed. unfold remaining_budget, count, run_query.
      do 3 f_equal. apply run_query_from_ext. intros [k e] Hm. simpl.
      apply matches_spec in Hm as [_ Hf]. simpl in Hf.
      rewrite !andb_true_iff in Hf. destruct Hf as [_ Hsince]. split.
      * intros He. destruct (Hcases k e He) as [?|(_ & _ & _ & Hat)]; [done|].
        by rewrite Hat in Hsince.
      * intros He. by rewrite Hst, He.
  - intros -> post Hin Hnew. apply elem_of_run_query_keys.
    destruct (first_post_is_Some (post_id post) posts) as [p Hp].
    { apply list_elem_of_fmap. by exists post. }
    exists (auto_now_add now (instagram_entry p false overflow_reason)).
    split.
    + rewrite Hst, Hnew. rewrite decide_True by done. simpl. by rewrite Hp.
    + apply latest_unpublished_matches.
      destruct (instagram_entry_flags p false overflow_reason now)
        as (? & ? & _).
      by split_and!.
Qed.

Lemma instagram_process_feed_queues_unless_overflow_witness :
  let backlog :=
    (instagram_process_feed Cases.fetch_media 100 Cases.media_key true 1
       Cases.media).1 in
  let fresh :=
    (instagram_process_feed Cases.fetch_media 100 Cases.media_key false 1
       Cases.media).1 in
  run_query (latest_unpublished Cases.media_key) backlog
  = run_query (latest_unpublished Cases.media_key) Cases.media
  ∧ ((Cases.media_key, "m2"%string)
     ∈ (run_query (latest_unpublished Cases.media_key) fresh).*1).
Proof.
  intros backlog fresh. split.
  - destruct (instagram_process_feed_queues_unless_overflow Sample.constants
                Cases.fetch_media 100 Cases.media_key true 1 Cases.media
                Cases.media_posts eq_refl) as [Hb _].
    + repeat constructor.
    + destruct (Hb eq_refl) as [Hq _]. apply Hq.
  - destruct (instagram_process_feed_queues_unless_overflow Sample.constants
                Cases.fetch_media 100 Cases.media_key false 1 Cases.media
                Cases.media_posts eq_refl) as [_ Hf].
    + repeat constructor.
    + apply (Hf eq_refl
               {| post_id := "m2"; post_standard_resolution := true;
                  post_low_resolution := true; post_caption := None;
                  post_link := Some "http://example.com/m2"%string |}).
      * right. left.
      * vm_compute. reflexivity.
Defined.

(** X22: a post without one of its image resolutions, whose id has no
    entry yet, stops [InstagramFeed.process_feed] with an
    AttributeError. The entries of the posts before it are created and
    stay; the posts after it are not read. *)
Theorem instagram_process_feed_stops_at_post_without_images
    (fetch_posts : FeedKey → Exn + list InstagramPost)
    (now : Z) (self_key : FeedKey) (overflow : bool) (overflow_reason : Z)
    (w : World) (before after : list InstagramPost) (bad : InstagramPost) :
  fetch_posts self_key = inr (before ++ bad :: after) →
  Forall with_images before →
  ¬ with_images bad →
  stored w !! (self_key, post_id bad) = None →
  post_id bad ∉ post_id <$> before →
  ∃ w1 c,
    instagram_process_posts now self_key before overflow overflow_reason 0 w
    = (w1, Return c)
    ∧ instagram_process_feed fetch_posts now self_key overflow overflow_reason
        w = (w1, Raise AttributeError)
    ∧ ∀ post, post ∈ before →
              is_Some (stored w1 !! (self_key, post_id post)).
Proof.
  intros Hfetch Hall Hbad Hnew Hfresh.
  unfold instagram_process_feed. rewrite Hfetch.
  rewrite instagram_process_posts_app.
  destruct (instagram_process_posts_spec now self_key overflow overflow_reason
              before Hall 0 w) as (w1 & c & Hrun & _ & Hst & _).
  exists w1, c. rewrite Hrun. split_and!; [done| |].
  - cbn [instagram_process_posts]. unfold_M.
    assert (stored w1 !! (self_key, post_id bad) = None) as ->.
    { rewrite Hst, Hnew. rewrite decide_True by done. simpl.
      unfold first_post.
      destruct (filter (λ p, post_id p = post_id bad) before) as [|x l] eqn:Hf;
        [done|].
      assert (x ∈ filter (λ p, post_id p = post_id bad) before) as Hx
        by (rewrite Hf; by left).
      apply list_elem_of_filter in Hx as [Hid Hx]. destruct Hfresh.
      apply list_elem_of_fmap. by exists x. }
    unfold with_images in Hbad.
    destruct (post_standard_resolution bad); simpl; [|done].
    destruct (post_low_resolution bad); simpl; [|done].
    by destruct Hbad.
  - intros post Hin. rewrite Hst.
    destruct (stored w !! (self_key, post_id post)); [done|].
    rewrite decide_True by done. simpl.
    destruct (first_post_is_Some (post_id post) before) as [p ->]; [|done].
    apply list_elem_of_fmap. by exists post.
Qed.

Lemma instagram_process_feed_stops_at_post_without_images_witness :
  ∃ w1,
    instagram_process_feed Cases.fetch_broken 100 Cases.media_key false 1
      Cases.media = (w1, Raise AttributeError)
    ∧ is_Some (stored w1 !! (Cases.media_key, "m2"%string))
    ∧ stored w1 !! (Cases.media_key, "m4"%string) = None.
Proof.
  destruct (instagram_process_feed_stops_at_post_without_images
              Cases.fetch_broken 100 Cases.media_key false 1 Cases.media
              Cases.media_posts
              [ {| post_id := "m4"; post_standard_resolution := true;
                   post_low_resolution := true; post_caption := None;
                   post_link := None |} ]
              {| post_id := "m3"; post_standard_resolution := true;
                 post_low_resolution := false; post_caption := None;
                 post_link := None |})
    as (w1 & c & Hbefore & Hrun & Hstored).
  - reflexivity.
  - repeat constructor.
  - intros [_ Hlow]. discriminate Hlow.
  - vm_compute. reflexivity.
  - apply (bool_decide_unpack _). vm_compute. exact I.
  - exists w1. split_and!; [done| |].
    + apply (Hstored {| post_id := "m2"; post_standard_resolution := true;
                        post_low_resolution := true; post_caption := None;
                        post_link := Some "http://example.com/m2"%string |}).
      right. left.
    + vm_compute in Hbefore. injection Hbefore as <- _. vm_compute.
      reflexivity.
Defined.

Lemma fetch_n_elem q n w k e :
  (k, e) ∈ fetch_n q n w → stored w !! k = Some e ∧ matches q (k, e) = true.
Proof.
  unfold fetch_n. intros Hin. apply elem_of_take in Hin as (i & Hi & _).
  apply list_elem_of_lookup_2 in Hi. by apply elem_of_run_query in Hi.
Qed.

Lemma fetch_n_NoDup q n w : NoDup (fetch_n q n w).*1.
Proof.
  unfold fetch_n. rewrite fmap_take.
  eapply sublist_NoDup; [|apply sublist_take]. apply run_query_from_NoDup.
Qed.

Lemma fetch_n_all q n w r :
  (length (run_query q w) ≤ n)%nat →
  stored w !! r.1 = Some r.2 → matches q r = true → r ∈ fetch_n q n w.
Proof.
  intros Hlen Hst Hm. unfold fetch_n. rewrite take_ge by done.
  by apply elem_of_run_query.
Qed.

(** X23: for a feed of the signed-in user, the two listings of
    [views.py] answer with the feed and at most 20 entries each, none
    twice. [unpublished_entries_for_feed] lists stored entries of the
    feed that are neither published nor being created, the newest
    first: an entry of the queue left out is not newer than one listed.
    [published_entries_for_feed] lists published entries that are not
    overflowed. No entry is in both listings, and a listing whose query
    has at most 20 results leaves none of them out. *)
Theorem listings_show_twenty_entries_of_the_feed
    (K : Constants) (g_user : UserKey) (feed_id : Z) (w : World)
    (feed : Feed) :
  feeds w !! (Some g_user, feed_id) = Some feed →
  let feed_key : FeedKey := (Some g_user, feed_id) in
  ∃ queue shown,
    unpublished_entries_for_feed g_user feed_id w = listing_ok feed queue
    ∧ published_entries_for_feed K g_user feed_id w = listing_ok feed shown
    ∧ (length queue ≤ 20)%nat ∧ (length shown ≤ 20)%nat
    ∧ NoDup queue.*1 ∧ NoDup shown.*1
    ∧ (∀ k e, (k, e) ∈ queue →
              stored w !! k = Some e ∧ key_parent k = feed_key
              ∧ published e = false ∧ creating e = false)
    ∧ (∀ k e, (k, e) ∈ shown →
              stored w !! k = Some e ∧ key_parent k = feed_key
              ∧ published e = true ∧ overflow e = false
              ∧ creating e = false)
    ∧ (∀ k, k ∈ queue.*1 → k ∉ shown.*1)
    ∧ (∀ r r', r ∈ queue →
               stored w !! r'.1 = Some r'.2 → key_parent r'.1 = feed_key →
               published r'.2 = false → creating r'.2 = false →
               r' ∉ queue → added_le (added r'.2) (added r.2))
    ∧ ((count (latest_unpublished feed_key) w ≤ 20) →
       ∀ k e, stored w !! k = Some e → key_parent k = feed_key →
              published e = false → creating e = false → (k, e) ∈ queue)
    ∧ ((count (latest K feed_key false None "-published_at") w ≤ 20) →
       ∀ k e, stored w !! k = Some e → key_parent k = feed_key →
              published e = true → overflow e = false →
              creating e = false → (k, e) ∈ shown).
Proof.
  intros Hfeed feed_key.
  exists (fetch_n (latest_unpublished feed_key) 20 w),
         (fetch_n (latest K feed_key false None "-published_at") 20 w).
  unfold unpublished_entries_for_feed, published_entries_for_feed.
  rewrite Hfeed. fold feed_key.
  assert (∀ k e, (k, e) ∈ fetch_n (latest_unpublished feed_key) 20 w →
                 stored w !! k = Some e ∧ key_parent k = feed_key
                 ∧ published e = false ∧ creating e = false) as Hqueue.
  { intros k e Hin. apply fetch_n_elem in Hin as [Hst Hm].
    by apply latest_unpublished_matches in Hm. }
  assert (∀ k e,
            (k, e) ∈ fetch_n (latest K feed_key false None "-published_at")
                       20 w →
            stored w !! k = Some e ∧ key_parent k = feed_key
            ∧ published e = true ∧ overflow e = false
            ∧ creating e = false) as Hshown.
  { intros k e Hin. apply fetch_n_elem in Hin as [Hst Hm].
    apply latest_matches in Hm as (? & ? & ? & ? & _). done. }
  split_and!; try done.
  - unfold fetch_n. rewrite length_take. lia.
  - unfold fetch_n. rewrite length_take. lia.
  - apply fetch_n_NoDup.
  - apply fetch_n_NoDup.
  - intros k Hq Hs.
    apply list_elem_of_fmap in Hq as ([k1 e1] & -> & Hq).
    apply list_elem_of_fmap in Hs as ([k2 e2] & Hk & Hs). simpl in Hk.
    subst k2.
    apply Hqueue in Hq as (Hst1 & _ & Hp1 & _).
    apply Hshown in Hs as (Hst2 & _ & Hp2 & _). congruence.
  - intros r [k' e'] Hr Hst Hpar Hpub Hcr Hnot. simpl in *.
    apply (take_newest feed_key w 20 r (k', e')); [done| |done].
    apply elem_of_run_query. split; [done|].
    by apply latest_unpublished_matches.
  - intros Hcount k e Hst Hpar Hpub Hcr.
    apply fetch_n_all; [unfold count in Hcount; lia|done|].
    by apply latest_unpublished_matches.
  - intros Hcount k e Hst Hpar Hpub Hov Hcr.
    apply fetch_n_all; [unfold count in Hcount; lia|done|].
    apply latest_matches. by split_and!.
Qed.

Lemma listings_show_twenty_entries_of_the_feed_witness :
  ∃ queue shown,
    unpublished_entries_for_feed Sample.user_key 7 Cases.one_posted
    = listing_ok Sample.feed queue
    ∧ published_entries_for_feed Sample.constants Sample.user_key 7
        Cases.one_posted = listing_ok Sample.feed shown
    ∧ (length queue + length shown = 3)%nat.
Proof.
  destruct (listings_show_twenty_entries_of_the_feed Sample.constants
              Sample.user_key 7 Cases.one_posted Sample.feed)
    as (queue & shown & Hq & Hs & _).
  - vm_compute. reflexivity.
  - exists queue, shown. split_and!; [done..|].
    vm_compute in Hq, Hs. injection Hq as <-. injection Hs as <-.
    reflexivity.
Defined.
